(** * Groq Speech-to-Text MCP server: batch dispatch, retry transport,
      transcript artifacts

    A shallow embedding of the batch pipeline of the server
    ([services/concurrency.ts], [services/groqAudio.ts],
    [services/transcripts.ts], [tools/transcribe.ts]) and the properties
    its specification states about it.

    Conventions of the embedding.
    - A JavaScript string is a [string]: its characters are the code units
      below 256.  Character-level work is done on [list ascii].
    - A JavaScript number that the code only uses as an integer is a [Z];
      a number that may carry a fraction is a [Q] (NaN and the infinities
      are outside the model).
    - An [async] function is a function of the state it reads and the
      outcomes the platform hands it (responses of [fetch], draws of
      [Math.random], the clock); a rejected promise is an [Err] result.
    - The file system is a finite map from absolute paths to contents. *)

From Stdlib Require Import ZArith QArith Qround Lia Lqa Ascii.
From stdpp Require Import base option list gmap strings.

Local Open Scope nat_scope.

(** * JavaScript strings *)

Module Js.

Abbreviation chars := String.list_ascii_of_string.
Abbreviation str := String.string_of_list_ascii.

Definition code (c : ascii) : nat := nat_of_ascii c.

Definition between (lo hi : nat) (c : ascii) : bool :=
  Nat.leb lo (code c) && Nat.leb (code c) hi.

(** [[0-9]], [[a-zA-Z0-9]] and [[a-zA-Z0-9._-]] *)
Definition isDigit (c : ascii) : bool := between 48 57 c.

Definition isAlnum (c : ascii) : bool :=
  between 97 122 c || between 65 90 c || isDigit c.

Definition isWord (c : ascii) : bool :=
  isAlnum c || Ascii.eqb c "." || Ascii.eqb c "_" || Ascii.eqb c "-".

Definition isUnderscore (c : ascii) : bool := Ascii.eqb c "_".

(** The white space and line terminators of [String.prototype.trim] that
    are code units below 256. *)
Definition isSpace (c : ascii) : bool :=
  between 9 13 c || Nat.eqb (code c) 32 || Nat.eqb (code c) 160.

Fixpoint dropWhile (p : ascii → bool) (l : list ascii) : list ascii :=
  match l with
  | [] => []
  | c :: l' => if p c then dropWhile p l' else l
  end.

Fixpoint takeWhile (p : ascii → bool) (l : list ascii) : list ascii :=
  match l with
  | [] => []
  | c :: l' => if p c then c :: takeWhile p l' else []
  end.

Definition dropWhileEnd (p : ascii → bool) (l : list ascii) : list ascii :=
  reverse (dropWhile p (reverse l)).

(** [s.trim()] *)
Definition trim (l : list ascii) : list ascii :=
  dropWhileEnd isSpace (dropWhile isSpace l).

(** [s.replace(/[p]+/g, "_")]: every maximal run of characters in the class
    [p] becomes one underscore.  [inRun] tells that the previous character
    was in the class. *)
Fixpoint squash (p : ascii → bool) (inRun : bool) (l : list ascii) : list ascii :=
  match l with
  | [] => []
  | c :: l' =>
      if p c then (if inRun then squash p true l' else "_"%char :: squash p true l')
      else c :: squash p false l'
  end.

(** [s.replace(/^_+|_+$/g, "")] *)
Definition stripUnderscores (l : list ascii) : list ascii :=
  dropWhileEnd isUnderscore (dropWhile isUnderscore l).

(** The one match [/\.([a-zA-Z0-9]+)$/] can have: the longest alphanumeric
    suffix, when it is not empty and a dot stands before it.  The result is
    the text before the dot and the suffix. *)
Definition matchExtension (l : list ascii) : option (list ascii * list ascii) :=
  let suffix := takeWhile isAlnum (reverse l) in
  match suffix, dropWhile isAlnum (reverse l) with
  | _ :: _, c :: before =>
      if Ascii.eqb c "." then Some (reverse before, reverse suffix) else None
  | _, _ => None
  end.

(** [s.replace(/\.[a-zA-Z0-9]+$/, "")] *)
Definition removeExtension (l : list ascii) : list ascii :=
  match matchExtension l with
  | Some (before, _) => before
  | None => l
  end.

(** [s.toLowerCase()] on code units below 256. *)
Definition toLower (c : ascii) : ascii :=
  if between 65 90 c || (between 192 222 c && negb (Nat.eqb (code c) 215))
  then ascii_of_nat (code c + 32) else c.

(** [s.split(sep)] for a one-character separator. *)
Fixpoint split (sep : ascii) (l : list ascii) : list (list ascii) :=
  match l with
  | [] => [[]]
  | c :: l' =>
      if Ascii.eqb c sep then [] :: split sep l'
      else match split sep l' with
           | seg :: segs => (c :: seg) :: segs
           | [] => [[c]]
           end
  end.

Definition nonEmpty (l : list ascii) : bool :=
  match l with [] => false | _ => true end.

(** [parts.filter(Boolean).at(-1)] *)
Definition lastNonEmpty (parts : list (list ascii)) : option (list ascii) :=
  last (filter nonEmpty parts).

(** [String(n)] for an integer [n]. *)
Definition digit (n : Z) : ascii := ascii_of_nat (Z.to_nat (48 + n)).

Fixpoint decimalGo (fuel : nat) (n : Z) : list ascii :=
  match fuel with
  | O => []
  | S fuel' =>
      if (n <? 10)%Z then [digit n]
      else decimalGo fuel' (n / 10)%Z ++ [digit (n mod 10)%Z]
  end.

Definition decimal (n : Z) : list ascii :=
  decimalGo (S (Z.to_nat (Z.log2 n))) n.

Definition ofZ (n : Z) : list ascii :=
  if (n <? 0)%Z then "-"%char :: decimal (- n) else decimal n.

(** [s.padStart(width, "0")] *)
Definition padStart (width : nat) (l : list ascii) : list ascii :=
  replicate (width - length l) "0"%char ++ l.

(** ** Prefixes and suffixes *)

Lemma dropWhile_drop p l : ∃ k, dropWhile p l = drop k l.
Proof.
  induction l as [|c l [k IH]]; [by exists 0|]. simpl.
  destruct (p c); [by exists (S k)|by exists 0].
Qed.

Lemma dropWhileEnd_take p l : ∃ k, dropWhileEnd p l = take k l.
Proof.
  unfold dropWhileEnd. destruct (dropWhile_drop p (reverse l)) as [k ->].
  rewrite reverse_drop, reverse_involutive. eauto.
Qed.

Lemma dropWhile_head p l c : head (dropWhile p l) = Some c → p c = false.
Proof.
  induction l as [|d l IH]; [done|]. simpl. destruct (p d) eqn:E; [done|].
  simpl. by intros [= <-].
Qed.

Lemma dropWhileEnd_last p l c : last (dropWhileEnd p l) = Some c → p c = false.
Proof. unfold dropWhileEnd. rewrite last_reverse. apply dropWhile_head. Qed.

Lemma head_take_Some {A} (l : list A) k x : head (take k l) = Some x → head l = Some x.
Proof. by destruct l, k. Qed.

(** ** Runs of underscores *)

(** Two underscores stand next to each other somewhere in the list. *)
Fixpoint doubled (l : list ascii) : bool :=
  match l with
  | [] => false
  | c :: l' =>
      (isUnderscore c && from_option isUnderscore false (head l')) || doubled l'
  end.

Lemma doubled_drop k l : doubled l = false → doubled (drop k l) = false.
Proof.
  revert k. induction l as [|c l IH]; intros [|k]; try done.
  simpl. intros H. apply orb_false_iff in H as [_ H]. by apply IH.
Qed.

Lemma doubled_take k l : doubled l = false → doubled (take k l) = false.
Proof.
  revert k. induction l as [|c l IH]; intros [|k]; try done.
  simpl. intros H. apply orb_false_iff in H as [H1 H2].
  rewrite (IH k H2), orb_false_r.
  destruct (isUnderscore c); [|done]. simpl in *.
  destruct l as [|d l], k; done.
Qed.

Lemma squash_head_inRun l c :
  head (squash isUnderscore true l) = Some c → isUnderscore c = false.
Proof.
  induction l as [|d l IH]; [done|]. simpl.
  destruct (isUnderscore d) eqn:E; [done|]. simpl. by intros [= <-].
Qed.

Lemma squash_collapsed inRun l : doubled (squash isUnderscore inRun l) = false.
Proof.
  revert inRun. induction l as [|c l IH]; intros inRun; [done|]. simpl.
  destruct (isUnderscore c) eqn:E.
  - destruct inRun; [done|]. simpl. rewrite IH, orb_false_r.
    destruct (head (squash isUnderscore true l)) as [d|] eqn:Hd; [|done].
    simpl. by apply squash_head_inRun in Hd.
  - simpl. by rewrite E, IH.
Qed.

Lemma squash_Forall (Q : ascii → Prop) p inRun l :
  Q "_"%char → (∀ c, c ∈ l → p c = false → Q c) → Forall Q (squash p inRun l).
Proof.
  intros HQ. revert inRun. induction l as [|c l IH]; intros inRun Hl; [done|].
  simpl. assert (Forall Q (squash p true l) ∧ Forall Q (squash p false l)) as [??].
  { split; apply IH; intros; apply Hl; by try right. }
  destruct (p c) eqn:E.
  - destruct inRun; [done|]. by constructor.
  - constructor; [|done]. apply Hl; [by left|done].
Qed.

(** ** Decimal numerals *)

Lemma digit_isDigit n : (0 ≤ n < 10)%Z → isDigit (digit n) = true.
Proof.
  intros H.
  assert (n ∈ [0; 1; 2; 3; 4; 5; 6; 7; 8; 9]%Z) as Hn
    by (rewrite !elem_of_cons; lia).
  rewrite !elem_of_cons, elem_of_nil in Hn.
  destruct_or!; by subst.
Qed.

Lemma decimalGo_digits fuel n : (0 ≤ n)%Z → Forall isDigit (decimalGo fuel n).
Proof.
  revert n. induction fuel as [|fuel IH]; intros n Hn; [done|]. simpl.
  destruct (Z.ltb_spec n 10).
  - apply Forall_singleton, Is_true_true, digit_isDigit. lia.
  - apply Forall_app. split.
    + apply IH. by apply Z.div_pos.
    + apply Forall_singleton, Is_true_true, digit_isDigit. by apply Z.mod_pos_bound.
Qed.

Lemma decimalGo_S fuel n :
  decimalGo (S fuel) n =
  if (n <? 10)%Z then [digit n]
  else decimalGo fuel (n / 10)%Z ++ [digit (n mod 10)%Z].
Proof. done. Qed.

Lemma decimalGo_length fuel n (w : nat) :
  (0 ≤ n < 2 ^ Z.of_nat (S fuel))%Z → (n < 10 ^ Z.of_nat (S w))%Z →
  w = 0 ∨ (10 ^ Z.of_nat w ≤ n)%Z →
  length (decimalGo (S fuel) n) = S w.
Proof.
  revert n w. induction fuel as [|fuel IH]; intros n w Hn Hhi Hlo;
    rewrite decimalGo_S; destruct (Z.ltb_spec n 10) as [Hlt|Hge].
  - destruct Hlo as [->|Hlo]; [done|]. destruct w; [done|].
    rewrite Nat2Z.inj_succ, Z.pow_succ_r in Hlo by lia.
    assert (0 < 10 ^ Z.of_nat w)%Z by (apply Z.pow_pos_nonneg; lia). lia.
  - change (2 ^ Z.of_nat 1)%Z with 2%Z in Hn. lia.
  - destruct Hlo as [->|Hlo]; [done|]. destruct w; [done|].
    rewrite Nat2Z.inj_succ, Z.pow_succ_r in Hlo by lia.
    assert (0 < 10 ^ Z.of_nat w)%Z by (apply Z.pow_pos_nonneg; lia). lia.
  - destruct w as [|w].
    { change (10 ^ Z.of_nat 1)%Z with 10%Z in Hhi. lia. }
    rewrite length_app. cbn [length]. rewrite (IH _ w); [lia| | |].
    + rewrite (Nat2Z.inj_succ (S fuel)), Z.pow_succ_r in Hn by lia.
      split; [apply Z.div_pos; lia|].
      apply Z.div_lt_upper_bound; lia.
    + rewrite (Nat2Z.inj_succ (S w)), Z.pow_succ_r in Hhi by lia.
      apply Z.div_lt_upper_bound; lia.
    + right. destruct Hlo as [|Hlo]; [done|].
      rewrite Nat2Z.inj_succ, Z.pow_succ_r in Hlo by lia.
      apply Z.div_le_lower_bound; lia.
Qed.

Lemma decimalGo_length_le fuel n (w : nat) :
  (0 ≤ n)%Z → (n < 10 ^ Z.of_nat (S w))%Z →
  length (decimalGo fuel n) ≤ S w.
Proof.
  revert n w. induction fuel as [|fuel IH]; intros n w Hn Hhi; [simpl; lia|].
  simpl. destruct (Z.ltb_spec n 10) as [Hlt|Hge]; [simpl; lia|].
  destruct w as [|w].
  { change (10 ^ Z.of_nat 1)%Z with 10%Z in Hhi. lia. }
  rewrite length_app. simpl. specialize (IH (n / 10)%Z w).
  rewrite (Nat2Z.inj_succ (S w)), Z.pow_succ_r in Hhi by lia.
  enough (length (decimalGo fuel (n / 10)) ≤ S w) by lia.
  apply IH.
  - apply Z.div_pos; lia.
  - apply Z.div_lt_upper_bound; lia.
Qed.

Lemma decimal_fuel n : (0 ≤ n)%Z → (n < 2 ^ Z.of_nat (S (Z.to_nat (Z.log2 n))))%Z.
Proof.
  intros Hn. destruct (decide (n = 0%Z)) as [->|Hne]; [done|].
  pose proof (Z.log2_spec n ltac:(lia)) as [_ H].
  pose proof (Z.log2_nonneg n).
  by rewrite Nat2Z.inj_succ, Z2Nat.id.
Qed.

Lemma ofZ_digits n : (0 ≤ n)%Z → Forall isDigit (ofZ n).
Proof.
  intros Hn. unfold ofZ. destruct (Z.ltb_spec n 0); [lia|].
  by apply decimalGo_digits.
Qed.

Lemma ofZ_length n (w : nat) :
  (10 ^ Z.of_nat w ≤ n < 10 ^ Z.of_nat (S w))%Z → length (ofZ n) = S w.
Proof.
  intros [Hlo Hhi]. assert (0 < n)%Z.
  { assert (0 < 10 ^ Z.of_nat w)%Z by (apply Z.pow_pos_nonneg; lia). lia. }
  unfold ofZ. destruct (Z.ltb_spec n 0); [lia|].
  apply decimalGo_length; [|done|by right].
  split; [lia|]. apply decimal_fuel. lia.
Qed.

(** ** Strings and lists of characters *)

Lemma chars_app s1 s2 : chars (s1 +:+ s2) = chars s1 ++ chars s2.
Proof.
  induction s1 as [|c s1 IH]; [done|].
  change (String c s1 +:+ s2) with (String c (s1 +:+ s2)). simpl. by rewrite IH.
Qed.

Lemma str_app l1 l2 : str (l1 ++ l2) = str l1 +:+ str l2.
Proof. induction l1 as [|c l1 IH]; [done|]. simpl. rewrite IH. reflexivity. Qed.

Lemma padStart_digits n (w : nat) :
  (0 ≤ n < 10 ^ Z.of_nat (S w))%Z →
  length (padStart (S w) (ofZ n)) = S w ∧ Forall isDigit (padStart (S w) (ofZ n)).
Proof.
  intros [Hlo Hhi]. unfold padStart.
  assert (length (ofZ n) ≤ S w) as Hlen.
  { unfold ofZ. destruct (Z.ltb_spec n 0); [lia|].
    by apply decimalGo_length_le. }
  split.
  - rewrite length_app, length_replicate. lia.
  - apply Forall_app. split; [|by apply ofZ_digits].
    by apply Forall_replicate.
Qed.

End Js.

(** * [services/concurrency.ts] *)

Module Concurrency.

Section pool.
Context {T R : Type}.
Variable items : list T.
Variable fn : T → nat → R.

(** A worker is either suspended at [await fn(items[currentIndex],
    currentIndex)], holding the value its promise settles with, or has
    left its loop through [return]. *)
Inductive worker :=
| Awaiting (currentIndex : nat) (value : R)
| Returned.

(** The variables the workers share: the pre-sized [results] array (a hole
    is [None]), the cursor [nextIndex] and the worker promises.  [calls]
    is a ghost log: the pairs (worker, index) of the calls of [fn], in
    call order. *)
Record pool := Pool {
  results : list (option R);
  nextIndex : nat;
  workers : list worker;
  calls : list (nat * nat)
}.

Definition init : pool :=
  Pool (replicate (length items) None) 0 [] [].

(** One pass of worker [w] from the head of its [while (true)] loop to its
    next suspension: read the cursor, return when it is past the end,
    else advance it and call [fn].  Nothing can interleave with it: the
    code between two [await]s runs to completion. *)
Definition enter (w : nat) (p : pool) : pool * worker :=
  let currentIndex := nextIndex p in
  match items !! currentIndex with
  | None => (p, Returned)
  | Some item =>
      (Pool (results p) (S currentIndex) (workers p)
            (calls p ++ [(w, currentIndex)]),
       Awaiting currentIndex (fn item currentIndex))
  end.

(** [worker()] as called by [Array.from]: the new worker runs up to its
    first suspension before the next one is created. *)
Definition spawn (p : pool) : pool :=
  let w := length (workers p) in
  let '(p', st) := enter w p in
  Pool (results p') (nextIndex p') (workers p' ++ [st]) (calls p').

Definition start (count : nat) : pool := Nat.iter count spawn init.

(** The promise awaited by worker [w] settles: the worker stores the value
    in its own slot and goes round its loop again.  Resuming a worker that
    has returned (or that does not exist) does nothing. *)
Definition resume (p : pool) (w : nat) : pool :=
  match workers p !! w with
  | Some (Awaiting currentIndex value) =>
      let p1 := Pool (<[currentIndex := Some value]> (results p))
                     (nextIndex p) (workers p) (calls p) in
      let '(p2, st) := enter w p1 in
      Pool (results p2) (nextIndex p2) (<[w := st]> (workers p2)) (calls p2)
  | _ => p
  end.

(** A schedule is the order in which the awaited promises settle, given by
    the worker that is resumed at each step. *)
Definition run (p : pool) (sched : list nat) : pool := foldl resume p sched.

Definition awaiting (st : worker) : bool :=
  match st with Awaiting _ _ => true | Returned => false end.

Definition inFlight (p : pool) : nat := length (filter awaiting (workers p)).

Definition settled (p : pool) : bool := forallb (negb ∘ awaiting) (workers p).

(** [Math.min(Math.max(1, Math.floor(maxConcurrency)), items.length)] *)
Definition workerCount (maxConcurrency : Q) : nat :=
  Z.to_nat (Z.min (Z.max 1 (Qfloor maxConcurrency)) (Z.of_nat (length items))).

(** [mapWithConcurrency] under a schedule: [Promise.all(workers)] is
    fulfilled once every worker has returned, and the call then yields
    [results]; until then there is no value. *)
Definition mapWithConcurrency (maxConcurrency : Q) (sched : list nat)
  : option (list (option R)) :=
  let p := run (start (workerCount maxConcurrency)) sched in
  if settled p then Some (results p) else None.

(** A schedule is live when every step resumes a worker that is really
    suspended. *)
Fixpoint live (p : pool) (sched : list nat) : bool :=
  match sched with
  | [] => true
  | w :: sched' =>
      match workers p !! w with
      | Some (Awaiting _ _) => live (resume p w) sched'
      | _ => false
      end
  end.

(** What the call is meant to return. *)
Definition expected : list (option R) := imap (λ i item, Some (fn item i)) items.

(** Items not yet stored: those never claimed and those in flight. *)
Definition pending (p : pool) : nat := (length items - nextIndex p) + inFlight p.

(** ** Invariant of the pool *)

Local Ltac fields := cbn [results nextIndex workers calls].
Local Tactic Notation "fields" "in" "*" :=
  cbn [results nextIndex workers calls] in *.

Record pool_inv (p : pool) : Prop := PoolInv {
  inv_length : length (results p) = length items;
  inv_cursor : nextIndex p ≤ length items;
  inv_calls : (calls p).*2 = seq 0 (nextIndex p);
  inv_callers : Forall (λ c, c.1 < length (workers p)) (calls p);
  inv_awaiting : ∀ w i v, workers p !! w = Some (Awaiting i v) →
      i < nextIndex p ∧ expected !! i = Some (Some v);
  inv_claimed : ∀ i, i < nextIndex p →
      results p !! i = expected !! i ∨
      ∃ w v, workers p !! w = Some (Awaiting i v);
  inv_unclaimed : ∀ i, nextIndex p ≤ i → i < length items →
      results p !! i = Some None;
  inv_returned : ∀ w, workers p !! w = Some Returned →
      nextIndex p = length items
}.

Lemma expected_lookup i item :
  items !! i = Some item → expected !! i = Some (Some (fn item i)).
Proof. intros Hi. unfold expected. by rewrite list_lookup_imap, Hi. Qed.

Lemma init_inv : pool_inv init.
Proof.
  split; simpl; try done.
  - by rewrite length_replicate.
  - lia.
  - intros; lia.
  - intros i _ Hi. by apply lookup_replicate_2.
Qed.

Lemma enter_Returned w p p' :
  enter w p = (p', Returned) → p' = p ∧ length items ≤ nextIndex p.
Proof.
  unfold enter. destruct (items !! nextIndex p) eqn:E; [done|].
  intros [= <-]. split; [done|]. by apply lookup_ge_None.
Qed.

Lemma enter_Awaiting w p p' i v :
  enter w p = (p', Awaiting i v) →
  ∃ item, items !! i = Some item ∧ v = fn item i ∧ i = nextIndex p ∧
    p' = Pool (results p) (S i) (workers p) (calls p ++ [(w, i)]).
Proof.
  unfold enter. destruct (items !! nextIndex p) as [item|] eqn:E; [|done].
  intros [= <- <- <-]. by exists item.
Qed.

Lemma lookup_snoc_Some {A} (l : list A) (x y : A) (i : nat) :
  (l ++ [x]) !! i = Some y → l !! i = Some y ∨ (i = length l ∧ y = x).
Proof.
  intros H. apply lookup_app_Some in H as [H|[Hge H]]; [by left|right].
  destruct (i - length l) as [|k] eqn:Ek; simplify_eq/=.
  split; [lia|done].
Qed.

Lemma spawn_inv p : pool_inv p → pool_inv (spawn p).
Proof.
  intros [Hl Hc Hlog Hw Haw Hcl Hun Hret]. unfold spawn.
  destruct (enter _ p) as [p' [i v|]] eqn:E.
  - apply enter_Awaiting in E as (item & Hi & -> & -> & ->).
    apply lookup_lt_Some in Hi as Hlt.
    split; fields.
    + done.
    + lia.
    + by rewrite fmap_app, Hlog, seq_S.
    + rewrite length_app. simpl. apply Forall_app. split.
      * eapply Forall_impl; [exact Hw|]. simpl. intros; lia.
      * apply Forall_singleton. simpl. lia.
    + intros w' j v' Hw'. apply lookup_snoc_Some in Hw' as [Hw'|[_ Hw']].
      * apply Haw in Hw' as [? ?]. split; [lia|done].
      * simplify_eq. split; [lia|by apply expected_lookup].
    + intros j Hjlt.
      destruct (decide (j = nextIndex p)) as [->|Hne].
      * right. exists (length (workers p)), (fn item (nextIndex p)).
        by rewrite lookup_app_r, Nat.sub_diag by lia.
      * destruct (Hcl j) as [?|(w' & v' & Hw')]; [lia|by left|].
        right. exists w', v'.
        by rewrite lookup_app_l by by eapply lookup_lt_Some.
    + intros j Hj1 Hj2. apply Hun; lia.
    + intros w' Hw'. apply lookup_snoc_Some in Hw' as [Hw'|[_ Hw']].
      * apply Hret in Hw'. lia.
      * done.
  - apply enter_Returned in E as [-> Hge].
    split; fields; try done.
    + rewrite length_app. simpl.
      eapply Forall_impl; [exact Hw|]. simpl. intros; lia.
    + intros w' j v' Hw'. apply lookup_snoc_Some in Hw' as [Hw'|[_ Hw']].
      * by apply Haw in Hw'.
      * done.
    + intros j Hjlt.
      destruct (Hcl j Hjlt) as [?|(w' & v' & Hw')]; [by left|].
      right. exists w', v'.
      by rewrite lookup_app_l by by eapply lookup_lt_Some.
    + intros; lia.
Qed.

Lemma start_inv count : pool_inv (start count).
Proof. induction count; simpl; auto using init_inv, spawn_inv. Qed.

Lemma resume_inv p w : pool_inv p → pool_inv (resume p w).
Proof.
  intros [Hl Hc Hlog Hw Haw Hcl Hun Hret]. unfold resume.
  destruct (workers p !! w) as [[i v|]|] eqn:Ew; try done.
  assert (w < length (workers p)) as Hwlt by by eapply lookup_lt_Some.
  destruct (Haw _ _ _ Ew) as [Hinext Hiv].
  assert (i < length (results p)) as Hilt by lia.
  match goal with |- context [enter w ?q] => set (p1 := q) end.
  assert (∀ j, j < nextIndex p →
    results p1 !! j = expected !! j ∨
    ∃ w' v', w' ≠ w ∧ workers p !! w' = Some (Awaiting j v')) as Hcl1.
  { intros j Hjlt. subst p1. fields.
    destruct (decide (j = i)) as [->|Hne].
    - left. by rewrite list_lookup_insert_eq.
    - rewrite list_lookup_insert_ne by done.
      destruct (Hcl j Hjlt) as [Hres|(w' & v' & Hw')]; [by left|].
      right. exists w', v'. split; [|done]. intros ->. congruence. }
  subst p1. fields in *.
  destruct (enter w _) as [p2 [i' v'|]] eqn:E.
  - apply enter_Awaiting in E as (item & Hi & -> & -> & ->). fields in *.
    apply lookup_lt_Some in Hi as Hlt.
    split; fields.
    + by rewrite length_insert.
    + lia.
    + by rewrite fmap_app, Hlog, seq_S.
    + rewrite length_insert. apply Forall_app. split; [done|].
      by apply Forall_singleton.
    + intros w' j vj Hw'. destruct (decide (w' = w)) as [->|Hne].
      * rewrite list_lookup_insert_eq in Hw' by done. simplify_eq.
        split; [lia|by apply expected_lookup].
      * rewrite list_lookup_insert_ne in Hw' by done.
        apply Haw in Hw' as [? ?]. split; [lia|done].
    + intros j Hjlt.
      destruct (decide (j = nextIndex p)) as [->|Hne].
      * right. exists w, (fn item (nextIndex p)).
        by rewrite list_lookup_insert_eq.
      * destruct (Hcl1 j) as [?|(w' & vj & Hne' & Hw')]; [lia|by left|].
        right. exists w', vj. by rewrite list_lookup_insert_ne.
    + intros j Hj1 Hj2.
      rewrite list_lookup_insert_ne by lia. apply Hun; lia.
    + intros w' Hw'. destruct (decide (w' = w)) as [->|Hne].
      * by rewrite list_lookup_insert_eq in Hw'.
      * rewrite list_lookup_insert_ne in Hw' by done. apply Hret in Hw'. lia.
  - apply enter_Returned in E as [-> Hge]. fields in *.
    split; fields.
    + by rewrite length_insert.
    + done.
    + done.
    + by rewrite length_insert.
    + intros w' j vj Hw'. destruct (decide (w' = w)) as [->|Hne].
      * by rewrite list_lookup_insert_eq in Hw'.
      * rewrite list_lookup_insert_ne in Hw' by done. by apply Haw in Hw'.
    + intros j Hjlt.
      destruct (Hcl1 j Hjlt) as [?|(w' & vj & Hne' & Hw')]; [by left|].
      right. exists w', vj. by rewrite list_lookup_insert_ne.
    + intros; lia.
    + intros; lia.
Qed.

Lemma run_inv p sched : pool_inv p → pool_inv (run p sched).
Proof.
  revert p. induction sched as [|w sched IH]; intros p Hp; [done|].
  simpl. apply IH. by apply resume_inv.
Qed.

(** ** The worker promises *)

Lemma spawn_workers p : length (workers (spawn p)) = S (length (workers p)).
Proof.
  unfold spawn. destruct (enter _ p) as [p' st] eqn:E.
  assert (workers p' = workers p) as ->.
  { unfold enter in E. destruct (items !! nextIndex p); by simplify_eq. }
  fields. rewrite length_app. simpl. lia.
Qed.

Lemma start_workers count : length (workers (start count)) = count.
Proof. induction count; simpl; [done|]. by rewrite spawn_workers, IHcount. Qed.

Lemma resume_workers p w : length (workers (resume p w)) = length (workers p).
Proof.
  unfold resume. destruct (workers p !! w) as [[i v|]|]; try done.
  match goal with |- context [enter w ?q] => destruct (enter w q) as [p2 st] eqn:E end.
  assert (workers p2 = workers p) as ->.
  { unfold enter in E. cbn [nextIndex] in E.
    destruct (items !! nextIndex p); by simplify_eq. }
  fields. by rewrite length_insert.
Qed.

Lemma run_workers p sched : length (workers (run p sched)) = length (workers p).
Proof.
  revert p. induction sched as [|w sched IH]; intros p; [done|].
  simpl. by rewrite IH, resume_workers.
Qed.

Lemma inFlight_le p : inFlight p ≤ length (workers p).
Proof. apply length_filter. Qed.

Lemma settled_inFlight p : settled p = true ↔ inFlight p = 0.
Proof.
  unfold settled, inFlight. induction (workers p) as [|st ws IH]; [done|].
  rewrite filter_cons. simpl. destruct st; simpl.
  - split; [done|]. intros; lia.
  - by rewrite <- IH.
Qed.

Lemma not_settled p :
  settled p = false → ∃ w i v, workers p !! w = Some (Awaiting i v).
Proof.
  unfold settled. induction (workers p) as [|st ws IH]; [done|].
  simpl. destruct st as [i v|]; simpl.
  - intros _. by exists 0, i, v.
  - intros H. destruct (IH H) as (w & i & v & Hw). by exists (S w), i, v.
Qed.

Lemma settled_Returned p w st :
  settled p = true → workers p !! w = Some st → st = Returned.
Proof.
  unfold settled. rewrite forallb_forall. intros H Hw.
  apply list_elem_of_lookup_2, list_elem_of_In, H in Hw. by destruct st.
Qed.

(** ** Partial correctness: a fulfilled call returns the expected array *)

Lemma settled_results p :
  pool_inv p → settled p = true → workers p ≠ [] ∨ items = [] →
  results p = expected.
Proof.
  intros [Hl Hc Hlog Hw Haw Hcl Hun Hret] Hs Hne.
  assert (nextIndex p = length items) as Hnext.
  { destruct Hne as [Hne| ->]; [|simpl in *; lia].
    destruct (workers p) as [|st ws] eqn:Ews; [done|].
    apply (Hret 0). simpl. f_equal.
    apply (settled_Returned p 0); [done|by rewrite Ews]. }
  apply list_eq. intros i.
  destruct (decide (i < length items)) as [Hi|Hi].
  - destruct (Hcl i) as [?|(w & v & Hwv)]; [lia|done|].
    by apply (settled_Returned _ _ _ Hs) in Hwv.
  - rewrite !(proj2 (lookup_ge_None _ _)); [done| |].
    + unfold expected. rewrite length_imap. lia.
    + lia.
Qed.

(** ** Progress: every live step stores exactly one item *)

Lemma filter_insert_length {A} (P : A → bool) (l : list A) (i : nat) (x y : A) :
  l !! i = Some x →
  length (filter P (<[i := y]> l)) + (if P x then 1 else 0)
  = length (filter P l) + (if P y then 1 else 0).
Proof.
  revert i. induction l as [|a l IH]; intros [|i] Hi; simplify_eq/=.
  - rewrite !filter_cons. destruct (P x), (P y); simpl; lia.
  - rewrite !filter_cons. specialize (IH _ Hi).
    destruct (P a); simpl; lia.
Qed.

Lemma resume_pending p w i v :
  pool_inv p → workers p !! w = Some (Awaiting i v) →
  S (pending (resume p w)) = pending p.
Proof.
  intros [Hl Hc Hlog Hw Haw Hcl Hun Hret] Ew. unfold resume. rewrite Ew.
  match goal with |- context [enter w ?q] => destruct (enter w q) as [p2 st] eqn:E end.
  unfold pending, inFlight. destruct st as [i' v'|].
  - apply enter_Awaiting in E as (item & Hi & -> & -> & ->). fields in *.
    apply lookup_lt_Some in Hi.
    pose proof (filter_insert_length awaiting _ _ _ (Awaiting (nextIndex p) (fn item (nextIndex p))) Ew) as Hf.
    simpl in Hf. lia.
  - apply enter_Returned in E as [-> Hge]. fields in *.
    pose proof (filter_insert_length awaiting _ _ _ Returned Ew) as Hf.
    simpl in Hf. lia.
Qed.

Lemma live_pending p sched :
  pool_inv p → live p sched = true →
  pending (run p sched) + length sched = pending p.
Proof.
  revert p. induction sched as [|w sched IH]; intros p Hp Hlive; simpl in *.
  - lia.
  - destruct (workers p !! w) as [[i v|]|] eqn:Ew; try done.
    pose proof (resume_pending _ _ _ _ Hp Ew).
    specialize (IH _ (resume_inv _ w Hp) Hlive). lia.
Qed.

Lemma live_app p sched w :
  live p (sched ++ [w]) = true ↔
  live p sched = true ∧ ∃ i v, workers (run p sched) !! w = Some (Awaiting i v).
Proof.
  revert p. induction sched as [|w' sched IH]; intros p; simpl.
  - destruct (workers p !! w) as [[i v|]|].
    + split; [eauto|done].
    + split; [done|]. by intros (_ & ? & ? & ?).
    + split; [done|]. by intros (_ & ? & ? & ?).
  - destruct (workers p !! w') as [[i v|]|]; [apply IH| |];
      (split; [done|by intros [? _]]).
Qed.

Lemma start_full count :
  count ≤ length items →
  nextIndex (start count) = count ∧ inFlight (start count) = count.
Proof.
  induction count as [|count IH]; [done|]. intros Hle.
  destruct IH as [Hn Hf]; [lia|]. simpl. unfold spawn.
  destruct (enter _ (start count)) as [p' [i v|]] eqn:E.
  - apply enter_Awaiting in E as (item & Hi & -> & -> & ->). fields.
    split; [by rewrite Hn|]. unfold inFlight in *. fields.
    rewrite filter_app, length_app, Hf. simpl. lia.
  - apply enter_Returned in E as [-> Hge]. lia.
Qed.

Lemma pending_settled p :
  pool_inv p → workers p ≠ [] ∨ items = [] →
  settled p = true ↔ pending p = 0.
Proof.
  intros Hp Hne. rewrite settled_inFlight. unfold pending. split; [|lia].
  intros Hf. rewrite Hf.
  enough (nextIndex p = length items) by lia.
  destruct Hne as [Hne|Hnil].
  - destruct (workers p) as [|st ws] eqn:Ews; [done|].
    apply (inv_returned p Hp 0). rewrite Ews. simpl. f_equal.
    apply (settled_Returned p 0); [by apply settled_inFlight|by rewrite Ews].
  - pose proof (inv_cursor p Hp). rewrite Hnil in *. simpl in *. lia.
Qed.

(** ** The number of workers *)

Lemma workerCount_le maxConcurrency : workerCount maxConcurrency ≤ length items.
Proof. unfold workerCount. lia. Qed.

Lemma workerCount_pos maxConcurrency :
  items ≠ [] → 1 ≤ workerCount maxConcurrency.
Proof.
  intros Hne. unfold workerCount. destruct items; [done|]. simpl length. lia.
Qed.

Lemma workerCount_nonempty maxConcurrency p sched :
  p = run (start (workerCount maxConcurrency)) sched →
  workers p ≠ [] ∨ items = [].
Proof.
  intros ->. destruct items as [|x l] eqn:E; [by right|left].
  intros Hnil. apply (f_equal length) in Hnil.
  rewrite run_workers, start_workers in Hnil.
  pose proof (workerCount_pos maxConcurrency). rewrite E in *.
  simpl in Hnil. rewrite Hnil in H. specialize (H ltac:(done)). lia.
Qed.

Lemma floor_ge_1 (q : Q) : (1 <= q)%Q → (1 ≤ Qfloor q)%Z.
Proof. intros H. apply Qfloor_resp_le in H. exact H. Qed.

Lemma calls_once (l : list (nat * nat)) (k n i : nat) :
  l.*2 = seq k n → k ≤ i < k + n →
  ∃ w, filter (λ c, bool_decide (c.2 = i)) l = [(w, i)].
Proof.
  assert (∀ (l : list (nat * nat)) k n, l.*2 = seq k n → i < k →
    filter (λ c, bool_decide (c.2 = i)) l = []) as Hnone.
  { clear. intros l. induction l as [|[w j] l IH]; intros k n Hl Hi; [done|].
    destruct n as [|n]; simplify_eq/=. rewrite filter_cons. simpl.
    rewrite bool_decide_eq_false_2 by lia. apply (IH (S k) n); [done|lia]. }
  revert k n. induction l as [|[w j] l IH]; intros k n Hl Hi.
  - destruct n; simplify_eq/=. lia.
  - destruct n as [|n]; simplify_eq/=. rewrite filter_cons. simpl.
    destruct (decide (k = i)) as [->|Hne].
    + rewrite bool_decide_eq_true_2 by done. exists w.
      by rewrite (Hnone l (S i) n) by (done || lia).
    + rewrite bool_decide_eq_false_2 by done. apply (IH (S k) n); [done|lia].
Qed.

(** ** The properties of the specification *)

(** C1.  For a list of N items and a concurrency C with 1 ≤ C ≤ N:
    whatever the order in which the items complete, a fulfilled call
    returns an array of length N whose element i is the result of
    processing item i.  The call is always fulfilled: a schedule that only
    resumes suspended workers has at most N steps, the call has returned
    exactly when it has N, and until then some worker can be resumed. *)
Theorem mapWithConcurrency_ordered (maxConcurrency : Q) :
  (1 <= maxConcurrency)%Q →
  (maxConcurrency <= inject_Z (Z.of_nat (length items)))%Q →
  (∀ sched res, mapWithConcurrency maxConcurrency sched = Some res →
     length res = length items ∧
     ∀ i item, items !! i = Some item → res !! i = Some (Some (fn item i)))
  ∧ (∀ sched, live (start (workerCount maxConcurrency)) sched = true →
     length sched ≤ length items ∧
     (length sched = length items ↔
      mapWithConcurrency maxConcurrency sched = Some expected) ∧
     (length sched < length items →
      ∃ w, live (start (workerCount maxConcurrency)) (sched ++ [w]) = true)).
Proof.
  intros _ _. unfold mapWithConcurrency.
  set (count := workerCount maxConcurrency).
  assert (∀ sched, pool_inv (run (start count) sched)) as Hinv
    by (intros; apply run_inv, start_inv).
  assert (∀ sched, workers (run (start count) sched) ≠ [] ∨ items = []) as Hne
    by (intros; by eapply workerCount_nonempty).
  assert (∀ sched, settled (run (start count) sched) = true →
    results (run (start count) sched) = expected) as Hres
    by (intros; by apply settled_results).
  split.
  - intros sched res. destruct (settled _) eqn:Hs; [|done].
    intros [= <-]. rewrite Hres by done. unfold expected.
    split; [by rewrite length_imap|]. intros i item Hi.
    by rewrite list_lookup_imap, Hi.
  - intros sched Hlive.
    pose proof (live_pending _ _ (start_inv count) Hlive) as Hpend.
    assert (pending (start count) = length items) as Hstart.
    { destruct (start_full count) as [Hn Hf]; [apply workerCount_le|].
      pose proof (workerCount_le maxConcurrency). fold count in H.
      unfold pending. rewrite Hn, Hf. lia. }
    rewrite Hstart in Hpend.
    pose proof (pending_settled _ (Hinv sched) (Hne sched)) as Hps.
    split; [lia|]. split.
    + split.
      * intros Hlen. assert (settled (run (start count) sched) = true) as Hs
          by (apply Hps; lia).
        by rewrite Hs, Hres.
      * destruct (settled _) eqn:Hs; [|done]. intros _.
        pose proof (proj1 Hps eq_refl). lia.
    + intros Hlt. destruct (settled (run (start count) sched)) eqn:Hs.
      { pose proof (proj1 Hps eq_refl). lia. }
      apply not_settled in Hs as (w & i & v & Hw). exists w.
      apply live_app. eauto.
Qed.

(** C5 (as amended).  At every point of a dispatch the number of item
    operations in flight is at most the number of workers, which is
    min(max(1, ⌊C⌋), N): it never exceeds max(1, ⌊C⌋), hence never exceeds
    C when C ≥ 1.  The indices handed to [fn] are 0, 1, 2, … in this
    order, each exactly once, by a worker of the pool; once the call is
    fulfilled every index below N has been handed out. *)
Theorem mapWithConcurrency_bounded (maxConcurrency : Q) (sched : list nat) :
  let p := run (start (workerCount maxConcurrency)) sched in
  length (workers p) = workerCount maxConcurrency
  ∧ Z.of_nat (workerCount maxConcurrency)
    = Z.min (Z.max 1 (Qfloor maxConcurrency)) (Z.of_nat (length items))
  ∧ inFlight p ≤ workerCount maxConcurrency
  ∧ (Z.of_nat (inFlight p) ≤ Z.max 1 (Qfloor maxConcurrency))%Z
  ∧ ((1 <= maxConcurrency)%Q →
     (inject_Z (Z.of_nat (inFlight p)) <= maxConcurrency)%Q)
  ∧ (calls p).*2 = seq 0 (nextIndex p)
  ∧ Forall (λ c, c.1 < workerCount maxConcurrency) (calls p)
  ∧ (∀ i, i < nextIndex p →
     ∃ w, filter (λ c, bool_decide (c.2 = i)) (calls p) = [(w, i)])
  ∧ (settled p = true → nextIndex p = length items).
Proof.
  intros p.
  assert (pool_inv p) as Hp by apply run_inv, start_inv.
  assert (length (workers p) = workerCount maxConcurrency) as Hlen
    by (unfold p; by rewrite run_workers, start_workers).
  pose proof (inFlight_le p) as Hfl. rewrite Hlen in Hfl.
  assert (Z.of_nat (workerCount maxConcurrency)
    = Z.min (Z.max 1 (Qfloor maxConcurrency)) (Z.of_nat (length items))) as Hwc
    by (unfold workerCount; lia).
  split_and!; try done.
  - lia.
  - intros H1. apply floor_ge_1 in H1 as Hfloor.
    eapply Qle_trans; [|apply Qfloor_le].
    rewrite <- Zle_Qle. lia.
  - apply (inv_calls p Hp).
  - rewrite <- Hlen. apply (inv_callers p Hp).
  - intros i Hi. apply (calls_once _ 0 (nextIndex p)); [apply (inv_calls p Hp)|lia].
  - intros Hs.
    apply pending_settled in Hs; [|done|by eapply workerCount_nonempty].
    pose proof (inv_cursor p Hp). unfold pending in Hs. lia.
Qed.

(** ** The pool while it runs *)

Lemma enter_results w p : results (enter w p).1 = results p.
Proof. unfold enter. by destruct (items !! nextIndex p). Qed.

Lemma spawn_results p : results (spawn p) = results p.
Proof.
  unfold spawn. pose proof (enter_results (length (workers p)) p) as H.
  by destruct (enter _ p).
Qed.

Lemma start_results count : results (start count) = replicate (length items) None.
Proof. induction count; simpl; [done|]. by rewrite spawn_results. Qed.

Lemma resume_results p w :
  results (resume p w) =
  match workers p !! w with
  | Some (Awaiting i v) => <[i := Some v]> (results p)
  | _ => results p
  end.
Proof.
  unfold resume. destruct (workers p !! w) as [[i v|]|]; try done.
  match goal with |- context [enter w ?q] => pose proof (enter_results w q) as H;
    destruct (enter w q) end.
  done.
Qed.

Lemma start_cursor count : nextIndex (start count) ≤ count.
Proof.
  induction count as [|count IH]; simpl; [done|].
  unfold spawn, enter. destruct (items !! nextIndex (start count)); fields; lia.
Qed.

(** Every slot is a hole or holds the value it will have at the end. *)
Definition slots_inv (p : pool) : Prop :=
  ∀ i, i < length items →
    results p !! i = Some None ∨ results p !! i = expected !! i.

Lemma start_slots count : slots_inv (start count).
Proof.
  intros i Hi. left. rewrite start_results. by apply lookup_replicate_2.
Qed.

Lemma resume_slots p w : pool_inv p → slots_inv p → slots_inv (resume p w).
Proof.
  intros Hp Hs i Hi. rewrite resume_results.
  destruct (workers p !! w) as [[j v|]|] eqn:Ew; try by apply Hs.
  destruct (inv_awaiting p Hp _ _ _ Ew) as [Hj Hv].
  destruct (decide (i = j)) as [->|Hne].
  - right. rewrite list_lookup_insert_eq; [done|].
    rewrite (inv_length p Hp). done.
  - rewrite list_lookup_insert_ne by done. by apply Hs.
Qed.

Lemma run_slots p sched : pool_inv p → slots_inv p → slots_inv (run p sched).
Proof.
  revert p. induction sched as [|w sched IH]; intros p Hp Hs; [done|].
  simpl. apply IH; [by apply resume_inv|by apply resume_slots].
Qed.

Lemma resume_keeps p w i v :
  pool_inv p → slots_inv p →
  results p !! i = Some (Some v) → results (resume p w) !! i = Some (Some v).
Proof.
  intros Hp Hs Hi. rewrite resume_results.
  destruct (workers p !! w) as [[j vj|]|] eqn:Ew; try done.
  destruct (inv_awaiting p Hp _ _ _ Ew) as [Hj Hv].
  destruct (decide (i = j)) as [->|Hne].
  - pose proof (inv_cursor p Hp) as Hc.
    rewrite list_lookup_insert_eq by (rewrite (inv_length p Hp); lia).
    destruct (Hs j) as [H|H]; [lia|congruence|]. congruence.
  - by rewrite list_lookup_insert_ne.
Qed.

Lemma run_keeps p sched i v :
  pool_inv p → slots_inv p →
  results p !! i = Some (Some v) → results (run p sched) !! i = Some (Some v).
Proof.
  revert p. induction sched as [|w sched IH]; intros p Hp Hs Hi; [done|].
  simpl. apply IH; [by apply resume_inv|by apply resume_slots|by apply resume_keeps].
Qed.

Lemma filter_all {A} (P : A → bool) (l : list A) :
  Forall (λ x, P x = true) l → filter P l = l.
Proof.
  induction 1 as [|x l Hx _ IH]; [done|].
  rewrite filter_cons, IH. by rewrite Hx.
Qed.

(** X1.  The pool is never idle while an item is unclaimed: as long as the
    cursor has not reached the end of the list, every worker of the pool is
    suspended on an item, so the number of operations in flight is exactly
    the number of workers. *)
Theorem pool_never_idle (maxConcurrency : Q) (sched : list nat) :
  let p := run (start (workerCount maxConcurrency)) sched in
  nextIndex p < length items →
  Forall (λ st, awaiting st = true) (workers p)
  ∧ inFlight p = workerCount maxConcurrency.
Proof.
  intros p Hnext.
  assert (pool_inv p) as Hp by apply run_inv, start_inv.
  assert (Forall (λ st, awaiting st = true) (workers p)) as Hall.
  { apply Forall_lookup. intros w st Hw. destruct st as [i v|]; [done|].
    apply (inv_returned p Hp) in Hw. lia. }
  split; [done|]. unfold inFlight. rewrite filter_all by done.
  unfold p. by rewrite run_workers, start_workers.
Qed.

(** X2.  What the results array holds while the call runs: it has its full
    length from the start; each slot is either still a hole or holds the
    result of its own item; and a slot that holds a result keeps it through
    every later step. *)
Theorem partial_results_final (maxConcurrency : Q) (sched : list nat) :
  let p := run (start (workerCount maxConcurrency)) sched in
  length (results p) = length items
  ∧ (∀ i item, items !! i = Some item →
       results p !! i = Some None ∨ results p !! i = Some (Some (fn item i)))
  ∧ (∀ more i v, results p !! i = Some (Some v) →
       results (run p more) !! i = Some (Some v)).
Proof.
  intros p.
  assert (pool_inv p) as Hp by apply run_inv, start_inv.
  assert (slots_inv p) as Hs by (apply run_slots; [apply start_inv|apply start_slots]).
  split_and!.
  - apply (inv_length p Hp).
  - intros i item Hi. rewrite <- (expected_lookup i item Hi).
    apply Hs. by eapply lookup_lt_Some.
  - intros more i v Hi. by apply run_keeps.
Qed.

(** X3.  With one worker the items are processed one at a time, in input
    order: when an item is claimed, the result of every earlier item is
    already stored; at most one operation is in flight, and every call of
    [fn] is made by the one worker. *)
Theorem single_worker_sequential (maxConcurrency : Q) (sched : list nat) :
  workerCount maxConcurrency = 1 →
  let p := run (start (workerCount maxConcurrency)) sched in
  (∀ i item, S i < nextIndex p → items !! i = Some item →
     results p !! i = Some (Some (fn item i)))
  ∧ inFlight p ≤ 1
  ∧ Forall (λ c, c.1 = 0) (calls p).
Proof.
  intros Hone p. unfold p. rewrite Hone. clear p.
  assert (∀ sched, length (workers (run (start 1) sched)) = 1) as Hlen
    by (intros; by rewrite run_workers, start_workers).
  assert (∀ sched, pool_inv (run (start 1) sched)) as Hinv
    by (intros; apply run_inv, start_inv).
  split_and!.
  - induction sched as [|w sched IH] using rev_ind.
    + intros i item Hi _. exfalso.
      pose proof (start_cursor 1) as Hc.
      change (run (start 1) []) with (start 1) in Hi. lia.
    + unfold run in *. rewrite foldl_snoc.
      set (q := foldl resume (start 1) sched) in *.
      specialize (Hlen sched). specialize (Hinv sched). fold (run (start 1) sched) in Hlen, Hinv.
      change (run (start 1) sched) with q in Hlen, Hinv.
      intros i item Hi Hitem.
      rewrite resume_results.
      destruct (workers q !! w) as [[j v|]|] eqn:Ew.
      * destruct (inv_awaiting q Hinv _ _ _ Ew) as [Hj Hv].
        assert (nextIndex (resume q w) ≤ S (nextIndex q)) as Hnext.
        { unfold resume. rewrite Ew.
          match goal with |- context [enter w ?q1] =>
            destruct (enter w q1) as [p2 [i' v'|]] eqn:E end.
          - apply enter_Awaiting in E as (? & _ & _ & Hi' & ->). fields in *. lia.
          - apply enter_Returned in E as [-> _]. fields. lia. }
        assert (i < nextIndex q) as Hiq by lia.
        destruct (decide (i = j)) as [->|Hne].
        { pose proof (inv_cursor q Hinv) as Hc.
          rewrite list_lookup_insert_eq by (rewrite (inv_length q Hinv); lia).
          rewrite (expected_lookup j item Hitem) in Hv. congruence. }
        rewrite list_lookup_insert_ne by done.
        destruct (inv_claimed q Hinv i Hiq) as [Hres|(w' & v' & Hw')].
        { by rewrite Hres, (expected_lookup i item Hitem). }
        exfalso. pose proof (lookup_lt_Some _ _ _ Ew). pose proof (lookup_lt_Some _ _ _ Hw').
        assert (w' = w) as -> by lia. congruence.
      * apply IH; [|done]. unfold resume in Hi. by rewrite Ew in Hi.
      * apply IH; [|done]. unfold resume in Hi. by rewrite Ew in Hi.
  - pose proof (inFlight_le (run (start 1) sched)) as Hle.
    by rewrite Hlen in Hle.
  - pose proof (inv_callers _ (Hinv sched)) as Hc. rewrite Hlen in Hc.
    eapply Forall_impl; [exact Hc|]. simpl. intros; lia.
Qed.

End pool.

(** C1 at three items and two workers, where the second worker's first item
    completes before the first worker's. *)
Lemma mapWithConcurrency_ordered_witness :
  mapWithConcurrency [10; 20; 30] (λ x i, x + i) 2 [1; 0; 1]
  = Some [Some 10; Some 21; Some 32].
Proof.
  pose proof (mapWithConcurrency_ordered [10; 20; 30] (λ x i, x + i) 2
    ltac:(unfold Qle; simpl; lia) ltac:(unfold Qle; simpl; lia)) as [_ H].
  destruct (H [1; 0; 1] ltac:(reflexivity)) as (_ & [Hret _] & _).
  exact (Hret eq_refl).
Defined.

(** C5 as first stated fails: with one item and a requested concurrency of
    0 the pool still starts one worker, so one operation is in flight. *)
Lemma inFlight_exceeds_requested :
  ¬ (∀ (items : list nat) (fn : nat → nat → nat) (maxConcurrency : Q)
       (sched : list nat),
       (inject_Z (Z.of_nat
          (inFlight (run items fn (start items fn (workerCount items maxConcurrency)) sched)))
        <= maxConcurrency)%Q).
Proof.
  intros H. specialize (H [7] (λ x _, x) 0%Q []).
  vm_compute in H. by apply H.
Qed.

(** X1 at three items and two workers, before any item has completed: the
    third item is unclaimed and both workers are busy. *)
Lemma pool_never_idle_witness :
  inFlight (run [10; 20; 30] (λ x i, x + i)
              (start [10; 20; 30] (λ x i, x + i) (workerCount [10; 20; 30] 2)) [])
  = 2.
Proof.
  exact (proj2 (pool_never_idle [10; 20; 30] (λ x i, x + i) 2 []
                  ltac:(vm_compute; lia))).
Defined.

(** X3 at three items and one worker, after two completions: the third item
    is claimed and the results of the first two are stored. *)
Lemma single_worker_sequential_witness :
  results (run [10; 20; 30] (λ x i, x + i)
             (start [10; 20; 30] (λ x i, x + i) (workerCount [10; 20; 30] 1)) [0; 0])
    !! 1 = Some (Some 21).
Proof.
  exact (proj1 (single_worker_sequential [10; 20; 30] (λ x i, x + i) 1 [0; 0] eq_refl)
           1 20 ltac:(vm_compute; lia) eq_refl).
Defined.

(** Five items and two workers, as in the batch test: the results are in
    input order whatever the completion order. *)
Example five_items_two_workers :
  mapWithConcurrency ["a"; "b"; "c"; "d"; "e"] (λ x i, (i, x)) 2 [1; 1; 0; 1; 0]
  = Some [Some (0, "a"); Some (1, "b"); Some (2, "c"); Some (3, "d"); Some (4, "e")]
  ∧ mapWithConcurrency ["a"; "b"; "c"; "d"; "e"] (λ x i, (i, x)) 2 [0; 1; 0; 1]
    = None.
Proof. by vm_compute. Qed.

End Concurrency.

(** * [services/config.ts] and [services/groqAudio.ts] *)

Module GroqAudio.

Local Open Scope Z_scope.

(** [config]: the three values [envInt] reads are integers, of either
    sign. *)
Record Config := {
  requestTimeoutMs : Z;
  maxRetries : Z;
  retryBaseMs : Z
}.

Definition defaultConfig : Config :=
  {| requestTimeoutMs := 300000; maxRetries := 2; retryBaseMs := 250 |}.

(** What the code reads of a [Response]. *)
Record Response := {
  status : Z;
  contentType : option string;
  bodyText : string
}.

(** [response.ok] *)
Definition ok (r : Response) : bool := (200 <=? status r) && (status r <=? 299).

(** What one [await fetch(...)] gives: a response, or an exception (a
    network failure, or the abort of the attempt by its timeout). *)
Inductive fetched :=
| Responded (r : Response)
| Failed (error : string).

(** What [fetchWithRetry] gives. *)
Inductive outcome :=
| Returns (r : Response)
| Throws (error : string).

(** The effects of [fetchWithRetry], in program order.  [Fetch k] sends the
    body made by [MakeBody k]: the call is [fetch(url, {body: makeBody()})]. *)
Inductive event :=
| SetTimeout (attempt : Z)
| MakeBody (attempt : Z)
| Fetch (attempt : Z)
| Discard (attempt : Z)
| Sleep (attempt : Z) (ms : Z)
| ClearTimeout (attempt : Z).

(** [Math.round]: the nearest integer, a tie going up. *)
Definition Math_round (x : Q) : Z := Qfloor (x + (1 # 2)).

(** [jitterMs(baseMs)], given the draw of [Math.random()]. *)
Definition jitter (random : Q) : Q := (random * (1 # 4) + (7 # 8))%Q.

Definition jitterMs (baseMs : Z) (random : Q) : Z :=
  Z.max 0 (Math_round (inject_Z baseMs * jitter random)).

Definition retryable (r : Response) : bool :=
  (status r =? 429) || (status r =? 500) || (status r =? 502) ||
  (status r =? 503) || (status r =? 504).

Section transport.
Variable config : Config.
(** The platform: what the [attempt]-th call of [fetch] gives, and the
    draw of [Math.random] used after that attempt. *)
Variable fetch : Z → fetched.
Variable random : Z → Q.

Definition maxAttempts : Z := Z.max 1 (maxRetries config + 1).

Definition unreachable : string := "Unreachable: fetchWithRetry exhausted attempts.".

(** [config.retryBaseMs * Math.pow(2, attempt - 1)] *)
Definition backoff (attempt : Z) : Z := retryBaseMs config * 2 ^ (attempt - 1).

(** The [for] loop from [attempt] on; [fuel] bounds the iterations that
    are left. *)
Fixpoint attempts (fuel : nat) (attempt : Z) : outcome * list event :=
  match fuel with
  | O => (Throws unreachable, [])
  | S fuel' =>
      if maxAttempts <? attempt then (Throws unreachable, []) else
      let sent := [SetTimeout attempt; MakeBody attempt; Fetch attempt] in
      match fetch attempt with
      | Responded response =>
          if ok response then (Returns response, sent ++ [ClearTimeout attempt])
          else if negb (retryable response) || (attempt =? maxAttempts)
          then (Returns response, sent ++ [ClearTimeout attempt])
          else
            let '(o, tr) := attempts fuel' (attempt + 1) in
            (o, sent ++ [Discard attempt;
                         Sleep attempt (jitterMs (backoff attempt) (random attempt));
                         ClearTimeout attempt] ++ tr)
      | Failed error =>
          if attempt =? maxAttempts
          then (Throws error, sent ++ [ClearTimeout attempt])
          else
            let '(o, tr) := attempts fuel' (attempt + 1) in
            (o, sent ++ [Sleep attempt (jitterMs (backoff attempt) (random attempt));
                         ClearTimeout attempt] ++ tr)
      end
  end.

Definition fetchWithRetry : outcome * list event :=
  attempts (Z.to_nat maxAttempts) 1.

(** An attempt the loop may follow by another one. *)
Definition retryableFailure (f : fetched) : bool :=
  match f with
  | Responded response => negb (ok response) && retryable response
  | Failed _ => true
  end.

Definition settle (f : fetched) : outcome :=
  match f with
  | Responded response => Returns response
  | Failed error => Throws error
  end.

(** Projections of a trace. *)
Definition isRequest (e : event) : bool :=
  match e with MakeBody _ | Fetch _ => true | _ => false end.

Definition isFetch (e : event) : bool :=
  match e with Fetch _ => true | _ => false end.

Definition requests (tr : list event) : list event := filter isRequest tr.

Definition attemptsMade (tr : list event) : Z :=
  Z.of_nat (length (filter isFetch tr)).

Definition sleeps (tr : list event) : list (Z * Z) :=
  omap (λ e, match e with Sleep k ms => Some (k, ms) | _ => None end) tr.

(** The events of an attempt that is followed by another one. *)
Definition retried (attempt : Z) : list event :=
  [SetTimeout attempt; MakeBody attempt; Fetch attempt] ++
  match fetch attempt with Responded _ => [Discard attempt] | Failed _ => [] end ++
  [Sleep attempt (jitterMs (backoff attempt) (random attempt));
   ClearTimeout attempt].

Definition final (attempt : Z) : list event :=
  [SetTimeout attempt; MakeBody attempt; Fetch attempt; ClearTimeout attempt].

Lemma attempts_retry fuel attempt :
  attempt < maxAttempts → retryableFailure (fetch attempt) = true →
  attempts (S fuel) attempt =
  ((attempts fuel (attempt + 1)).1, retried attempt ++ (attempts fuel (attempt + 1)).2).
Proof.
  intros Hlt Hr. simpl. unfold retried.
  destruct (Z.ltb_spec maxAttempts attempt); [lia|].
  destruct (Z.eqb_spec attempt maxAttempts); [lia|].
  destruct (fetch attempt) as [response|error]; simpl in Hr.
  - apply andb_prop in Hr as [Hok Hre]. apply negb_true_iff in Hok.
    rewrite Hok, Hre. simpl. by destruct (attempts fuel (attempt + 1)).
  - by destruct (attempts fuel (attempt + 1)).
Qed.

Lemma attempts_final fuel attempt :
  attempt ≤ maxAttempts →
  attempt = maxAttempts ∨ retryableFailure (fetch attempt) = false →
  attempts (S fuel) attempt = (settle (fetch attempt), final attempt).
Proof.
  intros Hle Hlast. simpl. unfold final.
  destruct (Z.ltb_spec maxAttempts attempt); [lia|].
  destruct (fetch attempt) as [response|error]; simpl in *.
  - destruct (ok response); [done|]. simpl in Hlast.
    destruct (Z.eqb_spec attempt maxAttempts) as [|Hne].
    + by rewrite orb_true_r.
    + destruct Hlast as [|Hre]; [done|]. by rewrite Hre.
  - destruct (Z.eqb_spec attempt maxAttempts) as [|Hne]; [done|].
    by destruct Hlast.
Qed.

(** ** The shape of every run *)

Lemma attempts_spec fuel attempt :
  1 ≤ attempt ≤ maxAttempts → maxAttempts - attempt < Z.of_nat fuel →
  ∃ n, attempt ≤ n ≤ maxAttempts ∧
    (∀ k, attempt ≤ k < n → retryableFailure (fetch k) = true) ∧
    (n = maxAttempts ∨ retryableFailure (fetch n) = false) ∧
    attempts fuel attempt =
    (settle (fetch n), flat_map retried (seqZ attempt (n - attempt)) ++ final n).
Proof.
  revert attempt. induction fuel as [|fuel IH]; intros attempt Ha Hfuel; [lia|].
  destruct (decide (attempt < maxAttempts ∧ retryableFailure (fetch attempt) = true))
    as [[Hlt Hr]|Hlast].
  - destruct (IH (attempt + 1)) as (n & Hn & Hbefore & Hend & Heq); [lia..|].
    exists n. split; [lia|]. split; [|split; [done|]].
    + intros k Hk. destruct (decide (k = attempt)) as [->|]; [done|].
      apply Hbefore. lia.
    + rewrite attempts_retry by done. rewrite Heq. simpl. f_equal.
      rewrite (seqZ_cons attempt) by lia. simpl.
      replace (Z.pred (n - attempt)) with (n - (attempt + 1)) by lia.
      replace (Z.succ attempt) with (attempt + 1) by lia.
      by rewrite <- !app_assoc.
  - exists attempt. split; [lia|]. split; [intros; lia|]. split.
    + destruct (decide (attempt = maxAttempts)); [by left|right].
      destruct (retryableFailure (fetch attempt)) eqn:E; [|done].
      exfalso. apply Hlast. split; [lia|done].
    + rewrite Z.sub_diag. simpl. apply attempts_final; [lia|].
      destruct (decide (attempt = maxAttempts)); [by left|right].
      destruct (retryableFailure (fetch attempt)) eqn:E; [|done].
      exfalso. apply Hlast. split; [lia|done].
Qed.


Lemma requests_retried ks rest :
  requests (flat_map retried ks ++ rest) =
  flat_map (λ k, [MakeBody k; Fetch k]) ks ++ requests rest.
Proof.
  unfold requests. induction ks as [|k ks IH]; [done|].
  cbn [flat_map]. rewrite <- !app_assoc, filter_app, IH.
  unfold retried. by destruct (fetch k).
Qed.

Lemma attemptsMade_retried ks rest :
  attemptsMade (flat_map retried ks ++ rest) =
  Z.of_nat (length ks) + attemptsMade rest.
Proof.
  unfold attemptsMade. induction ks as [|k ks IH]; [done|].
  cbn [flat_map]. rewrite <- !app_assoc, filter_app, length_app.
  replace (length (filter isFetch (retried k))) with 1%nat
    by (unfold retried; by destruct (fetch k)).
  cbn [length]. lia.
Qed.

Lemma sleeps_retried ks rest :
  sleeps (flat_map retried ks ++ rest) =
  ((λ k, (k, jitterMs (backoff k) (random k))) <$> ks) ++ sleeps rest.
Proof.
  unfold sleeps. induction ks as [|k ks IH]; [done|].
  cbn [flat_map]. rewrite <- !app_assoc, omap_app, IH.
  unfold retried. by destruct (fetch k).
Qed.

(** C2 (as amended).  Every run makes some number n of attempts with
    1 ≤ n ≤ max(1, maxRetries + 1), which is maxRetries + 1 when
    maxRetries ≥ 0.  Each attempt before the n-th ended in a status among
    429, 500, 502, 503, 504 or in an exception; the n-th is the last one
    allowed, or gave a 2xx response or another status.  The result is the
    n-th response as it is, or the n-th exception thrown on.  Every
    attempt sends a body made for it; there is one sleep between two
    attempts and none after the last; a first response that is neither
    2xx nor retryable makes the run one attempt with no sleep. *)
Theorem fetchWithRetry_policy :
  ∃ n,
    1 ≤ n ≤ maxAttempts
    ∧ maxAttempts = Z.max 1 (maxRetries config + 1)
    ∧ (0 ≤ maxRetries config → n ≤ maxRetries config + 1)
    ∧ (∀ k, 1 ≤ k < n →
         match fetch k with
         | Responded response => ok response = false ∧
             status response ∈ [429; 500; 502; 503; 504]
         | Failed _ => True
         end)
    ∧ (n = maxAttempts ∨
         ∃ response, fetch n = Responded response ∧
           (ok response = true ∨ status response ∉ [429; 500; 502; 503; 504]))
    ∧ fetchWithRetry.1 = settle (fetch n)
    ∧ fetchWithRetry.2 = flat_map retried (seqZ 1 (n - 1)) ++ final n
    ∧ requests fetchWithRetry.2 = flat_map (λ k, [MakeBody k; Fetch k]) (seqZ 1 n)
    ∧ attemptsMade fetchWithRetry.2 = n
    ∧ sleeps fetchWithRetry.2 =
        (λ k, (k, jitterMs (backoff k) (random k))) <$> seqZ 1 (n - 1)
    ∧ (retryableFailure (fetch 1) = false →
         fetchWithRetry = (settle (fetch 1), final 1)).
Proof.
  assert (∀ response, retryable response = true ↔
    status response ∈ [429; 500; 502; 503; 504]) as Hset.
  { intros response. unfold retryable. rewrite !orb_true_iff, !Z.eqb_eq.
    rewrite !elem_of_cons, elem_of_nil. tauto. }
  unfold fetchWithRetry.
  destruct (attempts_spec (Z.to_nat maxAttempts) 1) as (n & Hn & Hbefore & Hend & Heq).
  { unfold maxAttempts. lia. }
  { unfold maxAttempts. lia. }
  exists n. rewrite Heq. cbn [fst snd].
  split; [done|]. split; [done|]. split; [unfold maxAttempts in *; lia|].
  split_and!; try done.
  - intros k Hk. specialize (Hbefore k Hk).
    destruct (fetch k) as [response|]; [|done]. simpl in Hbefore.
    apply andb_prop in Hbefore as [Hok Hre]. apply negb_true_iff in Hok.
    split; [done|]. by apply Hset.
  - destruct Hend as [|Hnr]; [by left|right].
    destruct (fetch n) as [response|]; [|done]. exists response.
    split; [done|]. simpl in Hnr. apply andb_false_iff in Hnr as [Hok|Hre].
    + left. by apply negb_false_iff.
    + right. rewrite <- Hset. by rewrite Hre.
  - rewrite requests_retried.
    replace (seqZ 1 n) with (seqZ 1 ((n - 1) + 1)) by (f_equal; lia).
    rewrite seqZ_app, flat_map_app by lia.
    replace (1 + (n - 1)) with n by lia.
    rewrite (seqZ_cons n 1), (seqZ_nil _ (Z.pred 1)) by lia. done.
  - rewrite attemptsMade_retried, length_seqZ. unfold attemptsMade. simpl. lia.
  - rewrite sleeps_retried. simpl. by rewrite app_nil_r.
  - intros H1. destruct (decide (n = 1)) as [->|Hne]; [done|].
    rewrite Hbefore in H1 by lia. done.
Qed.

(** ** The backoff *)

Lemma jitter_bounds (r : Q) :
  (0 <= r)%Q → (r < 1)%Q → (7 # 8 <= jitter r)%Q ∧ (jitter r <= 9 # 8)%Q.
Proof. unfold jitter. intros H0 H1. split; lra. Qed.

Lemma Math_round_nearest (x : Q) :
  (inject_Z (Math_round x) - (1 # 2) <= x)%Q ∧
  (x < inject_Z (Math_round x) + (1 # 2))%Q.
Proof.
  unfold Math_round.
  pose proof (Qfloor_le (x + (1 # 2))) as Hle.
  pose proof (Qlt_floor (x + (1 # 2))) as Hlt.
  rewrite inject_Z_plus in Hlt. change (inject_Z 1) with 1%Q in Hlt.
  split; lra.
Qed.

Lemma Math_round_nonneg (x : Q) : (0 <= x)%Q → 0 ≤ Math_round x.
Proof.
  intros Hx. unfold Math_round.
  change 0 with (Qfloor 0). apply Qfloor_resp_le. lra.
Qed.

Lemma backoff_nonneg attempt :
  0 ≤ retryBaseMs config → 1 ≤ attempt → 0 ≤ backoff attempt.
Proof. intros Hb Ha. unfold backoff. apply Z.mul_nonneg_nonneg; [done|]. lia. Qed.

Lemma jitterMs_round baseMs r :
  0 ≤ baseMs → (0 <= r)%Q →
  jitterMs baseMs r = Math_round (inject_Z baseMs * jitter r).
Proof.
  intros Hb Hr. unfold jitterMs. apply Z.max_r, Math_round_nonneg.
  apply Qmult_le_0_compat.
  - rewrite Zle_Qle in Hb. exact Hb.
  - unfold jitter. lra.
Qed.


(** ** Timers, discarded bodies and the length of the waits *)

(** The whole run: the attempts that were retried, then the last one. *)
Lemma fetchWithRetry_trace :
  ∃ n, 1 ≤ n ≤ maxAttempts
    ∧ (∀ k, 1 ≤ k < n → retryableFailure (fetch k) = true)
    ∧ fetchWithRetry = (settle (fetch n), flat_map retried (seqZ 1 (n - 1)) ++ final n)
    ∧ attemptsMade fetchWithRetry.2 = n.
Proof.
  unfold fetchWithRetry.
  destruct (attempts_spec (Z.to_nat maxAttempts) 1) as (n & Hn & Hbefore & _ & Heq);
    [unfold maxAttempts; lia..|].
  exists n. rewrite Heq. split_and!; [lia..|done|done|].
  cbn [snd]. rewrite attemptsMade_retried, length_seqZ. unfold attemptsMade. simpl. lia.
Qed.

(** When no attempt ends the loop early, the last one allowed is made. *)
Lemma fetchWithRetry_exhausted :
  (∀ k, 1 ≤ k < maxAttempts → retryableFailure (fetch k) = true) →
  fetchWithRetry.1 = settle (fetch maxAttempts)
  ∧ attemptsMade fetchWithRetry.2 = maxAttempts.
Proof.
  intros Hall. unfold fetchWithRetry.
  destruct (attempts_spec (Z.to_nat maxAttempts) 1) as (n & Hn & _ & Hend & Heq);
    [unfold maxAttempts; lia..|].
  assert (n = maxAttempts) as ->.
  { destruct Hend as [|Hnr]; [done|].
    destruct (decide (n = maxAttempts)); [done|].
    rewrite Hall in Hnr by lia. done. }
  rewrite Heq. split; [done|]. cbn [snd].
  rewrite attemptsMade_retried, length_seqZ. unfold attemptsMade. simpl.
  unfold maxAttempts. lia.
Qed.

(** The abort timer of an attempt, as the events of a trace arm and clear
    it: [under armed k] tells that the timer of attempt [k] is the armed
    one. *)
Definition under (armed : option Z) (k : Z) : bool :=
  match armed with Some j => j =? k | None => false end.

(** The timer left armed by a trace that is well bracketed: a timer is set
    only when none is armed, the armed one is the one cleared, and the body,
    the request, the discarding and the sleep of an attempt all happen under
    the timer of that attempt.  [None] for a trace that is not. *)
Fixpoint timers (armed : option Z) (tr : list event) : option (option Z) :=
  match tr with
  | [] => Some armed
  | SetTimeout k :: tr' =>
      match armed with None => timers (Some k) tr' | Some _ => None end
  | ClearTimeout k :: tr' => if under armed k then timers None tr' else None
  | MakeBody k :: tr' | Fetch k :: tr' | Discard k :: tr' | Sleep k _ :: tr' =>
      if under armed k then timers armed tr' else None
  end.

Lemma timers_app armed tr1 tr2 :
  timers armed (tr1 ++ tr2) =
  match timers armed tr1 with Some armed' => timers armed' tr2 | None => None end.
Proof.
  revert armed. induction tr1 as [|e tr1 IH]; intros armed; [done|].
  destruct e, armed as [j|]; simpl; try done; destruct (j =? _); by rewrite ?IH.
Qed.

Lemma timers_retried k : timers None (retried k) = Some None.
Proof. unfold retried. destruct (fetch k); simpl; by rewrite !Z.eqb_refl. Qed.

Lemma timers_final k : timers None (final k) = Some None.
Proof. unfold final. simpl. by rewrite !Z.eqb_refl. Qed.

Lemma timers_retries ks rest :
  timers None (flat_map retried ks ++ rest) = timers None rest.
Proof.
  induction ks as [|k ks IH]; [done|].
  cbn [flat_map]. by rewrite <- app_assoc, timers_app, timers_retried.
Qed.

(** X4.  Every exit of [fetchWithRetry] clears its timer: the trace of a
    run sets the abort timer of an attempt only when no timer is armed,
    makes the body, sends the request, discards a body and sleeps only under
    the timer of the attempt at hand, clears that same timer before the next
    attempt starts, and leaves no timer armed when the function returns or
    throws. *)
Theorem timers_cleared : timers None fetchWithRetry.2 = Some None.
Proof.
  destruct fetchWithRetry_trace as (n & _ & _ & -> & _). cbn [snd].
  by rewrite timers_retries, timers_final.
Qed.

Lemma Discard_retried j k :
  Discard k ∈ retried j ↔ k = j ∧ ∃ response, fetch j = Responded response.
Proof.
  unfold retried. destruct (fetch j) as [response|error]; simpl;
    rewrite !elem_of_cons, elem_of_nil; split.
  - intros H. destruct_or!; simplify_eq. eauto.
  - intros [-> _]. do 3 right. by left.
  - intros H. destruct_or!; simplify_eq.
  - by intros [_ [? ?]].
Qed.

(** X5.  The body of a response is discarded exactly when the response is
    retried: the trace discards the body of attempt k if and only if k is
    an attempt before the last and that attempt received a response; the
    response that is handed to the caller, which is the one of the last
    attempt, still has its body. *)
Theorem discards_only_retried :
  let n := attemptsMade fetchWithRetry.2 in
  fetchWithRetry.1 = settle (fetch n)
  ∧ ¬ (Discard n ∈ fetchWithRetry.2)
  ∧ ∀ k, (Discard k ∈ fetchWithRetry.2) ↔
         (1 ≤ k < n ∧ ∃ response, fetch k = Responded response).
Proof.
  destruct fetchWithRetry_trace as (n & Hn & _ & Heq & Hmade).
  rewrite Hmade. cbv zeta. rewrite Heq. cbn [fst snd].
  assert (∀ k, Discard k ∈ flat_map retried (seqZ 1 (n - 1)) ++ final n ↔
               1 ≤ k < n ∧ ∃ response, fetch k = Responded response) as Hiff.
  { intros k. rewrite elem_of_app, !list_elem_of_In, in_flat_map. split.
    - intros [(j & Hj & Hin)|Hin].
      + apply list_elem_of_In in Hj, Hin. apply elem_of_seqZ in Hj.
        apply Discard_retried in Hin as [-> ?]. split; [lia|done].
      + apply list_elem_of_In in Hin. unfold final in Hin.
        rewrite !elem_of_cons, elem_of_nil in Hin. destruct_or!; simplify_eq.
    - intros [Hk Hr]. left. exists k. rewrite <- !list_elem_of_In. split.
      + apply elem_of_seqZ. lia.
      + by apply Discard_retried. }
  split_and!; [done| |done].
  rewrite Hiff. lia.
Qed.

(** The wait after a failed attempt is at most nine eighths of the base
    of that attempt, rounded. *)
Lemma jitterMs_upper baseMs r :
  0 ≤ baseMs → (0 <= r)%Q → (r < 1)%Q →
  8 * jitterMs baseMs r ≤ 9 * baseMs + 4.
Proof.
  intros Hb Hr0 Hr1. rewrite jitterMs_round by done.
  destruct (Math_round_nearest (inject_Z baseMs * jitter r)) as [Hlo _].
  destruct (jitter_bounds r Hr0 Hr1) as [_ Hj].
  set (d := Math_round _) in *.
  assert (0 <= inject_Z baseMs)%Q as HB
    by (change 0%Q with (inject_Z 0); by rewrite <- Zle_Qle).
  assert (inject_Z baseMs * jitter r <= inject_Z baseMs * (9 # 8))%Q as Hmul.
  { rewrite !(Qmult_comm (inject_Z baseMs)). by apply Qmult_le_compat_r. }
  rewrite Zle_Qle, inject_Z_plus, !inject_Z_mult.
  change (inject_Z 8) with 8%Q. change (inject_Z 9) with 9%Q.
  change (inject_Z 4) with 4%Q. lra.
Qed.

(** X6.  The waits never shrink from one retry to the next: for a base that
    is not negative, the wait after attempt k + 1 is at least the wait after
    attempt k, whatever the two draws of the jitter: doubling the base
    outweighs the spread of the jitter. *)
Theorem backoff_never_shrinks (k : Z) (r1 r2 : Q) :
  0 ≤ retryBaseMs config → 1 ≤ k →
  (0 <= r1)%Q → (r1 < 1)%Q → (0 <= r2)%Q → (r2 < 1)%Q →
  jitterMs (backoff k) r1 ≤ jitterMs (backoff (k + 1)) r2.
Proof.
  intros Hb Hk Hr1 Hr1' Hr2 Hr2'.
  assert (backoff (k + 1) = 2 * backoff k) as ->.
  { unfold backoff. replace (k + 1 - 1) with (Z.succ (k - 1)) by lia.
    rewrite Z.pow_succ_r by lia. lia. }
  pose proof (backoff_nonneg k Hb Hk) as HB.
  unfold jitterMs. apply Z.max_le_compat_l. unfold Math_round.
  apply Qfloor_resp_le.
  destruct (jitter_bounds r1 Hr1 Hr1') as [_ Hj1].
  destruct (jitter_bounds r2 Hr2 Hr2') as [Hj2 _].
  rewrite inject_Z_mult. change (inject_Z 2) with 2%Q.
  rewrite Zle_Qle in HB. change (inject_Z 0) with 0%Q in HB.
  set (B := inject_Z (backoff k)) in *.
  assert (B * jitter r1 <= B * (9 # 8))%Q as H1.
  { rewrite !(Qmult_comm B). by apply Qmult_le_compat_r. }
  assert (B * (7 # 8) <= B * jitter r2)%Q as H2.
  { rewrite !(Qmult_comm B). by apply Qmult_le_compat_r. }
  lra.
Qed.

(** The milliseconds slept in a run. *)
Definition sleepTotal (tr : list event) : Z :=
  foldr (λ s acc, s.2 + acc) 0 (sleeps tr).

Lemma sleepTotal_bound (count : nat) (first : Z) :
  0 ≤ retryBaseMs config → 1 ≤ first →
  (∀ k, first ≤ k → (0 <= random k)%Q ∧ (random k < 1)%Q) →
  8 * foldr (λ s acc, s.2 + acc) 0
        ((λ k, (k, jitterMs (backoff k) (random k))) <$> seqZ first (Z.of_nat count))
  ≤ 9 * retryBaseMs config * (2 ^ (first - 1 + Z.of_nat count) - 2 ^ (first - 1))
    + 4 * Z.of_nat count.
Proof.
  intros Hb. revert first. induction count as [|count IH]; intros first Hf Hr.
  { change (Z.of_nat 0) with 0. rewrite seqZ_nil, !Z.add_0_r by lia.
    rewrite Z.sub_diag. cbn [fmap list_fmap foldr]. lia. }
  rewrite Nat2Z.inj_succ, seqZ_cons by lia.
  rewrite Z.pred_succ. cbn [fmap list_fmap foldr snd].
  specialize (IH (Z.succ first) ltac:(lia) ltac:(intros; apply Hr; lia)).
  destruct (Hr first ltac:(lia)) as [Hr0 Hr1].
  pose proof (jitterMs_upper (backoff first) (random first)
                (backoff_nonneg first Hb Hf) Hr0 Hr1) as Hd.
  replace (Z.succ first - 1 + Z.of_nat count) with (first - 1 + Z.succ (Z.of_nat count))
    in IH by lia.
  replace (Z.succ first - 1) with (Z.succ (first - 1)) in IH by lia.
  rewrite Z.pow_succ_r in IH by lia.
  set (J := jitterMs (backoff first) (random first)) in *.
  set (rest := foldr _ _ _) in *.
  unfold backoff in Hd.
  set (P := 2 ^ (first - 1)) in *.
  set (P' := 2 ^ (first - 1 + Z.succ (Z.of_nat count))) in *.
  clearbody J rest P P'. clear Hr Hr0 Hr1.
  rewrite Z.mul_sub_distr_l in *. rewrite !Z.mul_assoc in *.
  set (bP := 9 * retryBaseMs config * P) in *.
  set (bP' := 9 * retryBaseMs config * P') in *.
  replace (9 * retryBaseMs config * 2 * P) with (2 * bP) in IH by (unfold bP; lia).
  clearbody bP bP'. lia.
Qed.

(** X7.  A bound on the time a run spends waiting: for a base that is not
    negative, the milliseconds slept in all the backoffs of a run sum up to
    at most 9/8 · base · (2^(maxAttempts - 1) - 1) plus half a millisecond
    of rounding for each of the at most maxAttempts - 1 waits. *)
Theorem sleep_total_bounded :
  0 ≤ retryBaseMs config →
  (∀ k, 1 ≤ k → (0 <= random k)%Q ∧ (random k < 1)%Q) →
  0 ≤ sleepTotal fetchWithRetry.2
  ∧ 8 * sleepTotal fetchWithRetry.2
    ≤ 9 * retryBaseMs config * (2 ^ (maxAttempts - 1) - 1) + 4 * (maxAttempts - 1).
Proof.
  intros Hb Hr.
  destruct fetchWithRetry_trace as (n & Hn & _ & -> & _). cbn [snd].
  unfold sleepTotal. rewrite sleeps_retried. simpl. rewrite app_nil_r.
  pose proof (sleepTotal_bound (Z.to_nat (n - 1)) 1 Hb ltac:(lia) Hr) as Hup.
  rewrite Z2Nat.id in Hup by lia.
  replace (1 - 1 + (n - 1)) with (n - 1) in Hup by lia.
  change (2 ^ (1 - 1)) with 1 in Hup.
  split.
  - clear Hup. generalize (seqZ 1 (n - 1)). intros ks.
    induction ks as [|k ks IH]; [done|]. cbn [fmap list_fmap foldr snd].
    assert (0 ≤ jitterMs (backoff k) (random k)) by (unfold jitterMs; lia).
    change (list_fmap _ _ ?f ks) with (f <$> ks). lia.
  - assert (2 ^ (n - 1) ≤ 2 ^ (maxAttempts - 1)) as Hpow
      by (apply Z.pow_le_mono_r; lia).
    set (total := foldr _ _ _) in *. clearbody total.
    assert (9 * retryBaseMs config * (2 ^ (n - 1) - 1)
            ≤ 9 * retryBaseMs config * (2 ^ (maxAttempts - 1) - 1))
      by (apply Z.mul_le_mono_nonneg_l; lia).
    lia.
Qed.

(** X17.  A retry count of zero, or a negative one, turns retrying off:
    the run is one attempt, whatever the attempt gives: its response is
    returned, or its exception thrown, and nothing is discarded or slept. *)
Theorem no_retries :
  maxRetries config ≤ 0 →
  fetchWithRetry = (settle (fetch 1), final 1)
  ∧ attemptsMade fetchWithRetry.2 = 1
  ∧ sleeps fetchWithRetry.2 = [].
Proof.
  intros Hzero.
  destruct fetchWithRetry_trace as (n & Hn & _ & Heq & Hmade).
  assert (n = 1) as -> by (unfold maxAttempts in Hn; lia).
  rewrite Hmade, Heq. by split_and!.
Qed.

End transport.

(** C2 as first stated fails on the bound: with [maxRetries = -1] the loop
    still makes one attempt, which is more than [maxRetries + 1 = 0]. *)
Lemma attempts_exceed_maxRetries :
  ¬ (∀ (config : Config) (fetch : Z → fetched) (random : Z → Q),
       attemptsMade (fetchWithRetry config fetch random).2 ≤ maxRetries config + 1).
Proof.
  intros H.
  specialize (H {| requestTimeoutMs := 300000; maxRetries := -1; retryBaseMs := 250 |}
                (λ _, Failed "fetch failed") (λ _, 0%Q)).
  vm_compute in H. by apply H.
Qed.


(** ** The transport on the scenarios of [groqAudio.test.ts] *)

Definition respond (status : Z) : fetched :=
  Responded {| status := status; contentType := Some "application/json"; bodyText := "" |}.

(** A 429 and then a 200: two attempts, one sleep, the 200 is returned. *)
Example retries_on_429_then_succeeds :
  let run := fetchWithRetry defaultConfig
               (λ k, if k =? 1 then respond 429 else respond 200) (λ _, 1 # 2) in
  run.1 = settle (respond 200) ∧ attemptsMade run.2 = 2 ∧ sleeps run.2 = [(1, 250)].
Proof. by vm_compute. Qed.

(** A 400: one attempt, no sleep, the 400 is returned. *)
Example does_not_retry_on_400 :
  let run := fetchWithRetry defaultConfig (λ _, respond 400) (λ _, 1 # 2) in
  run.1 = settle (respond 400) ∧ attemptsMade run.2 = 1 ∧ sleeps run.2 = [].
Proof. by vm_compute. Qed.

(** Always 503: the three attempts of the default configuration, and the
    last response is returned. *)
Example gives_up_after_three_attempts :
  let run := fetchWithRetry defaultConfig (λ _, respond 503) (λ _, 1 # 2) in
  run.1 = settle (respond 503) ∧ attemptsMade run.2 = 3
  ∧ sleeps run.2 = [(1, 250); (2, 500)].
Proof. by vm_compute. Qed.

(** Always an exception: the last one is thrown on. *)
Example throws_the_last_exception :
  (fetchWithRetry defaultConfig (λ _, Failed "fetch failed") (λ _, 0%Q)).1
  = Throws "fetch failed".
Proof. by vm_compute. Qed.

(** X6 at the default configuration: the wait after the first attempt with
    a draw of 1/2 and the wait after the second with a draw of 0. *)
Lemma backoff_never_shrinks_witness :
  jitterMs (backoff defaultConfig 1) (1 # 2)
  ≤ jitterMs (backoff defaultConfig (1 + 1)) 0.
Proof.
  apply (backoff_never_shrinks defaultConfig 1 (1 # 2) 0).
  - simpl. lia.
  - lia.
  - unfold Qle. simpl. lia.
  - unfold Qlt. simpl. lia.
  - unfold Qle. simpl. lia.
  - unfold Qlt. simpl. lia.
Defined.

(** X7 at the default configuration, when every attempt is answered 503 and
    every draw is 1/2: the run sleeps 250 + 500 ms. *)
Lemma sleep_total_bounded_witness :
  8 * sleepTotal (fetchWithRetry defaultConfig (λ _, respond 503) (λ _, 1 # 2)).2
  ≤ 6758.
Proof.
  refine (proj2 (sleep_total_bounded defaultConfig (λ _, respond 503) (λ _, 1 # 2) _ _)).
  - simpl. lia.
  - intros k _. split; [unfold Qle|unfold Qlt]; simpl; lia.
Defined.

(** X17 with retrying turned off and an upstream that always answers 503. *)
Lemma no_retries_witness :
  attemptsMade
    (fetchWithRetry {| requestTimeoutMs := 300000; maxRetries := 0; retryBaseMs := 250 |}
       (λ _, respond 503) (λ _, 0%Q)).2 = 1.
Proof.
  refine (proj1 (proj2 (no_retries
    {| requestTimeoutMs := 300000; maxRetries := 0; retryBaseMs := 250 |}
    (λ _, respond 503) (λ _, 0%Q) _))).
  simpl. lia.
Defined.

End GroqAudio.

(** * The platform: paths and files *)

Module Node.

(** A thrown value.  The code only ever reads its message. *)
Inductive Error :=
| ExtensionMismatch (provided expected : string)
| TooManyCollisions
| EEXIST (path : string).

Definition message (e : Error) : string :=
  match e with
  | ExtensionMismatch provided expected =>
      "save_as extension '." +:+ provided +:+ "' does not match expected '." +:+
      expected +:+ "'."
  | TooManyCollisions =>
      "Unable to reserve a transcript filename (too many collisions)."
  | EEXIST path => "EEXIST: file already exists, open '" +:+ path +:+ "'"
  end.

(** A value, or what was thrown instead. *)
Inductive Result (E A : Type) :=
| Ok (a : A)
| Err (e : E).
Arguments Ok {E A} a.
Arguments Err {E A} e.

(** [path.resolve(rel)] in the working directory [cwd] (absolute and
    normalized) for a plain relative name, and [path.join(dir, file)] for a
    file name without separators (POSIX). *)
Definition resolve (cwd rel : string) : string :=
  if decide (cwd = "/") then "/" +:+ rel else cwd +:+ "/" +:+ rel.

Definition join (dir file : string) : string := dir +:+ "/" +:+ file.

(** The files: absolute path to contents.  Directories are not recorded:
    [fs.mkdir(dir, {recursive: true})] succeeds and changes no file. *)
Abbreviation FS := (gmap string string).

(** [exists(filePath)]: [fs.stat] succeeds. *)
Definition exists_ (fs : FS) (filePath : string) : bool :=
  bool_decide (is_Some (fs !! filePath)).

(** [fs.writeFile(path, contents, {flag: "wx"})] *)
Definition writeFile_wx (fs : FS) (path contents : string) : Result Error FS :=
  if exists_ fs path then Err (EEXIST path) else Ok (<[path := contents]> fs).

(** [stat.size]: the length in bytes of the UTF-8 encoding. *)
Definition utf8Length (contents : string) : Z :=
  foldr (λ c n, (if Nat.ltb (Js.code c) 128 then 1 else 2) + n)%Z 0%Z (Js.chars contents).

Lemma join_inj dir file1 file2 : join dir file1 = join dir file2 → file1 = file2.
Proof.
  unfold join. intros H. apply (inj (String.app dir)) in H.
  by apply (inj (String.app "/")) in H.
Qed.

Lemma writeFile_wx_Ok fs path contents fs' :
  writeFile_wx fs path contents = Ok fs' →
  fs !! path = None ∧ fs' = <[path := contents]> fs.
Proof.
  unfold writeFile_wx, exists_. case_bool_decide as H; [done|].
  intros [= <-]. split; [|done]. by apply eq_None_not_Some.
Qed.

End Node.

(** * [schemas/transcribe.ts] *)

Module Schemas.

Inductive GroqAudioResponseFormat := JSON | VERBOSE_JSON | TEXT.

Inductive OutputFormat := OutputText | OutputMarkdown | OutputJson.

Inductive TimestampGranularity := WORD | SEGMENT.

Definition responseFormatName (f : GroqAudioResponseFormat) : string :=
  match f with JSON => "json" | VERBOSE_JSON => "verbose_json" | TEXT => "text" end.

Definition granularityName (g : TimestampGranularity) : string :=
  match g with WORD => "word" | SEGMENT => "segment" end.

Definition includes (c : ascii) (s : string) : bool :=
  existsb (Ascii.eqb c) (Js.chars s).

(** The refinement of an item's [save_as]: [true] when an issue is added,
    that is, when the input is refused. *)
Definition saveAsIssue (save_as : option string) : bool :=
  match save_as with
  | None => false
  | Some s => includes "/" s || includes "\" s || includes "000" s
  end.

End Schemas.

(** * [services/transcripts.ts] *)

Module Transcripts.
Import Js Node.

Definition TRANSCRIPTS_DIR : string := "transcripts".

(** The UTC fields of a [Date], as its getters return them. *)
Record Date := {
  UTCFullYear : Z;
  UTCMonth : Z;
  UTCDate : Z;
  UTCHours : Z;
  UTCMinutes : Z;
  UTCSeconds : Z;
  UTCMilliseconds : Z
}.

(** [pad(n, width)] *)
Definition pad (n : Z) (width : nat) : list ascii := padStart width (ofZ n).

(** [date.toISOString()] *)
Definition toISOString (date : Date) : string :=
  let y := UTCFullYear date in
  let year :=
    if (0 <=? y)%Z && (y <=? 9999)%Z then pad y 4
    else (if (y <? 0)%Z then "-"%char else "+"%char) :: pad (Z.abs y) 6 in
  str (year ++ chars "-" ++ pad (UTCMonth date + 1) 2 ++ chars "-" ++
       pad (UTCDate date) 2 ++ chars "T" ++ pad (UTCHours date) 2 ++ chars ":" ++
       pad (UTCMinutes date) 2 ++ chars ":" ++ pad (UTCSeconds date) 2 ++
       chars "." ++ pad (UTCMilliseconds date) 3 ++ chars "Z").

Definition timestampSlug (date : Date) : string :=
  str (ofZ (UTCFullYear date) ++ pad (UTCMonth date + 1) 2 ++ pad (UTCDate date) 2 ++
       chars "T" ++ pad (UTCHours date) 2 ++ pad (UTCMinutes date) 2 ++
       pad (UTCSeconds date) 2 ++ pad (UTCMilliseconds date) 3 ++ chars "Z").

(** [sanitizeSegment], on characters and on strings. *)
Definition sanitizeChars (segment : list ascii) : list ascii :=
  let trimmed := trim segment in
  let replaced := squash (negb ∘ isWord) false trimmed in
  let collapsed := squash isUnderscore false replaced in
  match take 120 (stripUnderscores collapsed) with
  | [] => chars "transcript"
  | capped => capped
  end.

Definition sanitizeSegment (segment : string) : string :=
  str (sanitizeChars (chars segment)).

(** What the code reads of a parsed [URL]. *)
Record URL := {
  pathname : string;
  hostname : string
}.

(** A truthy optional string: present and not empty. *)
Definition truthy (o : option string) : option string :=
  match o with
  | Some s => if decide (s = "") then None else Some s
  | None => None
  end.

(** [path.basename(p)] (POSIX): the last segment that is not empty. *)
Definition basename (p : list ascii) : list ascii :=
  default [] (lastNonEmpty (split "/" p)).

Record Source := {
  file_path : option string;
  url : option string
}.

Section naming.
(** [new URL(url)]: [None] when the constructor throws. *)
Variable parseURL : string → option URL.

Definition baseNameFromUrl (url : string) : string :=
  match parseURL url with
  | Some parsed =>
      let last := default (chars (hostname parsed))
                          (lastNonEmpty (split "/" (chars (pathname parsed)))) in
      let withoutExt := removeExtension last in
      sanitizeSegment (str (if nonEmpty withoutExt then withoutExt else chars "audio"))
  | None => "audio"
  end.

Definition deriveTranscriptBaseName (source : Source) : string :=
  match truthy (file_path source) with
  | Some file_path =>
      sanitizeSegment (str (removeExtension (basename (chars file_path))))
  | None =>
      match truthy (url source) with
      | Some url => baseNameFromUrl url
      | None => "transcript"
      end
  end.

End naming.

Inductive Extension := txt | json.

Definition extensionName (ext : Extension) : string :=
  match ext with txt => "txt" | json => "json" end.

(** The world [reserveTranscriptPath] runs in. *)
Record World := {
  cwd : string;
  now : Date;
  files : FS
}.

Record ReserveOptions := {
  baseName : string;
  extension : Extension;
  saveAs : option string
}.

Definition dirPath (w : World) : string := resolve (cwd w) TRANSCRIPTS_DIR.

(** The i-th name tried by the default scheme: no suffix for the first,
    then [__2], [__3], ... *)
Definition candidate (w : World) (base ext : string) (i : Z) : string :=
  if (i <=? 1)%Z
  then join (dirPath w) (base +:+ "__" +:+ timestampSlug (now w) +:+ "." +:+ ext)
  else join (dirPath w) (base +:+ "__" +:+ timestampSlug (now w) +:+ "__" +:+
                         str (ofZ i) +:+ "." +:+ ext).

(** [for (let i = ...; i <= 10_000; i++)] *)
Fixpoint probe (w : World) (base ext : string) (fuel : nat) (i : Z) : option string :=
  match fuel with
  | O => None
  | S fuel' =>
      if (10000 <? i)%Z then None
      else if exists_ (files w) (candidate w base ext i)
      then probe w base ext fuel' (i + 1)%Z
      else Some (candidate w base ext i)
  end.

(** [sanitizeSegment(saveAs.trim())] *)
Definition safeName (saveAs : string) : list ascii :=
  let raw := trim (chars saveAs) in
  sanitizeChars raw.

Definition reserveTranscriptPath (w : World) (options : ReserveOptions)
  : Result Error string :=
  let ext := extensionName (extension options) in
  match truthy (saveAs options) with
  | Some saveAs =>
      let safe := safeName saveAs in
      let providedExt := (λ m, str (toLower <$> m.2)) <$> matchExtension safe in
      match providedExt with
      | Some providedExt =>
          if decide (providedExt ≠ ext)
          then Err (ExtensionMismatch providedExt ext)
          else Ok (join (dirPath w) (str safe))
      | None => Ok (join (dirPath w) (str safe +:+ "." +:+ ext))
      end
  | None =>
      let base := sanitizeSegment (baseName options) in
      let first := candidate w base ext 1 in
      if negb (exists_ (files w) first) then Ok first
      else match probe w base ext (Z.to_nat 9999) 2 with
           | Some candidate => Ok candidate
           | None => Err TooManyCollisions
           end
  end.

(** ** The sanitizer *)

(** The segment before the cap and the default. *)
Definition stripped (segment : list ascii) : list ascii :=
  stripUnderscores
    (squash isUnderscore false (squash (negb ∘ isWord) false (trim segment))).

Lemma sanitizeChars_unfold segment :
  sanitizeChars segment =
  if nonEmpty (take 120 (stripped segment)) then take 120 (stripped segment)
  else chars "transcript".
Proof. unfold sanitizeChars, stripped. by destruct (take 120 _). Qed.

Lemma stripped_sub segment :
  ∃ j k, stripped segment =
    take k (drop j (squash isUnderscore false
                      (squash (negb ∘ isWord) false (trim segment)))).
Proof.
  unfold stripped, stripUnderscores.
  set (l := squash isUnderscore false _).
  destruct (dropWhile_drop isUnderscore l) as [j ->].
  destruct (dropWhileEnd_take isUnderscore (drop j l)) as [k ->]. eauto.
Qed.

Lemma stripped_word segment : Forall isWord (stripped segment).
Proof.
  destruct (stripped_sub segment) as (j & k & ->).
  apply Forall_take, Forall_drop, squash_Forall; [exact I|].
  intros c Hc _. revert c Hc. apply Forall_forall, squash_Forall; [exact I|].
  intros c _ Hc. simpl in Hc. by destruct (isWord c).
Qed.

Lemma stripped_collapsed segment : doubled (stripped segment) = false.
Proof.
  destruct (stripped_sub segment) as (j & k & ->).
  apply doubled_take, doubled_drop, squash_collapsed.
Qed.

Lemma stripped_head segment c :
  head (stripped segment) = Some c → isUnderscore c = false.
Proof.
  unfold stripped, stripUnderscores. set (l := squash isUnderscore false _).
  destruct (dropWhileEnd_take isUnderscore (dropWhile isUnderscore l)) as [k ->].
  intros H. apply head_take_Some in H. by apply dropWhile_head in H.
Qed.

Lemma stripped_last segment c :
  last (stripped segment) = Some c → isUnderscore c = false.
Proof. apply dropWhileEnd_last. Qed.

Lemma sanitizeChars_word segment : Forall isWord (sanitizeChars segment).
Proof.
  rewrite sanitizeChars_unfold. destruct (nonEmpty _).
  - apply Forall_take, stripped_word.
  - by repeat constructor.
Qed.

Lemma sanitizeChars_length segment : 0 < length (sanitizeChars segment) ≤ 120.
Proof.
  rewrite sanitizeChars_unfold. destruct (take 120 _) as [|c l] eqn:E; simpl.
  - lia.
  - pose proof (firstn_le_length 120 (stripped segment)) as H.
    rewrite E in H. simpl in H. lia.
Qed.

Lemma sanitizeChars_collapsed segment : doubled (sanitizeChars segment) = false.
Proof.
  rewrite sanitizeChars_unfold. destruct (nonEmpty _); [|done].
  apply doubled_take, stripped_collapsed.
Qed.

Lemma sanitizeChars_head segment c :
  head (sanitizeChars segment) = Some c → isUnderscore c = false.
Proof.
  rewrite sanitizeChars_unfold. destruct (nonEmpty _).
  - intros H. apply head_take_Some in H. by apply stripped_head in H.
  - by intros [= <-].
Qed.

Lemma sanitizeChars_last segment c :
  length (stripped segment) ≤ 120 →
  last (sanitizeChars segment) = Some c → isUnderscore c = false.
Proof.
  intros Hlen. rewrite sanitizeChars_unfold, take_ge by done.
  destruct (nonEmpty _).
  - apply stripped_last.
  - by intros [= <-].
Qed.


(** A name made of word characters holds no path separator and no null
    byte. *)
Lemma isWord_bare (c : ascii) :
  isWord c →
  Ascii.eqb "/" c = false ∧ Ascii.eqb "\" c = false ∧ Ascii.eqb "000" c = false.
Proof.
  intros H. split_and!; apply Ascii.eqb_neq; intros <-; by vm_compute in H.
Qed.

Lemma word_bare (name : list ascii) :
  Forall isWord name →
  Schemas.saveAsIssue (Some (str name)) = false.
Proof.
  intros H. unfold Schemas.saveAsIssue, Schemas.includes.
  rewrite String.list_ascii_of_string_of_list_ascii.
  induction H as [|c l Hc _ IH]; [done|]. cbn [existsb].
  apply orb_false_iff in IH as [IH IH3]. apply orb_false_iff in IH as [IH1 IH2].
  destruct (isWord_bare c Hc) as (-> & -> & ->).
  by rewrite IH1, IH2, IH3.
Qed.

(** ** The timestamp *)

Definition validDate (date : Date) : Prop :=
  (1000 ≤ UTCFullYear date ≤ 9999 ∧ 0 ≤ UTCMonth date ≤ 11 ∧
   1 ≤ UTCDate date ≤ 31 ∧ 0 ≤ UTCHours date ≤ 23 ∧
   0 ≤ UTCMinutes date ≤ 59 ∧ 0 ≤ UTCSeconds date ≤ 59 ∧
   0 ≤ UTCMilliseconds date ≤ 999)%Z.

(** [n] digits *)
Definition numeral (n : nat) (l : list ascii) : Prop :=
  length l = n ∧ Forall isDigit l.

Lemma pad_numeral n (w : nat) :
  (0 ≤ n < 10 ^ Z.of_nat (S w))%Z → numeral (S w) (pad n (S w)).
Proof. apply padStart_digits. Qed.

Lemma timestampSlug_shape date :
  validDate date →
  ∃ yyyy mm dd hh mi ss ms,
    chars (timestampSlug date) =
      yyyy ++ mm ++ dd ++ chars "T" ++ hh ++ mi ++ ss ++ ms ++ chars "Z"
    ∧ numeral 4 yyyy ∧ numeral 2 mm ∧ numeral 2 dd ∧ numeral 2 hh
    ∧ numeral 2 mi ∧ numeral 2 ss ∧ numeral 3 ms.
Proof.
  intros (Hy & Hmo & Hd & Hh & Hmi & Hs & Hms).
  unfold timestampSlug. rewrite String.list_ascii_of_string_of_list_ascii.
  do 7 eexists. split; [reflexivity|].
  split_and!; try (apply pad_numeral; simpl; lia).
  split; [by apply (ofZ_length _ 3); simpl; lia|apply ofZ_digits; lia].
Qed.

(** ** Reserving a path *)

Lemma probe_spec w base ext fuel i :
  match probe w base ext fuel i with
  | Some p =>
      ∃ j, (i ≤ j ≤ 10000)%Z ∧ p = candidate w base ext j ∧
        files w !! p = None ∧
        ∀ k, (i ≤ k < j)%Z → is_Some (files w !! candidate w base ext k)
  | None =>
      ∀ k, (i ≤ k < i + Z.of_nat fuel)%Z → (k ≤ 10000)%Z →
        is_Some (files w !! candidate w base ext k)
  end.
Proof.
  revert i. induction fuel as [|fuel IH]; intros i; simpl; [intros; lia|].
  destruct (Z.ltb_spec 10000 i) as [Hi|Hi]; [intros; lia|].
  unfold exists_. case_bool_decide as Hex.
  - specialize (IH (i + 1)%Z). destruct (probe _ _ _ _ _) as [p|].
    + destruct IH as (j & Hj & -> & Hnone & Hbefore).
      exists j. split_and!; [lia..|done|done|].
      intros k Hk. destruct (decide (k = i)) as [->|]; [done|].
      apply Hbefore. lia.
    + intros k Hk Hk'. destruct (decide (k = i)) as [->|]; [done|].
      apply IH; lia.
  - exists i. split_and!; [lia..|done| |intros; lia].
    by apply eq_None_not_Some.
Qed.

(** The default scheme: the reserved path is the first of the 10000
    candidates that does not exist; there is an error only when all exist. *)
Lemma reserve_default w options :
  truthy (saveAs options) = None →
  let base := sanitizeSegment (baseName options) in
  let ext := extensionName (extension options) in
  match reserveTranscriptPath w options with
  | Ok p =>
      ∃ j, (1 ≤ j ≤ 10000)%Z ∧ p = candidate w base ext j ∧
        files w !! p = None ∧
        ∀ k, (1 ≤ k < j)%Z → is_Some (files w !! candidate w base ext k)
  | Err e =>
      e = TooManyCollisions ∧
      ∀ k, (1 ≤ k ≤ 10000)%Z → is_Some (files w !! candidate w base ext k)
  end.
Proof.
  intros Hs base ext. unfold reserveTranscriptPath. rewrite Hs.
  fold base ext. unfold exists_. case_bool_decide as Hex; cbn [negb].
  - pose proof (probe_spec w base ext (Z.to_nat 9999) 2) as Hp.
    destruct (probe _ _ _ _ _) as [p|].
    + destruct Hp as (j & Hj & -> & Hnone & Hbefore).
      exists j. split_and!; [lia..|done|done|].
      intros k Hk. destruct (decide (k = 1%Z)) as [->|]; [done|].
      apply Hbefore. lia.
    + split; [done|]. intros k Hk.
      destruct (decide (k = 1%Z)) as [->|]; [done|]. apply Hp; lia.
  - exists 1%Z. split_and!; [lia..|done| |intros; lia].
    by apply eq_None_not_Some.
Qed.



(** ** The naming functions on examples *)

Example sanitizeSegment_examples :
  sanitizeSegment "  My File (final) v2.mp3 " = "My_File_final_v2.mp3"
  ∧ sanitizeSegment "a/b\c" = "a_b_c"
  ∧ sanitizeSegment "__x___y__" = "x_y"
  ∧ sanitizeSegment "///" = "transcript"
  ∧ sanitizeSegment "" = "transcript".
Proof. by vm_compute. Qed.

Example timestampSlug_example :
  timestampSlug {| UTCFullYear := 2026; UTCMonth := 0; UTCDate := 5; UTCHours := 13;
                   UTCMinutes := 4; UTCSeconds := 59; UTCMilliseconds := 7 |}
  = "20260105T130459007Z".
Proof. by vm_compute. Qed.

Example matchExtension_examples :
  matchExtension (chars "a.tar.gz") = Some (chars "a.tar", chars "gz")
  ∧ matchExtension (chars ".bashrc") = Some ([], chars "bashrc")
  ∧ matchExtension (chars "notes.") = None
  ∧ matchExtension (chars "v1.2_final") = None
  ∧ matchExtension (chars "plain") = None.
Proof. by vm_compute. Qed.

(** ** Names the sanitizer keeps *)

(** A name on which the sanitizer has nothing to do: characters of
    [[A-Za-z0-9._-]] only, no two underscores in a row, no underscore at
    either end, between 1 and 120 characters. *)
Definition isClean (name : list ascii) : bool :=
  forallb isWord name && negb (doubled name)
  && negb (from_option isUnderscore false (head name))
  && negb (from_option isUnderscore false (last name))
  && nonEmpty name && Nat.leb (length name) 120.

Lemma isClean_spec name :
  isClean name = true ↔
  Forall isWord name ∧ doubled name = false
  ∧ from_option isUnderscore false (head name) = false
  ∧ from_option isUnderscore false (last name) = false
  ∧ nonEmpty name = true ∧ length name ≤ 120.
Proof.
  unfold isClean. rewrite !andb_true_iff, !negb_true_iff, Nat.leb_le.
  rewrite <- Is_true_true, forallb_True. tauto.
Qed.

Lemma isWord_notSpace (c : ascii) : isWord c → isSpace c = false.
Proof.
  destruct c as [[] [] [] [] [] [] [] []]; vm_compute; intros H;
    try reflexivity; destruct H.
Qed.

Lemma dropWhile_id (p : ascii → bool) l :
  from_option p false (head l) = false → dropWhile p l = l.
Proof. destruct l as [|c l]; [done|]. simpl. by intros ->. Qed.

Lemma dropWhileEnd_id (p : ascii → bool) l :
  from_option p false (last l) = false → dropWhileEnd p l = l.
Proof.
  intros H. unfold dropWhileEnd.
  rewrite dropWhile_id by (by rewrite head_reverse). apply reverse_involutive.
Qed.

Lemma trim_word l : Forall isWord l → trim l = l.
Proof.
  intros H. unfold trim. rewrite (dropWhile_id isSpace l).
  - apply dropWhileEnd_id. destruct (last l) as [c|] eqn:E; [|done]. simpl.
    apply isWord_notSpace. apply last_Some_elem_of in E.
    by eapply Forall_forall in H.
  - destruct l as [|c l]; [done|]. simpl. apply isWord_notSpace.
    by apply Forall_cons in H as [? _].
Qed.

Lemma squash_word inRun l :
  Forall isWord l → squash (negb ∘ isWord) inRun l = l.
Proof.
  intros H. revert inRun. induction H as [|c l Hc _ IH]; intros inRun; [done|].
  simpl. apply Is_true_true in Hc. rewrite Hc. simpl. by rewrite IH.
Qed.

Lemma squash_single inRun l :
  doubled l = false →
  (inRun = true → from_option isUnderscore false (head l) = false) →
  squash isUnderscore inRun l = l.
Proof.
  revert inRun. induction l as [|c l IH]; intros inRun Hd Hrun; [done|].
  simpl in *. apply orb_false_iff in Hd as [Hc Hd].
  destruct (isUnderscore c) eqn:E.
  - simpl in Hc. destruct inRun; [by discriminate Hrun|].
    apply Ascii.eqb_eq in E as ->. by rewrite IH.
  - by rewrite IH.
Qed.

Lemma stripped_clean l :
  Forall isWord l → doubled l = false →
  from_option isUnderscore false (head l) = false →
  from_option isUnderscore false (last l) = false →
  stripped l = l.
Proof.
  intros Hw Hd Hh Hl. unfold stripped, stripUnderscores.
  rewrite trim_word, squash_word, squash_single by done.
  rewrite (dropWhile_id isUnderscore l) by done. by apply dropWhileEnd_id.
Qed.

Lemma sanitizeChars_clean l : isClean l = true → sanitizeChars l = l.
Proof.
  intros (Hw & Hd & Hh & Hl & Hne & Hlen)%isClean_spec.
  rewrite sanitizeChars_unfold, stripped_clean, take_ge by done.
  by rewrite Hne.
Qed.

Lemma dropWhile_snoc_nonEmpty (p : ascii → bool) l c :
  p c = false → nonEmpty (dropWhile p (l ++ [c])) = true.
Proof.
  intros Hc. induction l as [|d l IH]; simpl; [by rewrite Hc|].
  by destruct (p d).
Qed.

Lemma dropWhileEnd_nonEmpty (p : ascii → bool) l c :
  head l = Some c → p c = false → nonEmpty (dropWhileEnd p l) = true.
Proof.
  intros Hh Hc. destruct l as [|d l]; simplify_eq/=.
  unfold dropWhileEnd. rewrite reverse_cons.
  pose proof (dropWhile_snoc_nonEmpty p (reverse l) c Hc) as H.
  destruct (dropWhile p (reverse l ++ [c])) as [|x xs]; [done|].
  rewrite reverse_cons. by destruct (reverse xs).
Qed.

(** Sanitizing a sanitized name only takes an underscore off its end. *)
Lemma sanitizeChars_again l :
  sanitizeChars (sanitizeChars l) = dropWhileEnd isUnderscore (sanitizeChars l)
  ∧ isClean (dropWhileEnd isUnderscore (sanitizeChars l)) = true.
Proof.
  set (t := sanitizeChars l).
  pose proof (sanitizeChars_word l) as Hw. pose proof (sanitizeChars_collapsed l) as Hd.
  pose proof (sanitizeChars_length l) as Hlen. fold t in Hw, Hd, Hlen.
  assert (from_option isUnderscore false (head t) = false) as Hh.
  { destruct (head t) as [c|] eqn:E; [|done]. by apply sanitizeChars_head in E. }
  destruct (dropWhileEnd_take isUnderscore t) as [k Hk].
  assert (nonEmpty (dropWhileEnd isUnderscore t) = true) as Hne.
  { destruct (head t) as [c|] eqn:E.
    - by apply (dropWhileEnd_nonEmpty _ _ c).
    - apply head_None in E. rewrite E in Hlen. simpl in Hlen. lia. }
  assert (length (dropWhileEnd isUnderscore t) ≤ 120) as Hle.
  { rewrite Hk, length_take. lia. }
  split.
  - rewrite sanitizeChars_unfold. unfold stripped, stripUnderscores.
    rewrite trim_word, squash_word, squash_single by done.
    rewrite (dropWhile_id isUnderscore t) by done.
    rewrite take_ge by done. by rewrite Hne.
  - apply isClean_spec. split_and!; try done.
    + rewrite Hk. by apply Forall_take.
    + rewrite Hk. by apply doubled_take.
    + destruct (head (dropWhileEnd isUnderscore t)) as [c|] eqn:E; [|done].
      rewrite Hk in E. apply head_take_Some in E. by rewrite E in Hh.
    + destruct (last (dropWhileEnd isUnderscore t)) as [c|] eqn:E; [|done].
      by apply dropWhileEnd_last in E.
Qed.

(** X8.  A name that is already clean passes the sanitizer unchanged:
    [sanitizeSegment] is the identity on every name of 1 to 120 characters
    of [[A-Za-z0-9._-]] that has no two underscores in a row and no
    underscore at either end. *)
Theorem sanitizeSegment_keeps_clean (name : string) :
  isClean (chars name) = true → sanitizeSegment name = name.
Proof.
  intros H. unfold sanitizeSegment. rewrite sanitizeChars_clean by done.
  apply String.string_of_list_ascii_of_string.
Qed.

(** X9.  The sanitizer settles after two passes, and after one when the cap
    does not cut: sanitizing a sanitized name only removes an underscore
    that the cut at 120 characters left at the end, so a third pass changes
    nothing, and when the name before the cut has at most 120 characters
    the second pass changes nothing either.  (The default naming scheme
    sanitizes the base name twice, in [deriveTranscriptBaseName] and in
    [reserveTranscriptPath].) *)
Theorem sanitizeSegment_settles (segment : string) :
  chars (sanitizeSegment (sanitizeSegment segment))
  = dropWhileEnd isUnderscore (chars (sanitizeSegment segment))
  ∧ sanitizeSegment (sanitizeSegment (sanitizeSegment segment))
    = sanitizeSegment (sanitizeSegment segment)
  ∧ (length (stripped (chars segment)) ≤ 120 →
     sanitizeSegment (sanitizeSegment segment) = sanitizeSegment segment).
Proof.
  unfold sanitizeSegment. rewrite !String.list_ascii_of_string_of_list_ascii.
  destruct (sanitizeChars_again (chars segment)) as [Hagain Hclean].
  split_and!.
  - done.
  - rewrite Hagain. by rewrite (sanitizeChars_clean _ Hclean).
  - intros Hlen. rewrite Hagain. f_equal. apply dropWhileEnd_id.
    destruct (last (sanitizeChars (chars segment))) as [c|] eqn:E; [|done].
    by apply sanitizeChars_last in E.
Qed.

(** The second pass does change a name that the cap cut before an
    underscore. *)
Example sanitizeSegment_twice :
  let segment := str (replicate 119 "a"%char ++ chars " b") in
  sanitizeSegment segment = str (replicate 119 "a"%char ++ chars "_")
  ∧ sanitizeSegment (sanitizeSegment segment) = str (replicate 119 "a"%char).
Proof. by vm_compute. Qed.

(** ** The file names of the default scheme *)

Lemma isDigit_isWord (c : ascii) : isDigit c → isWord c.
Proof.
  destruct c as [[] [] [] [] [] [] [] []]; vm_compute; intros H;
    try exact I; destruct H.
Qed.

Lemma numeral_word n l : numeral n l → Forall isWord l.
Proof. intros [_ H]. eapply Forall_impl; [exact H|]. apply isDigit_isWord. Qed.

Lemma timestampSlug_word date :
  validDate date →
  Forall isWord (chars (timestampSlug date)) ∧ length (chars (timestampSlug date)) = 19.
Proof.
  intros (yyyy & mm & dd & hh & mi & ss & ms & -> & Hy & Hmo & Hd & Hh & Hmi & Hs & Hms)
    %timestampSlug_shape.
  split.
  - rewrite !Forall_app. split_and!; try by eapply numeral_word.
    all: by repeat constructor.
  - rewrite !length_app.
    destruct Hy as [-> _], Hmo as [-> _], Hd as [-> _], Hh as [-> _],
      Hmi as [-> _], Hs as [-> _], Hms as [-> _]. done.
Qed.

Lemma suffix_word i :
  (2 ≤ i ≤ 10000)%Z → Forall isWord (ofZ i) ∧ length (ofZ i) ≤ 5.
Proof.
  intros Hi. split.
  - eapply Forall_impl; [apply ofZ_digits; lia|]. apply isDigit_isWord.
  - unfold ofZ. destruct (Z.ltb_spec i 0); [lia|].
    apply (decimalGo_length_le _ _ 4); [lia|]. simpl. lia.
Qed.

(** X10.  Every path reserved by the default scheme is a well-formed file
    name under the transcripts directory: with a clock in the years 1000 to
    9999, the name consists of characters of [[A-Za-z0-9._-]] only (so no
    separator) and has at most 153 characters: the base of at most 120,
    the slug of 19, a suffix of at most 7 and the extension. *)
Theorem default_name_shape (w : World) (options : ReserveOptions) (p : string) :
  validDate (now w) →
  truthy (saveAs options) = None →
  reserveTranscriptPath w options = Ok p →
  ∃ file,
    p = join (dirPath w) file
    ∧ Forall isWord (chars file)
    ∧ length (chars file) ≤ 153
    ∧ Schemas.saveAsIssue (Some file) = false.
Proof.
  intros Hdate Hs Hr.
  pose proof (reserve_default w options Hs) as Hd. cbv zeta in Hd. rewrite Hr in Hd.
  destruct Hd as (j & Hj & -> & _).
  destruct (timestampSlug_word _ Hdate) as [Hsw Hsl].
  pose proof (sanitizeChars_word (chars (baseName options))) as Hbw.
  pose proof (sanitizeChars_length (chars (baseName options))) as Hbl.
  assert (Forall isWord (chars (extensionName (extension options)))
          ∧ length (chars (extensionName (extension options))) ≤ 4) as [Hew Hel].
  { destruct (extension options); split; simpl; try lia; by repeat constructor. }
  unfold candidate. destruct (Z.leb_spec j 1).
  - eexists. split; [done|].
    assert (Forall isWord (chars (sanitizeSegment (baseName options) +:+ "__" +:+
              timestampSlug (now w) +:+ "." +:+ extensionName (extension options)))
            ∧ length (chars (sanitizeSegment (baseName options) +:+ "__" +:+
              timestampSlug (now w) +:+ "." +:+ extensionName (extension options))) ≤ 153)
      as [Hfw Hfl].
    { rewrite !chars_app. unfold sanitizeSegment.
      rewrite String.list_ascii_of_string_of_list_ascii.
      split.
      - rewrite !Forall_app. split_and!; try done; by repeat constructor.
      - rewrite !length_app, Hsl. simpl. lia. }
    split_and!; [done..|].
    rewrite <- (String.string_of_list_ascii_of_string (_ +:+ _)). by apply word_bare.
  - destruct (suffix_word j ltac:(lia)) as [Hiw Hil].
    eexists. split; [done|].
    assert (Forall isWord (chars (sanitizeSegment (baseName options) +:+ "__" +:+
              timestampSlug (now w) +:+ "__" +:+ str (ofZ j) +:+ "." +:+
              extensionName (extension options)))
            ∧ length (chars (sanitizeSegment (baseName options) +:+ "__" +:+
              timestampSlug (now w) +:+ "__" +:+ str (ofZ j) +:+ "." +:+
              extensionName (extension options))) ≤ 153)
      as [Hfw Hfl].
    { rewrite !chars_app. unfold sanitizeSegment.
      rewrite !String.list_ascii_of_string_of_list_ascii.
      split.
      - rewrite !Forall_app. split_and!; try done; by repeat constructor.
      - rewrite !length_app, Hsl. simpl. lia. }
    split_and!; [done..|].
    rewrite <- (String.string_of_list_ascii_of_string (_ +:+ _)). by apply word_bare.
Qed.


(** X8 for the name of the test of [autoSave.test.ts]. *)
Lemma sanitizeSegment_keeps_clean_witness :
  sanitizeSegment "episode_S01E04.txt" = "episode_S01E04.txt".
Proof. apply sanitizeSegment_keeps_clean. reflexivity. Defined.

Definition noonDate : Date :=
  {| UTCFullYear := 2026; UTCMonth := 0; UTCDate := 5; UTCHours := 13;
     UTCMinutes := 4; UTCSeconds := 59; UTCMilliseconds := 7 |}.

(** X10 in an empty directory. *)
Lemma default_name_shape_witness :
  ∃ file,
    "/srv/stt/transcripts/audio__20260105T130459007Z.txt"
    = join (dirPath {| cwd := "/srv/stt"; now := noonDate; files := ∅ |}) file
    ∧ Forall isWord (chars file)
    ∧ length (chars file) ≤ 153
    ∧ Schemas.saveAsIssue (Some file) = false.
Proof.
  apply (default_name_shape {| cwd := "/srv/stt"; now := noonDate; files := ∅ |}
           {| baseName := "audio"; extension := txt; saveAs := None |}).
  - unfold validDate. simpl. lia.
  - reflexivity.
  - reflexivity.
Defined.


End Transcripts.

(** * The platform: [JSON]

    JSON values, [JSON.stringify(value, null, 2)] and [JSON.parse].  A number
    is kept as a decimal [mantissa * 10 ^ exponent], exactly as its literal
    gives it; an object is the list of its members in order, a later member
    hiding an earlier one of the same key. *)

Module Json.
Import Js.

#[warnings="-register-all"]
Inductive value :=
| Null
| Bool (b : bool)
| Number (mantissa exponent : Z)
| Str (s : string)
| Array (elements : list value)
| Object (members : list (string * value)).

Definition dq : ascii := "034".
Definition bs : ascii := "\".
Definition nl : ascii := "010".

(** ** Reading a value *)

(** [o[key]] on the members of an object. *)
Definition member (key : string) (members : list (string * value)) : option value :=
  foldl (λ found kv, if decide (kv.1 = key) then Some kv.2 else found) None members.

(** [v[key]]: [None] is [undefined].  Only objects have members that a
    parsed document can name. *)
Definition get (key : string) (v : value) : option value :=
  match v with
  | Object members => member key members
  | _ => None
  end.

(** A truthy value. *)
Definition truthy (v : value) : bool :=
  match v with
  | Null | Bool false => false
  | Number mantissa _ => negb (mantissa =? 0)%Z
  | Str s => negb (bool_decide (s = ""))
  | _ => true
  end.

(** [o[key] = v] *)
Fixpoint set (key : string) (v : value) (members : list (string * value))
  : list (string * value) :=
  match members with
  | [] => [(key, v)]
  | (k, old) :: rest =>
      if decide (k = key) then (k, v) :: rest else (k, old) :: set key v rest
  end.

(** ** [JSON.stringify(value, null, 2)] *)

Definition hexDigit (n : nat) : ascii :=
  if Nat.ltb n 10 then ascii_of_nat (48 + n) else ascii_of_nat (87 + n).

Definition escape (c : ascii) : list ascii :=
  if Ascii.eqb c dq then [bs; dq]
  else if Ascii.eqb c bs then [bs; bs]
  else if Nat.ltb (code c) 32 then
    if Nat.eqb (code c) 8 then [bs; "b"%char]
    else if Nat.eqb (code c) 9 then [bs; "t"%char]
    else if Nat.eqb (code c) 10 then [bs; "n"%char]
    else if Nat.eqb (code c) 12 then [bs; "f"%char]
    else if Nat.eqb (code c) 13 then [bs; "r"%char]
    else [bs; "u"%char; "0"%char; "0"%char;
          hexDigit (code c / 16); hexDigit (code c mod 16)]
  else [c].

Definition quote (s : list ascii) : list ascii :=
  dq :: flat_map escape s ++ [dq].

Definition printNumber (mantissa exponent : Z) : list ascii :=
  ofZ mantissa ++ (if (exponent =? 0)%Z then [] else "e"%char :: ofZ exponent).

Definition indent (depth : nat) : list ascii := replicate (2 * depth) " "%char.

(** The items after the first of an array or an object, and the closing
    bracket. *)
Definition printList {A} (item : A → list ascii) (depth : nat) (close : ascii)
  : list A → list ascii :=
  fix more (l : list A) : list ascii :=
    match l with
    | [] => nl :: indent depth ++ [close]
    | y :: l' => ","%char :: nl :: indent (S depth) ++ item y ++ more l'
    end.

Definition printMember (item : value → list ascii) (kv : string * value)
  : list ascii :=
  quote (chars kv.1) ++ chars ": " ++ item kv.2.

Fixpoint print (depth : nat) (v : value) : list ascii :=
  match v with
  | Null => chars "null"
  | Bool true => chars "true"
  | Bool false => chars "false"
  | Number mantissa exponent => printNumber mantissa exponent
  | Str s => quote (chars s)
  | Array [] => chars "[]"
  | Array (x :: xs) =>
      "["%char :: nl :: indent (S depth) ++ print (S depth) x ++
      printList (print (S depth)) depth "]" xs
  | Object [] => chars "{}"
  | Object (m :: ms) =>
      "{"%char :: nl :: indent (S depth) ++ printMember (print (S depth)) m ++
      printList (printMember (print (S depth))) depth "}" ms
  end.

Definition stringify (v : value) : string := str (print 0 v).

(** ** [JSON.parse] *)

Definition isWs (c : ascii) : bool :=
  Nat.eqb (code c) 32 || Nat.eqb (code c) 9 || Nat.eqb (code c) 10 ||
  Nat.eqb (code c) 13.

Definition hexValue (c : ascii) : option nat :=
  if isDigit c then Some (code c - 48)
  else if between 97 102 c then Some (code c - 87)
  else if between 65 70 c then Some (code c - 55)
  else None.

(** The character an escape [\e] stands for, [\u] apart. *)
Definition unescape (e : ascii) : option ascii :=
  if Ascii.eqb e dq then Some dq
  else if Ascii.eqb e bs then Some bs
  else if Ascii.eqb e "/" then Some "/"%char
  else if Ascii.eqb e "b" then Some "008"%char
  else if Ascii.eqb e "t" then Some "009"%char
  else if Ascii.eqb e "n" then Some "010"%char
  else if Ascii.eqb e "f" then Some "012"%char
  else if Ascii.eqb e "r" then Some "013"%char
  else None.

(** The characters of a string literal after its opening quote, and what
    follows its closing quote.  An escape [\uXXXX] of a code unit above 255
    has no character here: the text is then taken as not parseable. *)
Fixpoint parseChars (s : list ascii) : option (list ascii * list ascii) :=
  match s with
  | [] => None
  | c :: s1 =>
      if Ascii.eqb c dq then Some ([], s1)
      else if Ascii.eqb c bs then
        match s1 with
        | [] => None
        | e :: s2 =>
            if Ascii.eqb e "u" then
              match s2 with
              | h1 :: h2 :: h3 :: h4 :: s3 =>
                  match hexValue h1, hexValue h2, hexValue h3, hexValue h4 with
                  | Some n1, Some n2, Some n3, Some n4 =>
                      let n := ((n1 * 16 + n2) * 16 + n3) * 16 + n4 in
                      if Nat.ltb n 256 then
                        match parseChars s3 with
                        | Some (t, r) => Some (ascii_of_nat n :: t, r)
                        | None => None
                        end
                      else None
                  | _, _, _, _ => None
                  end
              | _ => None
              end
            else
              match unescape e with
              | Some c' =>
                  match parseChars s2 with
                  | Some (t, r) => Some (c' :: t, r)
                  | None => None
                  end
              | None => None
              end
        end
      else if Nat.ltb (code c) 32 then None
      else
        match parseChars s1 with
        | Some (t, r) => Some (c :: t, r)
        | None => None
        end
  end.

Definition digitsValue (ds : list ascii) : Z :=
  foldl (λ acc c, acc * 10 + (Z.of_nat (code c) - 48))%Z 0%Z ds.

(** A leading [-]. *)
Definition parseSign (s : list ascii) : bool * list ascii :=
  match s with
  | c :: s' => if Ascii.eqb c "-" then (true, s') else (false, s)
  | [] => (false, s)
  end.

(** The digits of a fraction, when a dot is next. *)
Definition parseFraction (s : list ascii) : option (list ascii) * list ascii :=
  match s with
  | c :: s' =>
      if Ascii.eqb c "." then (Some (takeWhile isDigit s'), dropWhile isDigit s')
      else (None, s)
  | [] => (None, s)
  end.

(** The sign and digits of an exponent, when [e] or [E] is next. *)
Definition parseExponent (s : list ascii) : option (bool * list ascii) * list ascii :=
  match s with
  | c :: s' =>
      if Ascii.eqb c "e" || Ascii.eqb c "E" then
        let '(negative, s'') :=
          match s' with
          | d :: t =>
              if Ascii.eqb d "+" then (false, t)
              else if Ascii.eqb d "-" then (true, t)
              else (false, s')
          | [] => (false, s')
          end in
        (Some (negative, takeWhile isDigit s''), dropWhile isDigit s'')
      else (None, s)
  | [] => (None, s)
  end.

Definition leadingZero (ds : list ascii) : bool :=
  match ds with
  | c :: _ :: _ => Ascii.eqb c "0"
  | _ => false
  end.

Definition signed (negative : bool) (n : Z) : Z := if negative then (- n)%Z else n.

Definition parseNumber (s : list ascii) : option (Z * Z * list ascii) :=
  let '(negative, s1) := parseSign s in
  let ints := takeWhile isDigit s1 in
  if negb (nonEmpty ints) || leadingZero ints then None else
  let '(fraction, s3) := parseFraction (dropWhile isDigit s1) in
  match fraction with
  | Some [] => None
  | _ =>
      let fracs := default [] fraction in
      let '(exponent, s4) := parseExponent s3 in
      match exponent with
      | Some (_, []) => None
      | _ =>
          let e := match exponent with
                   | Some (neg, ds) => signed neg (digitsValue ds)
                   | None => 0%Z
                   end in
          Some (signed negative (digitsValue (ints ++ fracs)),
                (e - Z.of_nat (length fracs))%Z, s4)
      end
  end.

Definition skipWs (s : list ascii) : list ascii := dropWhile isWs s.

(** [s] starts with the characters of [word]. *)
Fixpoint stripPrefix (word s : list ascii) : option (list ascii) :=
  match word, s with
  | [], _ => Some s
  | w :: word', c :: s' => if Ascii.eqb w c then stripPrefix word' s' else None
  | _ :: _, [] => None
  end.

Definition keyword (word : string) (v : value) (s : list ascii)
  : option (value * list ascii) :=
  (λ r, (v, r)) <$> stripPrefix (chars word) s.

Fixpoint parseValue (fuel : nat) (s : list ascii) : option (value * list ascii) :=
  match fuel with
  | O => None
  | S fuel' =>
      match skipWs s with
      | [] => None
      | c :: s1 =>
          if Ascii.eqb c "[" then
            match skipWs s1 with
            | d :: s2 =>
                if Ascii.eqb d "]" then Some (Array [], s2)
                else (λ r, (Array r.1, r.2)) <$> parseElements fuel' s1
            | [] => None
            end
          else if Ascii.eqb c "{" then
            match skipWs s1 with
            | d :: s2 =>
                if Ascii.eqb d "}" then Some (Object [], s2)
                else (λ r, (Object r.1, r.2)) <$> parseMembers fuel' s1
            | [] => None
            end
          else if Ascii.eqb c dq then
            (λ r, (Str (str r.1), r.2)) <$> parseChars s1
          else if Ascii.eqb c "n" then keyword "ull" Null s1
          else if Ascii.eqb c "t" then keyword "rue" (Bool true) s1
          else if Ascii.eqb c "f" then keyword "alse" (Bool false) s1
          else (λ r, (Number r.1.1 r.1.2, r.2)) <$> parseNumber (c :: s1)
      end
  end
with parseElements (fuel : nat) (s : list ascii) : option (list value * list ascii) :=
  match fuel with
  | O => None
  | S fuel' =>
      match parseValue fuel' s with
      | None => None
      | Some (v, r) =>
          match skipWs r with
          | c :: r' =>
              if Ascii.eqb c "," then
                (λ more, (v :: more.1, more.2)) <$> parseElements fuel' r'
              else if Ascii.eqb c "]" then Some ([v], r')
              else None
          | [] => None
          end
      end
  end
with parseMembers (fuel : nat) (s : list ascii)
  : option (list (string * value) * list ascii) :=
  match fuel with
  | O => None
  | S fuel' =>
      match skipWs s with
      | q :: s1 =>
          if Ascii.eqb q dq then
            match parseChars s1 with
            | None => None
            | Some (k, s2) =>
                match skipWs s2 with
                | colon :: s3 =>
                    if Ascii.eqb colon ":" then
                      match parseValue fuel' s3 with
                      | None => None
                      | Some (v, r) =>
                          match skipWs r with
                          | c :: r' =>
                              if Ascii.eqb c "," then
                                (λ more, ((str k, v) :: more.1, more.2)) <$>
                                  parseMembers fuel' r'
                              else if Ascii.eqb c "}" then Some ([(str k, v)], r')
                              else None
                          | [] => None
                          end
                      end
                    else None
                | [] => None
                end
            end
          else None
      | [] => None
      end
  end.

(** [JSON.parse(text)]: [None] when it throws. *)
Definition parse (text : string) : option value :=
  match parseValue (S (length (chars text))) (chars text) with
  | Some (v, r) => if nonEmpty (skipWs r) then None else Some v
  | None => None
  end.

(** ** The fuel of the parser

    The parser consumes a character in every call, so the length of the
    text bounds its depth: a result reached with some fuel is the result
    [parse] reaches. *)

Lemma dropWhile_length p l : length (dropWhile p l) ≤ length l.
Proof. induction l as [|c l IH]; simpl; [lia|]. destruct (p c); simpl; lia. Qed.

Lemma takeWhile_dropWhile_length p l :
  length (takeWhile p l) + length (dropWhile p l) = length l.
Proof. induction l as [|c l IH]; simpl; [lia|]. destruct (p c); simpl; lia. Qed.

Lemma skipWs_length s : length (skipWs s) ≤ length s.
Proof. apply dropWhile_length. Qed.

Lemma stripPrefix_length word s r : stripPrefix word s = Some r → length r ≤ length s.
Proof.
  revert s. induction word as [|w word IH]; intros [|c s] H; simplify_eq/=; try lia.
  destruct (Ascii.eqb w c); [|done]. apply IH in H. lia.
Qed.

Lemma parseChars_length s : ∀ t r, parseChars s = Some (t, r) → length r < length s.
Proof.
  induction s as [s IH] using (induction_ltof1 _ (@length ascii)). unfold ltof in IH.
  intros t r H. destruct s as [|c s1]; [done|]. cbn [parseChars] in H.
  destruct (Ascii.eqb c dq). { injection H as _ <-. simpl. lia. }
  destruct (Ascii.eqb c bs).
  - destruct s1 as [|e s2]; [done|].
    destruct (Ascii.eqb e "u").
    + destruct s2 as [|h1 [|h2 [|h3 [|h4 s3]]]]; try done.
      destruct (hexValue h1), (hexValue h2), (hexValue h3), (hexValue h4); try done.
      destruct (Nat.ltb _ _); [|done].
      destruct (parseChars s3) as [[t' r']|] eqn:E; [|done].
      injection H as _ <-. apply IH in E; simpl in *; lia.
    + destruct (unescape e); [|done].
      destruct (parseChars s2) as [[t' r']|] eqn:E; [|done].
      injection H as _ <-. apply IH in E; simpl in *; lia.
  - destruct (Nat.ltb _ _); [done|].
    destruct (parseChars s1) as [[t' r']|] eqn:E; [|done].
    injection H as _ <-. apply IH in E; simpl in *; lia.
Qed.

Lemma parseNumber_length s m e r : parseNumber s = Some (m, e, r) → length r < length s.
Proof.
  unfold parseNumber.
  assert (length (parseSign s).2 ≤ length s) as Hsign.
  { destruct s as [|c s']; [done|]. simpl. destruct (Ascii.eqb c "-"); simpl; lia. }
  destruct (parseSign s) as [negative s1]. cbn [snd] in Hsign.
  pose proof (takeWhile_dropWhile_length isDigit s1) as Hints.
  destruct (takeWhile isDigit s1) as [|d ds] eqn:Ed; [done|].
  cbn [nonEmpty negb orb]. destruct (leadingZero _); [done|].
  set (s2 := dropWhile isDigit s1) in *.
  assert (length (parseFraction s2).2 ≤ length s2) as Hfrac.
  { destruct s2 as [|c s']; [done|]. simpl. destruct (Ascii.eqb c "."); simpl; [|lia].
    pose proof (dropWhile_length isDigit s'). lia. }
  destruct (parseFraction s2) as [fraction s3]. cbn [snd] in Hfrac.
  assert (length (parseExponent s3).2 ≤ length s3) as Hexp.
  { destruct s3 as [|c s']; [done|]. simpl.
    destruct (Ascii.eqb c "e" || Ascii.eqb c "E"); simpl; [|lia].
    destruct s' as [|x t]; [simpl; lia|].
    destruct (Ascii.eqb x "+"); [|destruct (Ascii.eqb x "-")]; simpl.
    - pose proof (dropWhile_length isDigit t). lia.
    - pose proof (dropWhile_length isDigit t). lia.
    - pose proof (dropWhile_length isDigit (x :: t)). simpl in *. lia. }
  destruct (parseExponent s3) as [exponent s4]. cbn [snd] in Hexp.
  intros H.
  assert (r = s4) as ->.
  { destruct fraction as [[|]|]; try done; destruct exponent as [[? [|]]|]; try done;
      by injection H. }
  simpl in *. lia.
Qed.

Lemma parseValue_fuel fuel :
  (∀ s v r, parseValue fuel s = Some (v, r) →
     length r < length s ∧
     ∀ fuel', length s - length r ≤ fuel' → parseValue fuel' s = Some (v, r))
  ∧ (∀ s l r, parseElements fuel s = Some (l, r) →
     length r < length s ∧
     ∀ fuel', length s - length r ≤ fuel' → parseElements fuel' s = Some (l, r))
  ∧ (∀ s ms r, parseMembers fuel s = Some (ms, r) →
     length r < length s ∧
     ∀ fuel', length s - length r ≤ fuel' → parseMembers fuel' s = Some (ms, r)).
Proof.
  induction fuel as [|fuel (IHV & IHE & IHM)]; [by split_and!|].
  split_and!.
  - intros s v r H. cbn [parseValue] in H.
    pose proof (skipWs_length s) as Hs.
    destruct (skipWs s) as [|c s1] eqn:Es; [done|]. cbn [length] in Hs.
    destruct (Ascii.eqb c "[") eqn:E1.
    { pose proof (skipWs_length s1) as Hs1.
      destruct (skipWs s1) as [|d s2] eqn:Es1; [done|]. cbn [length] in Hs1.
      destruct (Ascii.eqb d "]") eqn:E2.
      - injection H as <- <-. split; [lia|].
        intros [|fuel'] Hf; [lia|]. cbn [parseValue]. by rewrite Es, E1, Es1, E2.
      - destruct (parseElements fuel s1) as [[l r']|] eqn:HE; [|done].
        injection H as <- <-. destruct (IHE _ _ _ HE) as [Hl Hfuel].
        split; [lia|].
        intros [|fuel'] Hf; [lia|]. cbn [parseValue].
        rewrite Es, E1, Es1, E2, Hfuel by lia. done. }
    destruct (Ascii.eqb c "{") eqn:E2.
    { pose proof (skipWs_length s1) as Hs1.
      destruct (skipWs s1) as [|d s2] eqn:Es1; [done|]. cbn [length] in Hs1.
      destruct (Ascii.eqb d "}") eqn:E3.
      - injection H as <- <-. split; [lia|].
        intros [|fuel'] Hf; [lia|]. cbn [parseValue]. by rewrite Es, E1, E2, Es1, E3.
      - destruct (parseMembers fuel s1) as [[l r']|] eqn:HM; [|done].
        injection H as <- <-. destruct (IHM _ _ _ HM) as [Hl Hfuel].
        split; [lia|].
        intros [|fuel'] Hf; [lia|]. cbn [parseValue].
        rewrite Es, E1, E2, Es1, E3, Hfuel by lia. done. }
    assert (length r < S (length s1)) as Hr.
    { destruct (Ascii.eqb c dq).
      { destruct (parseChars s1) as [[t r']|] eqn:E; [|done].
        injection H as _ <-. apply parseChars_length in E. lia. }
      unfold keyword in H.
      destruct (Ascii.eqb c "n").
      { destruct (stripPrefix _ s1) as [r'|] eqn:E; [|done].
        injection H as _ <-. apply stripPrefix_length in E. lia. }
      destruct (Ascii.eqb c "t").
      { destruct (stripPrefix _ s1) as [r'|] eqn:E; [|done].
        injection H as _ <-. apply stripPrefix_length in E. lia. }
      destruct (Ascii.eqb c "f").
      { destruct (stripPrefix _ s1) as [r'|] eqn:E; [|done].
        injection H as _ <-. apply stripPrefix_length in E. lia. }
      destruct (parseNumber (c :: s1)) as [[[m e] r']|] eqn:E; [|done].
      injection H as _ <-. apply parseNumber_length in E. simpl in E. lia. }
    split; [lia|].
    intros [|fuel'] Hf; [lia|]. cbn [parseValue]. by rewrite Es, E1, E2.
  - intros s l r H. cbn [parseElements] in H.
    destruct (parseValue fuel s) as [[v r1]|] eqn:HV; [|done].
    destruct (IHV _ _ _ HV) as [Hl Hfuel].
    pose proof (skipWs_length r1) as Hs1.
    destruct (skipWs r1) as [|c r'] eqn:Es1; [done|]. cbn [length] in Hs1.
    destruct (Ascii.eqb c ",") eqn:E1.
    + destruct (parseElements fuel r') as [[more r2]|] eqn:HE; [|done].
      injection H as <- <-. destruct (IHE _ _ _ HE) as [Hl' Hfuel'].
      split; [lia|].
      intros [|fuel'] Hf; [lia|]. cbn [parseElements].
      rewrite Hfuel, Es1, E1, Hfuel' by lia. done.
    + destruct (Ascii.eqb c "]") eqn:E2; [|done].
      injection H as <- <-. split; [lia|].
      intros [|fuel'] Hf; [lia|]. cbn [parseElements].
      rewrite Hfuel, Es1, E1, E2 by lia. done.
  - intros s ms r H. cbn [parseMembers] in H.
    pose proof (skipWs_length s) as Hs.
    destruct (skipWs s) as [|q s1] eqn:Es; [done|]. cbn [length] in Hs.
    destruct (Ascii.eqb q dq) eqn:Eq; [|done].
    destruct (parseChars s1) as [[k s2]|] eqn:Ek; [|done].
    pose proof (parseChars_length _ _ _ Ek) as Hk.
    pose proof (skipWs_length s2) as Hs2.
    destruct (skipWs s2) as [|colon s3] eqn:Es2; [done|]. cbn [length] in Hs2.
    destruct (Ascii.eqb colon ":") eqn:Ec; [|done].
    destruct (parseValue fuel s3) as [[v r1]|] eqn:HV; [|done].
    destruct (IHV _ _ _ HV) as [Hl Hfuel].
    pose proof (skipWs_length r1) as Hs1.
    destruct (skipWs r1) as [|c r'] eqn:Es1; [done|]. cbn [length] in Hs1.
    destruct (Ascii.eqb c ",") eqn:E1.
    + destruct (parseMembers fuel r') as [[more r2]|] eqn:HM; [|done].
      injection H as <- <-. destruct (IHM _ _ _ HM) as [Hl' Hfuel'].
      split; [lia|].
      intros [|fuel'] Hf; [lia|]. cbn [parseMembers].
      rewrite Es, Eq, Ek, Es2, Ec, Hfuel, Es1, E1, Hfuel' by lia. done.
    + destruct (Ascii.eqb c "}") eqn:E2; [|done].
      injection H as <- <-. split; [lia|].
      intros [|fuel'] Hf; [lia|]. cbn [parseMembers].
      rewrite Es, Eq, Ek, Es2, Ec, Hfuel, Es1, E1, E2 by lia. done.
Qed.

(** [parse] does not depend on the fuel it gives the parser. *)
Lemma parse_fuel text v :
  parse text = Some v ↔
  ∃ fuel r, parseValue fuel (chars text) = Some (v, r) ∧ skipWs r = [].
Proof.
  unfold parse. split.
  - destruct (parseValue _ _) as [[v' r]|] eqn:E; [|done].
    destruct (skipWs r) eqn:Er; [|done]. intros [= <-]. eauto.
  - intros (fuel & r & H & Hr).
    destruct (parseValue_fuel fuel) as [HV _]. destruct (HV _ _ _ H) as [_ Hfuel].
    rewrite Hfuel by lia. by rewrite Hr.
Qed.

(** ** Strings read back *)



(** ** Numbers read back *)


Lemma takeWhile_app (p : ascii → bool) (l rest : list ascii) :
  Forall p l → from_option (negb ∘ p) true (head rest) →
  takeWhile p (l ++ rest) = l ∧ dropWhile p (l ++ rest) = rest.
Proof.
  intros Hl Hrest. induction Hl as [|c l Hc _ [IH1 IH2]]; simpl.
  - destruct rest as [|d rest]; [done|]. simpl in *.
    by destruct (p d).
  - apply Is_true_true in Hc. by rewrite Hc, IH1, IH2.
Qed.

Lemma digitsValue_snoc l c :
  digitsValue (l ++ [c]) = (digitsValue l * 10 + (Z.of_nat (code c) - 48))%Z.
Proof. unfold digitsValue. by rewrite foldl_snoc. Qed.

Lemma code_digit n : (0 ≤ n < 10)%Z → (Z.of_nat (code (digit n)) - 48 = n)%Z.
Proof.
  intros H.
  assert (n ∈ [0; 1; 2; 3; 4; 5; 6; 7; 8; 9]%Z) as Hn
    by (rewrite !elem_of_cons; lia).
  rewrite !elem_of_cons, elem_of_nil in Hn.
  destruct_or!; by subst.
Qed.

Lemma digitsValue_decimalGo fuel n :
  (0 ≤ n < 2 ^ Z.of_nat fuel)%Z → digitsValue (decimalGo fuel n) = n.
Proof.
  revert n. induction fuel as [|fuel IH]; intros n Hn.
  { change (2 ^ Z.of_nat 0)%Z with 1%Z in Hn. simpl.
    unfold digitsValue. simpl. lia. }
  rewrite decimalGo_S. destruct (Z.ltb_spec n 10).
  - unfold digitsValue. simpl. rewrite code_digit; lia.
  - rewrite digitsValue_snoc, IH, code_digit.
    + pose proof (Z.div_mod n 10). lia.
    + by apply Z.mod_pos_bound.
    + rewrite Nat2Z.inj_succ, Z.pow_succ_r in Hn by lia.
      split; [apply Z.div_pos; lia|]. apply Z.div_lt_upper_bound; lia.
Qed.

Lemma decimalGo_head fuel n :
  (0 < n < 2 ^ Z.of_nat (S fuel))%Z →
  ∃ c t, decimalGo (S fuel) n = c :: t ∧ Ascii.eqb c "0" = false.
Proof.
  revert n. induction fuel as [|fuel IH]; intros n Hn; rewrite decimalGo_S;
    destruct (Z.ltb_spec n 10) as [Hlt|Hge].
  - exists (digit n), []. split; [done|].
    assert (n ∈ [1; 2; 3; 4; 5; 6; 7; 8; 9]%Z) as Hd
      by (rewrite !elem_of_cons; lia).
    rewrite !elem_of_cons, elem_of_nil in Hd. destruct_or!; by subst.
  - change (2 ^ Z.of_nat 1)%Z with 2%Z in Hn. lia.
  - exists (digit n), []. split; [done|].
    assert (n ∈ [1; 2; 3; 4; 5; 6; 7; 8; 9]%Z) as Hd
      by (rewrite !elem_of_cons; lia).
    rewrite !elem_of_cons, elem_of_nil in Hd. destruct_or!; by subst.
  - destruct (IH (n / 10)%Z) as (c & t & -> & Hc).
    + rewrite (Nat2Z.inj_succ (S fuel)), Z.pow_succ_r in Hn by lia.
      split; [apply Z.div_str_pos; lia|]. apply Z.div_lt_upper_bound; lia.
    + by exists c, (t ++ [digit (n `mod` 10)]).
Qed.

(** The numeral of a natural number: digits, at least one, no needless
    leading zero, and the number as their value. *)
Lemma decimal_spec n :
  (0 ≤ n)%Z →
  Forall isDigit (decimal n) ∧ nonEmpty (decimal n) = true ∧
  leadingZero (decimal n) = false ∧ digitsValue (decimal n) = n.
Proof.
  intros Hn. pose proof (decimal_fuel n Hn) as Hfuel. unfold decimal.
  split_and!.
  - by apply decimalGo_digits.
  - rewrite decimalGo_S. destruct (n <? 10)%Z; [done|].
    by destruct (decimalGo _ _).
  - destruct (decide (n = 0%Z)) as [->|Hne]; [done|].
    destruct (decimalGo_head (Z.to_nat (Z.log2 n)) n) as (c & t & -> & Hc); [lia|].
    simpl. destruct t; [done|]. done.
  - by apply digitsValue_decimalGo.
Qed.

Lemma digit_start (c : ascii) :
  isDigit c →
  Ascii.eqb c "-" = false ∧ Ascii.eqb c "+" = false ∧ Ascii.eqb c "." = false ∧
  Ascii.eqb c "e" = false ∧ Ascii.eqb c "E" = false.
Proof.
  intros H. split_and!; apply Ascii.eqb_neq; intros ->; by vm_compute in H.
Qed.




(** ** Values read back *)



















(** ** The printer and the parser on examples *)

Example stringify_example :
  stringify (Object [("n", Number 1 0); ("l", Array [Null; Bool true]); ("e", Array [])])
  = str (chars "{" ++ [nl] ++
         chars "  " ++ [dq] ++ chars "n" ++ [dq] ++ chars ": 1," ++ [nl] ++
         chars "  " ++ [dq] ++ chars "l" ++ [dq] ++ chars ": [" ++ [nl] ++
         chars "    null," ++ [nl] ++
         chars "    true" ++ [nl] ++
         chars "  ]," ++ [nl] ++
         chars "  " ++ [dq] ++ chars "e" ++ [dq] ++ chars ": []" ++ [nl] ++
         chars "}").
Proof. by vm_compute. Qed.

Example parse_examples :
  parse "  [1, -2.50e+3, true, null, {}]  "
  = Some (Array [Number 1 0; Number (-250) 1; Bool true; Null; Object []])
  ∧ parse (str ([dq] ++ chars "a" ++ [bs] ++ chars "u0041" ++ [bs] ++ chars "n" ++ [dq]))
    = Some (Str (str (chars "aA" ++ [nl])))
  ∧ parse "" = None
  ∧ parse "hello world" = None
  ∧ parse "01" = None
  ∧ parse "1." = None
  ∧ parse "[1,]" = None
  ∧ parse "[1] 2" = None
  ∧ parse "{a: 1}" = None.
Proof. by vm_compute. Qed.

End Json.

(** * [services/transcripts.ts]: the timestamp slug read back *)

Module Slug.
Import Js Json Transcripts.

Local Open Scope Z_scope.

Lemma digitsValue_zeros (k : nat) l :
  digitsValue (replicate k "0"%char ++ l) = digitsValue l.
Proof. induction k as [|k IH]; [done|]. exact IH. Qed.

Lemma ofZ_value n : 0 ≤ n → digitsValue (ofZ n) = n.
Proof.
  intros Hn. unfold ofZ. destruct (Z.ltb_spec n 0); [lia|].
  by apply decimal_spec.
Qed.

Lemma pad_value n (width : nat) : 0 ≤ n → digitsValue (pad n width) = n.
Proof. intros Hn. unfold pad, padStart. by rewrite digitsValue_zeros, ofZ_value. Qed.

Lemma pad_inj n m (width : nat) : 0 ≤ n → 0 ≤ m → pad n width = pad m width → n = m.
Proof.
  intros Hn Hm H. apply (f_equal digitsValue) in H. by rewrite !pad_value in H.
Qed.

Lemma pad_length n (width : nat) :
  0 ≤ n < 10 ^ Z.of_nat (S width) → length (pad n (S width)) = S width.
Proof. intros H. by apply padStart_digits. Qed.

(** X12.  Two instants never share a slug: on dates in the years 1000 to
    9999, [timestampSlug] is injective, so two default file names with the
    same base and extension coincide only when they are made in the same
    millisecond. *)
Theorem timestampSlug_injective (d1 d2 : Date) :
  validDate d1 → validDate d2 →
  timestampSlug d1 = timestampSlug d2 → d1 = d2.
Proof.
  intros (Hy1 & Hmo1 & Hd1 & Hh1 & Hmi1 & Hs1 & Hms1)
         (Hy2 & Hmo2 & Hd2 & Hh2 & Hmi2 & Hs2 & Hms2) Heq.
  apply (f_equal chars) in Heq. unfold timestampSlug in Heq.
  rewrite !String.list_ascii_of_string_of_list_ascii in Heq.
  apply app_inj_1 in Heq as [Hy Heq];
    [|by rewrite !(ofZ_length _ 3) by (simpl; lia)].
  apply app_inj_1 in Heq as [Hmo Heq];
    [|by rewrite !pad_length by (simpl; lia)].
  apply app_inj_1 in Heq as [Hd Heq];
    [|by rewrite !pad_length by (simpl; lia)].
  apply app_inj_1 in Heq as [_ Heq]; [|done].
  apply app_inj_1 in Heq as [Hh Heq];
    [|by rewrite !pad_length by (simpl; lia)].
  apply app_inj_1 in Heq as [Hmi Heq];
    [|by rewrite !pad_length by (simpl; lia)].
  apply app_inj_1 in Heq as [Hs Heq];
    [|by rewrite !pad_length by (simpl; lia)].
  apply app_inj_1 in Heq as [Hms _];
    [|by rewrite !pad_length by (simpl; lia)].
  apply (f_equal digitsValue) in Hy. rewrite !ofZ_value in Hy by lia.
  apply pad_inj in Hmo, Hd, Hh, Hmi, Hs, Hms; try lia.
  destruct d1, d2. simpl in *. f_equal; lia.
Qed.

(** X12 on one date, and on two dates one millisecond apart, whose slugs
    differ. *)
Lemma timestampSlug_injective_witness :
  noonDate = noonDate
  ∧ timestampSlug noonDate
    ≠ timestampSlug
        {| UTCFullYear := 2026; UTCMonth := 0; UTCDate := 5; UTCHours := 13;
           UTCMinutes := 4; UTCSeconds := 59; UTCMilliseconds := 8 |}.
Proof.
  assert (validDate noonDate) as Hnoon by (unfold validDate; simpl; lia).
  split.
  - exact (timestampSlug_injective noonDate noonDate Hnoon Hnoon eq_refl).
  - intros H. apply timestampSlug_injective in H.
    + discriminate H.
    + exact Hnoon.
    + unfold validDate. simpl. lia.
Defined.

End Slug.

(** * [tools/transcribe.ts] *)

Module Transcribe.
Import Js Node Schemas Json.

Definition NL : string := String nl "".

(** [s.includes(sub)] and [s.endsWith(sub)] *)
Fixpoint includesText (sub s : list ascii) : bool :=
  match s with
  | [] => bool_decide (sub = [])
  | _ :: s' => bool_decide (is_Some (stripPrefix sub s)) || includesText sub s'
  end.

Definition endsWith (sub s : string) : bool :=
  bool_decide (is_Some (stripPrefix (reverse (chars sub)) (reverse (chars s)))).

Definition tryParseJson (text : string) : value := default Null (parse text).

(** [a ?? b] *)
Definition coalesce (a b : value) : value :=
  match a with Null => b | _ => a end.

(** An object literal: a member that is left out is [None]. *)
Definition object (members : list (option (string * value))) : value :=
  Object (omap id members).

Definition always (key : string) (v : value) : option (string * value) :=
  Some (key, v).

Definition whenSome (key : string) (v : option value) : option (string * value) :=
  (λ x, (key, x)) <$> v.

Definition textOf (o : option string) : option value :=
  Str <$> Transcripts.truthy o.

Record Extracted := {
  transcript : option string;
  parsedJson : value
}.

Definition extractTranscript (responseFormat : GroqAudioResponseFormat)
    (rawText : string) (rawJson : value) : Extracted :=
  match responseFormat with
  | TEXT => {| transcript := Some rawText; parsedJson := Null |}
  | _ =>
      let parsedJson := coalesce rawJson (tryParseJson rawText) in
      match (if truthy parsedJson then get "text" parsedJson else None) with
      | Some (Str text) => {| transcript := Some text; parsedJson := parsedJson |}
      | _ => {| transcript := None; parsedJson := parsedJson |}
      end
  end.

(** [transcript ?? rawText], as [transcribeOne] computes it. *)
Definition transcriptTextOf (responseFormat : GroqAudioResponseFormat)
    (rawText : string) (rawJson : value) : string :=
  default rawText (transcript (extractTranscript responseFormat rawText rawJson)).

(** What [transcribeOne] can catch. *)
Inductive Thrown :=
| FileInputError (code message : string) (details : option value)
| HttpError (status : Z) (message : string) (bodyText : string)
| OtherError (message : string).

(** [toErrorMessage(error)] *)
Definition toErrorMessage (e : Thrown) : string :=
  match e with
  | FileInputError _ message _ | HttpError _ message _ | OtherError message => message
  end.

Record Transcription := {
  rawText : string;
  rawJson : value;
  contentType : option string
}.

(** [groqCreateTranscription]: [sourced] tells that the request carries a
    file or a url; without one [makeForm] throws in every attempt, which the
    retry loop treats as a failed attempt. *)
Definition groqCreateTranscription (config : GroqAudio.Config) (sourced : bool)
    (fetch : Z → GroqAudio.fetched) (random : Z → Q)
  : Result Thrown Transcription :=
  let attempt k :=
    if sourced then fetch k
    else GroqAudio.Failed "Invalid transcription request: missing file or url." in
  match (GroqAudio.fetchWithRetry config attempt random).1 with
  | GroqAudio.Throws error => Err (OtherError error)
  | GroqAudio.Returns response =>
      if negb (GroqAudio.ok response) then
        Err (HttpError (GroqAudio.status response)
               ("Groq API error (" +:+ str (ofZ (GroqAudio.status response)) +:+ ").")
               (GroqAudio.bodyText response))
      else
        let json :=
          match GroqAudio.contentType response with
          | Some ct =>
              if includesText (chars "application/json") (chars ct)
              then tryParseJson (GroqAudio.bodyText response) else Null
          | None => Null
          end in
        Ok {| rawText := GroqAudio.bodyText response;
              rawJson := json;
              contentType := GroqAudio.contentType response |}
  end.

Record Artifact := {
  saved_path : string;
  bytes_written : Z;
  format : string;
  mime_type : string
}.

Definition extensionFor (responseFormat : GroqAudioResponseFormat)
  : Transcripts.Extension :=
  match responseFormat with
  | TEXT => Transcripts.txt
  | _ => Transcripts.json
  end.

Definition formatFor (responseFormat : GroqAudioResponseFormat) : string :=
  match responseFormat with TEXT => "text" | _ => "json" end.

Definition mimeFor (responseFormat : GroqAudioResponseFormat) : string :=
  match responseFormat with TEXT => "text/plain" | _ => "application/json" end.

(** The request as [transcribeOne] receives it. *)
Record TranscribeAudioRequest := {
  model : option string;
  language : option string;
  prompt : option string;
  temperature : Z * Z;
  response_format : GroqAudioResponseFormat;
  timestamp_granularities : list TimestampGranularity;
  include_metadata : bool;
  output_format : OutputFormat;
  file_path : option string;
  url : option string;
  save_as : option string
}.

Record ToolResult := {
  contentText : string;
  structured : value;
  isError : bool
}.

Section tool.
Variable config : GroqAudio.Config.
(** [new URL(url)] *)
Variable parseURL : string → option Transcripts.URL.
(** [readAudioFile(filePath)]: the bytes are only passed on, so what
    matters is whether it throws. *)
Variable readAudioFile : string → Result Thrown unit.
(** The metadata built from the parsed body: the segment and word lists and
    their counts. *)
Variable metadataOf : value → value.

(** The document a structured artifact holds. *)
Definition payload (savedAt : Transcripts.Date) (rawText : string) (rawJson : value)
    (transcriptText modelName : string) (request response : value)
    (metadata : option value) : value :=
  let groqResponse := coalesce rawJson (tryParseJson rawText) in
  object [
    always "saved_at" (Str (Transcripts.toISOString savedAt));
    always "model" (Str modelName);
    always "transcript" (Str transcriptText);
    always "request" request;
    always "response" response;
    whenSome "metadata" metadata;
    always "groq_response" groqResponse;
    always "groq_raw_text" (Str rawText)
  ].

Definition artifactContents (savedAt : Transcripts.Date)
    (responseFormat : GroqAudioResponseFormat) (rawText : string) (rawJson : value)
    (transcriptText modelName : string) (request response : value)
    (metadata : option value) : string :=
  match extensionFor responseFormat with
  | Transcripts.txt =>
      transcriptText +:+ (if endsWith NL transcriptText then "" else NL)
  | Transcripts.json =>
      stringify (payload savedAt rawText rawJson transcriptText modelName
                   request response metadata) +:+ NL
  end.

(** The reservation [saveTranscriptArtifact] asks for. *)
Definition reserveFor (w : Transcripts.World) (source : Transcripts.Source)
    (responseFormat : GroqAudioResponseFormat) (saveAs : option string)
  : Result Error string :=
  Transcripts.reserveTranscriptPath w
    {| Transcripts.baseName := Transcripts.deriveTranscriptBaseName parseURL source;
       Transcripts.extension := extensionFor responseFormat;
       Transcripts.saveAs := saveAs |}.

Definition saveTranscriptArtifact (w : Transcripts.World) (savedAt : Transcripts.Date)
    (source : Transcripts.Source) (responseFormat : GroqAudioResponseFormat)
    (rawText : string) (rawJson : value) (transcriptText modelName : string)
    (request response : value) (metadata : option value) (saveAs : option string)
  : Result Error (Artifact * FS) :=
  match reserveFor w source responseFormat saveAs with
  | Err e => Err e
  | Ok outputPath =>
      let contents := artifactContents savedAt responseFormat rawText rawJson
                        transcriptText modelName request response metadata in
      match writeFile_wx (Transcripts.files w) outputPath contents with
      | Err e => Err e
      | Ok files' =>
          Ok ({| saved_path := outputPath;
                 bytes_written := utf8Length contents;
                 format := formatFor responseFormat;
                 mime_type := mimeFor responseFormat |}, files')
      end
  end.

Definition truthySource (params : TranscribeAudioRequest) : Transcripts.Source :=
  {| Transcripts.file_path := Transcripts.truthy (file_path params);
     Transcripts.url := Transcripts.truthy (url params) |}.

Definition requestStructured (params : TranscribeAudioRequest) : value :=
  object [
    whenSome "file_path" (textOf (file_path params));
    whenSome "url" (textOf (url params));
    whenSome "language" (textOf (language params));
    whenSome "prompt" (textOf (prompt params));
    always "temperature" (Number (temperature params).1 (temperature params).2);
    always "response_format" (Str (responseFormatName (response_format params)));
    always "timestamp_granularities"
      (Array ((Str ∘ granularityName) <$> timestamp_granularities params))
  ].

Definition responseStructured (contentType : option string) : value :=
  object [always "content_type" (from_option Str Null contentType)].

(** [typeof v === "object"] for a truthy [v] *)
Definition isObject (v : value) : bool :=
  match v with Array _ | Object _ => true | _ => false end.

(** [baseStructured.metadata], when it is assigned. *)
Definition metadataFor (params : TranscribeAudioRequest) (parsedJson : value)
  : option value :=
  if include_metadata params && truthy parsedJson && isObject parsedJson
  then Some (metadataOf parsedJson) else None.

Definition renderContent (params : TranscribeAudioRequest) (transcriptText : string)
    (baseStructured : value) : string :=
  match output_format params with
  | OutputJson => stringify baseStructured
  | OutputMarkdown =>
      "# Transcription" +:+ NL +:+ NL +:+ transcriptText +:+ NL +:+
      match (if include_metadata params then get "metadata" baseStructured else None) with
      | Some metadata =>
          if truthy metadata then
            NL +:+ "## Metadata" +:+ NL +:+ NL +:+ "```json" +:+ NL +:+
            stringify metadata +:+ NL +:+ "```" +:+ NL
          else ""
      | None => ""
      end
  | OutputText => transcriptText
  end.

(** The part of [transcribeOne] that follows a successful transcription:
    [saved] is what the attempt to save gave. *)
Definition completed (params : TranscribeAudioRequest) (t : Transcription)
    (saved : Result Error Artifact) : ToolResult :=
  let modelName := default "whisper-large-v3-turbo" (model params) in
  let ex := extractTranscript (response_format params) (rawText t) (rawJson t) in
  let transcriptText := default (rawText t) (transcript ex) in
  let base := object [
    always "model" (Str modelName);
    always "transcript" (Str transcriptText);
    always "truncated" (Bool false);
    always "request" (requestStructured params);
    always "response" (responseStructured (contentType t));
    whenSome "metadata" (metadataFor params (parsedJson ex))
  ] in
  let members := match base with Object ms => ms | _ => [] end in
  let members :=
    match saved with
    | Ok artifact =>
        set "bytes_written" (Number (bytes_written artifact) 0)
          (set "saved_path" (Str (saved_path artifact))
             (set "saved_mime_type" (Str (mime_type artifact))
                (set "saved_format" (Str (format artifact))
                   (set "saved" (Bool true) members))))
    | Err error =>
        set "save_error" (Str (message error))
          (set "saved_mime_type" (Str (mimeFor (response_format params)))
             (set "saved_format" (Str (formatFor (response_format params)))
                (set "saved" (Bool false) members)))
    end in
  {| contentText := renderContent params transcriptText (Object members);
     structured := Object members;
     isError := false |}.

(** The result for what the outer [catch] catches. *)
Definition failed (e : Thrown) : ToolResult :=
  match e with
  | FileInputError code message details =>
      {| contentText := "Error: " +:+ message;
         structured := object [always "error" (Str code);
                               always "message" (Str message);
                               whenSome "details" details];
         isError := true |}
  | HttpError status _ bodyText =>
      {| contentText :=
           str (trim (chars ("Error: Groq API request failed (status " +:+
                             str (ofZ status) +:+ "). " +:+ bodyText)));
         structured := object [always "error" (Str "groq_api_error");
                               always "status" (Number status 0);
                               always "body" (Str bodyText)];
         isError := true |}
  | OtherError message =>
      {| contentText := "Error: " +:+ message;
         structured := object [always "error" (Str "unexpected_error");
                               always "message" (Str message)];
         isError := true |}
  end.

(** The input of the request: the file when [file_path] is given, else the
    url. *)
Definition acquire (params : TranscribeAudioRequest) : Result Thrown bool :=
  match file_path params with
  | Some path =>
      match readAudioFile path with
      | Ok _ => Ok true
      | Err e => Err e
      end
  | None => Ok (bool_decide (is_Some (Transcripts.truthy (url params))))
  end.

Definition transcribe (params : TranscribeAudioRequest)
    (fetch : Z → GroqAudio.fetched) (random : Z → Q)
  : Result Thrown Transcription :=
  match acquire params with
  | Err e => Err e
  | Ok sourced => groqCreateTranscription config sourced fetch random
  end.

(** The arguments [transcribeOne] passes to [saveTranscriptArtifact]. *)
Definition saveFor (w : Transcripts.World) (savedAt : Transcripts.Date)
    (params : TranscribeAudioRequest) (t : Transcription)
  : Result Error (Artifact * FS) :=
  let ex := extractTranscript (response_format params) (rawText t) (rawJson t) in
  saveTranscriptArtifact w savedAt (truthySource params) (response_format params)
    (rawText t) (rawJson t) (default (rawText t) (transcript ex))
    (default "whisper-large-v3-turbo" (model params))
    (requestStructured params) (responseStructured (contentType t))
    (if include_metadata params then metadataFor params (parsedJson ex) else None)
    (save_as params).

(** [transcribeOne(apiKey, params)] in a world: the result and the files
    afterwards. *)
Definition transcribeOne (w : Transcripts.World) (savedAt : Transcripts.Date)
    (fetch : Z → GroqAudio.fetched) (random : Z → Q)
    (params : TranscribeAudioRequest) : ToolResult * FS :=
  match transcribe params fetch random with
  | Err e => (failed e, Transcripts.files w)
  | Ok t =>
      match saveFor w savedAt params t with
      | Ok (artifact, files') => (completed params t (Ok artifact), files')
      | Err e => (completed params t (Err e), Transcripts.files w)
      end
  end.

End tool.

(** ** The list results and the summary of [transcribeAudioTool] *)

(** [status] is a number as JSON has it: mantissa and exponent. *)
Record ErrorInfo := {
  code : string;
  errorMessage : string;
  status : option (Z * Z);
  body : option (option string);
  body_truncated : option bool
}.

Inductive ListResult :=
| ListResultSuccess (index : nat) (id : option string)
    (source : Transcripts.Source) (output : value)
| ListResultFailure (index : nat) (id : option string)
    (source : Transcripts.Source) (error : ErrorInfo).

(** [r.ok] *)
Definition ok (r : ListResult) : bool :=
  match r with ListResultSuccess _ _ _ _ => true | ListResultFailure _ _ _ _ => false end.

Definition ERROR_BODY_LIMIT : nat := 4000.

Definition truncateBody (body : option string) : option string * bool :=
  match body with
  | None => (None, false)
  | Some b =>
      if Nat.leb (length (chars b)) ERROR_BODY_LIMIT then (Some b, false)
      else (Some (str (take ERROR_BODY_LIMIT (chars b)) +:+ NL +:+ NL +:+ "[truncated]"),
            true)
  end.

Definition asListFailure (index : nat) (id : option string)
    (source : Transcripts.Source) (result : ToolResult) : ListResult :=
  let code := match get "error" (structured result) with
              | Some (Str s) => s
              | _ => "error"
              end in
  let status := match get "status" (structured result) with
                | Some (Number m e) => Some (m, e)
                | _ => None
                end in
  let message := match get "message" (structured result) with
                 | Some (Str s) => s
                 | _ => contentText result
                 end in
  let rawBody := match get "body" (structured result) with
                 | Some (Str s) => Some (Some s)
                 | Some Null => Some None
                 | _ => None
                 end in
  ListResultFailure index (Transcripts.truthy id) source
    {| code := code;
       errorMessage := message;
       status := match status with
                 | Some (m, e) => if (m =? 0)%Z then None else Some (m, e)
                 | None => None
                 end;
       body := (λ b, (truncateBody b).1) <$> rawBody;
       body_truncated := (λ b, (truncateBody b).2) <$> rawBody |}.

(** The callback [transcribeAudioTool] maps over the items, after
    [transcribeOne] has returned [result]. *)
Definition listResult (index : nat) (id : option string)
    (source : Transcripts.Source) (result : ToolResult) : ListResult :=
  if isError result then asListFailure index id source result
  else ListResultSuccess index (Transcripts.truthy id) source (structured result).

Record Summary := {
  total : nat;
  okCount : nat;
  failedCount : nat
}.

Definition summary (results : list ListResult) : Summary :=
  let n := length (filter ok results) in
  {| total := length results; okCount := n; failedCount := length results - n |}.

(** X18.  [truncateBody] keeps a body of at most 4000 characters as it is
    and cuts a longer one to its first 4000 characters followed by the
    marker; the flag tells which of the two happened, and the result never
    has more than 4013 characters.  No body gives no body. *)
Theorem truncateBody_bound (body : string) :
  let result := truncateBody (Some body) in
  truncateBody None = (None, false)
  ∧ result.2 = negb (Nat.leb (length (chars body)) 4000)
  ∧ (length (chars body) ≤ 4000 → result.1 = Some body)
  ∧ (4000 < length (chars body) →
       result.1 = Some (str (take 4000 (chars body)) +:+ NL +:+ NL +:+ "[truncated]"))
  ∧ ∃ text, result.1 = Some text ∧ length (chars text) ≤ 4013.
Proof.
  unfold truncateBody, ERROR_BODY_LIMIT. cbv zeta.
  destruct (Nat.leb_spec (length (chars body)) 4000) as [Hle|Hgt]; cbn [fst snd negb].
  - split_and!; try done; [intros; lia|]. exists body. split; [done|lia].
  - split_and!; try done; [intros; lia|]. eexists. split; [done|].
    rewrite !chars_app, String.list_ascii_of_string_of_list_ascii.
    rewrite !length_app, length_take.
    change (length (chars NL)) with 1. change (length (chars "[truncated]")) with 11.
    lia.
Qed.

(** ** Saving an artifact *)

Section saving.
Variable parseURL : string → option Transcripts.URL.

Lemma save_Ok w savedAt source responseFormat rawText rawJson transcriptText
    modelName request response metadata saveAs artifact files' :
  saveTranscriptArtifact parseURL w savedAt source responseFormat rawText rawJson
    transcriptText modelName request response metadata saveAs
  = Ok (artifact, files') →
  reserveFor parseURL w source responseFormat saveAs = Ok (saved_path artifact)
  ∧ Transcripts.files w !! saved_path artifact = None
  ∧ files' = <[saved_path artifact :=
                 artifactContents savedAt responseFormat rawText rawJson
                   transcriptText modelName request response metadata]>
               (Transcripts.files w)
  ∧ format artifact = formatFor responseFormat.
Proof.
  unfold saveTranscriptArtifact.
  destruct (reserveFor _ _ _ _ _) as [outputPath|e]; [|done].
  destruct (writeFile_wx _ _ _) as [fs|e] eqn:Hw; [|done].
  intros [= <- <-]. simpl. by apply writeFile_wx_Ok in Hw as [? ->].
Qed.


(** A path that is reserved and free gets written. *)
Lemma save_reserved w savedAt source responseFormat rawText rawJson transcriptText
    modelName request response metadata saveAs outputPath :
  reserveFor parseURL w source responseFormat saveAs = Ok outputPath →
  Transcripts.files w !! outputPath = None →
  ∃ artifact files',
    saveTranscriptArtifact parseURL w savedAt source responseFormat rawText rawJson
      transcriptText modelName request response metadata saveAs
    = Ok (artifact, files') ∧ saved_path artifact = outputPath.
Proof.
  intros Hr Hfree. unfold saveTranscriptArtifact. rewrite Hr.
  unfold writeFile_wx, exists_. rewrite Hfree.
  rewrite bool_decide_eq_false_2 by (by intros [? ?]).
  by eexists _, _.
Qed.











End saving.

(** ** One item *)

Section item.
Variable config : GroqAudio.Config.
Variable parseURL : string → option Transcripts.URL.
Variable readAudioFile : string → Result Thrown unit.
Variable metadataOf : value → value.







(** What [transcribeOne] reports after a transcription that came back. *)
Lemma completed_fields params t saved :
  let r := completed metadataOf params t saved in
  isError r = false
  ∧ get "transcript" (structured r)
    = Some (Str (transcriptTextOf (response_format params) (rawText t) (rawJson t)))
  ∧ match saved with
    | Ok artifact =>
        get "saved" (structured r) = Some (Bool true)
        ∧ get "saved_path" (structured r) = Some (Str (saved_path artifact))
        ∧ get "save_error" (structured r) = None
    | Err e =>
        get "saved" (structured r) = Some (Bool false)
        ∧ get "save_error" (structured r) = Some (Str (message e))
        ∧ get "saved_path" (structured r) = None
    end.
Proof.
  unfold completed, transcriptTextOf. cbv zeta.
  destruct (metadataFor _ _ _), saved; cbn; by split_and!.
Qed.

Lemma summary_insert before item after :
  let s := summary (before ++ item :: after) in
  total s = S (total (summary before) + total (summary after))
  ∧ okCount s = (if ok item then 1 else 0)
                + okCount (summary before) + okCount (summary after)
  ∧ failedCount s = (if ok item then 0 else 1)
                    + failedCount (summary before) + failedCount (summary after).
Proof.
  unfold summary. cbn [total okCount failedCount].
  rewrite filter_app, filter_cons, !length_app. cbn [length].
  pose proof (length_filter ok before). pose proof (length_filter ok after).
  destruct (ok item); simpl; rewrite ?length_app; simpl; lia.
Qed.

(** C4.  When the transcription of an item succeeds and saving the artifact
    fails, [transcribeOne] still returns a success: no error flag, the
    transcript, [saved] false and the message of the failure as
    [save_error]; no file is written.  The item becomes a success in the
    list ([ok] true) and adds one to the ok count and nothing to the failed
    count. *)
Theorem save_failure_keeps_success (w : Transcripts.World)
    (savedAt : Transcripts.Date) (fetch : Z → GroqAudio.fetched) (random : Z → Q)
    (params : TranscribeAudioRequest) (t : Transcription) (e : Error) :
  transcribe config readAudioFile params fetch random = Ok t →
  saveFor parseURL metadataOf w savedAt params t = Err e →
  let run := transcribeOne config parseURL readAudioFile metadataOf w savedAt
               fetch random params in
  isError run.1 = false
  ∧ get "transcript" (structured run.1)
    = Some (Str (transcriptTextOf (response_format params) (rawText t) (rawJson t)))
  ∧ get "saved" (structured run.1) = Some (Bool false)
  ∧ get "save_error" (structured run.1) = Some (Str (message e))
  ∧ run.2 = Transcripts.files w
  ∧ ∀ index id source,
      let item := listResult index id source run.1 in
      ok item = true
      ∧ ∀ before after,
          failedCount (summary (before ++ item :: after))
          = failedCount (summary before) + failedCount (summary after)
          ∧ okCount (summary (before ++ item :: after))
            = S (okCount (summary before) + okCount (summary after)).
Proof.
  intros Ht Hs run. unfold run, transcribeOne. rewrite Ht, Hs. cbn [fst snd].
  destruct (completed_fields params t (Err e)) as (Herr & Htr & Hsaved & Hmsg & _).
  split_and!; try done.
  intros index id source. set (item := listResult _ _ _ _).
  assert (ok item = true) as Hok by (unfold item, listResult; by rewrite Herr).
  split; [done|]. intros before after.
  destruct (summary_insert before item after) as (_ & Hk & Hf).
  rewrite Hok in Hk, Hf. split; [exact Hf|exact Hk].
Qed.




(** ** Failures of the upstream, and what a success leaves *)

Lemma transcribe_refused params fetch random response :
  acquire readAudioFile params = Ok true →
  (GroqAudio.fetchWithRetry config fetch random).1 = GroqAudio.Returns response →
  GroqAudio.ok response = false →
  transcribe config readAudioFile params fetch random
  = Err (HttpError (GroqAudio.status response)
           ("Groq API error (" +:+ str (ofZ (GroqAudio.status response)) +:+ ").")
           (GroqAudio.bodyText response)).
Proof.
  intros Ha Hr Hok. unfold transcribe. rewrite Ha.
  unfold groqCreateTranscription. cbv zeta iota.
  change (λ k, fetch k) with fetch. by rewrite Hr, Hok.
Qed.

Lemma transcribe_thrown params fetch random error :
  acquire readAudioFile params = Ok true →
  (GroqAudio.fetchWithRetry config fetch random).1 = GroqAudio.Throws error →
  transcribe config readAudioFile params fetch random = Err (OtherError error).
Proof.
  intros Ha Hr. unfold transcribe. rewrite Ha.
  unfold groqCreateTranscription. cbv zeta iota.
  change (λ k, fetch k) with fetch. by rewrite Hr.
Qed.

(** X13.  A final response of the upstream that is not 2xx makes the item a
    failure that carries what the upstream said: [transcribeOne] returns an
    error result whose structured content is exactly the code
    [groq_api_error], the status and the body; no file is written; and the
    entry of the item in the list is a failure with that code, the status
    (when it is not 0), the text of the result as message and the body cut
    to the limit of [truncateBody]. *)
Theorem upstream_failure_reported (w : Transcripts.World)
    (savedAt : Transcripts.Date) (fetch : Z → GroqAudio.fetched) (random : Z → Q)
    (params : TranscribeAudioRequest) (response : GroqAudio.Response) :
  acquire readAudioFile params = Ok true →
  (GroqAudio.fetchWithRetry config fetch random).1 = GroqAudio.Returns response →
  GroqAudio.ok response = false →
  let run := transcribeOne config parseURL readAudioFile metadataOf w savedAt
               fetch random params in
  let code := GroqAudio.status response in
  let body := GroqAudio.bodyText response in
  isError run.1 = true
  ∧ structured run.1
    = Object [("error", Str "groq_api_error"); ("status", Number code 0);
              ("body", Str body)]
  ∧ run.2 = Transcripts.files w
  ∧ ∀ index id source,
      listResult index id source run.1
      = ListResultFailure index (Transcripts.truthy id) source
          {| code := "groq_api_error";
             errorMessage := contentText run.1;
             status := if (code =? 0)%Z then None else Some (code, 0%Z);
             body := Some (truncateBody (Some body)).1;
             body_truncated := Some (truncateBody (Some body)).2 |}.
Proof.
  intros Ha Hr Hok run code body. unfold run, transcribeOne.
  rewrite (transcribe_refused _ _ _ _ Ha Hr Hok). cbn [fst snd].
  split_and!; try done.
Qed.

(** X14.  When every attempt of the transport ends in an exception, the
    item is a failure of the catch-all kind: after exactly [maxAttempts]
    attempts [transcribeOne] returns an error result with the code
    [unexpected_error] and the message of the last exception, and writes
    no file. *)
Theorem transport_failure_reported (w : Transcripts.World)
    (savedAt : Transcripts.Date) (fetch : Z → GroqAudio.fetched) (random : Z → Q)
    (params : TranscribeAudioRequest) (errors : Z → string) :
  acquire readAudioFile params = Ok true →
  (∀ k, (1 ≤ k ≤ GroqAudio.maxAttempts config)%Z → fetch k = GroqAudio.Failed (errors k)) →
  let run := transcribeOne config parseURL readAudioFile metadataOf w savedAt
               fetch random params in
  let last := errors (GroqAudio.maxAttempts config) in
  GroqAudio.attemptsMade (GroqAudio.fetchWithRetry config fetch random).2
  = GroqAudio.maxAttempts config
  ∧ isError run.1 = true
  ∧ contentText run.1 = "Error: " +:+ last
  ∧ structured run.1
    = Object [("error", Str "unexpected_error"); ("message", Str last)]
  ∧ run.2 = Transcripts.files w.
Proof.
  intros Ha Hfail run last.
  destruct (GroqAudio.fetchWithRetry_exhausted config fetch random) as [Hout Hmade].
  { intros k Hk. by rewrite Hfail by lia. }
  rewrite Hfail in Hout by (unfold GroqAudio.maxAttempts; lia).
  unfold run, transcribeOne. rewrite (transcribe_thrown _ _ _ _ Ha Hout).
  by split_and!.
Qed.

Lemma append_empty (s : string) : s +:+ "" = s.
Proof.
  induction s as [|c s IH]; [done|].
  change (String c s +:+ "") with (String c (s +:+ "")). by rewrite IH.
Qed.

Lemma stripPrefix_one (a : ascii) (l : list ascii) :
  stripPrefix [a] l =
  match l with
  | c :: r => if Ascii.eqb a c then Some r else None
  | [] => None
  end.
Proof. by destruct l. Qed.

Lemma endsWith_last (s : string) :
  endsWith NL s = true ↔ last (chars s) = Some nl.
Proof.
  unfold endsWith. rewrite <- head_reverse.
  change (reverse (chars NL)) with [nl]. rewrite stripPrefix_one.
  destruct (reverse (chars s)) as [|c r]; cbn [head].
  - rewrite bool_decide_eq_true. split; [by intros [? ?]|done].
  - destruct (Ascii.eqb_spec nl c) as [<-|Hne]; rewrite bool_decide_eq_true.
    + split; [done|by eexists].
    + split; [by intros [? ?]|congruence].
Qed.

(** X15.  What a successful save leaves on disk agrees with what the item
    reports: the file at [saved_path] did not exist before and now holds
    the contents of the artifact; [bytes_written] is the length in bytes of
    these contents; no other file is added, changed or removed.  For the
    text encoding the contents are the transcript, with a newline added
    only when the transcript does not end with one, so the file always ends
    with a newline. *)
Theorem saved_artifact_on_disk (w : Transcripts.World) (savedAt : Transcripts.Date)
    (fetch : Z → GroqAudio.fetched) (random : Z → Q)
    (params : TranscribeAudioRequest) (t : Transcription)
    (artifact : Artifact) (files' : FS) :
  transcribe config readAudioFile params fetch random = Ok t →
  saveFor parseURL metadataOf w savedAt params t = Ok (artifact, files') →
  let run := transcribeOne config parseURL readAudioFile metadataOf w savedAt
               fetch random params in
  let transcriptText :=
    transcriptTextOf (response_format params) (rawText t) (rawJson t) in
  ∃ contents,
    run.2 = <[saved_path artifact := contents]> (Transcripts.files w)
    ∧ Transcripts.files w !! saved_path artifact = None
    ∧ run.2 !! saved_path artifact = Some contents
    ∧ (∀ path, path ≠ saved_path artifact → run.2 !! path = Transcripts.files w !! path)
    ∧ get "saved" (structured run.1) = Some (Bool true)
    ∧ get "saved_path" (structured run.1) = Some (Str (saved_path artifact))
    ∧ get "bytes_written" (structured run.1) = Some (Number (utf8Length contents) 0)
    ∧ get "saved_format" (structured run.1)
      = Some (Str (formatFor (response_format params)))
    ∧ (response_format params = TEXT →
         last (chars contents) = Some nl
         ∧ contents = if bool_decide (last (chars transcriptText) = Some nl)
                      then transcriptText else transcriptText +:+ NL).
Proof.
  intros Ht Hs run transcriptText. unfold run, transcribeOne. rewrite Ht, Hs.
  cbn [fst snd]. unfold saveFor in Hs.
  pose proof Hs as (_ & Hfree & -> & Hformat)%save_Ok.
  eexists. split; [done|]. split; [done|].
  split; [apply lookup_insert_eq|].
  split; [intros path Hne; by rewrite lookup_insert_ne|].
  assert (bytes_written artifact = utf8Length
            (artifactContents savedAt (response_format params) (rawText t) (rawJson t)
               (default (rawText t)
                  (transcript (extractTranscript (response_format params) (rawText t)
                                 (rawJson t))))
               (default "whisper-large-v3-turbo" (model params))
               (requestStructured params) (responseStructured (contentType t))
               (if include_metadata params
                then metadataFor metadataOf params
                       (parsedJson (extractTranscript (response_format params)
                                      (rawText t) (rawJson t)))
                else None))
          ∧ mime_type artifact = mimeFor (response_format params)) as [Hbytes Hmime].
  { unfold saveTranscriptArtifact in Hs.
    destruct (reserveFor _ _ _ _ _) as [outputPath|]; [|done].
    destruct (writeFile_wx _ _ _); [|done]. by injection Hs as <- _. }
  split_and!.
  - by destruct (completed_fields params t (Ok artifact)) as (_ & _ & ? & _).
  - by destruct (completed_fields params t (Ok artifact)) as (_ & _ & _ & ? & _).
  - rewrite <- Hbytes. unfold completed. cbv zeta.
    by destruct (metadataFor _ _ _).
  - rewrite <- Hformat. unfold completed. cbv zeta.
    by destruct (metadataFor _ _ _).
  - intros Htext. unfold artifactContents. rewrite Htext. cbn [extensionFor].
    fold (transcriptTextOf TEXT (rawText t) (rawJson t)).
    unfold transcriptText. rewrite Htext.
    set (text := transcriptTextOf TEXT (rawText t) (rawJson t)).
    destruct (endsWith NL text) eqn:E.
    + apply endsWith_last in E as Hl. rewrite bool_decide_eq_true_2 by done.
      by rewrite append_empty.
    + rewrite bool_decide_eq_false_2
        by (intros Hl; apply endsWith_last in Hl; congruence).
      split; [|done]. rewrite chars_app. apply last_snoc.
Qed.


End item.

(** ** Instances *)

Definition noon : Transcripts.Date :=
  {| Transcripts.UTCFullYear := 2026; Transcripts.UTCMonth := 0;
     Transcripts.UTCDate := 5; Transcripts.UTCHours := 13;
     Transcripts.UTCMinutes := 4; Transcripts.UTCSeconds := 59;
     Transcripts.UTCMilliseconds := 7 |}.

Definition emptyWorld : Transcripts.World :=
  {| Transcripts.cwd := "/srv/stt"; Transcripts.now := noon; Transcripts.files := ∅ |}.

Definition exampleUrl : string := "https://example.com/audio.wav".

Definition exampleParse (url : string) : option Transcripts.URL :=
  if decide (url = exampleUrl)
  then Some {| Transcripts.pathname := "/audio.wav"; Transcripts.hostname := "example.com" |}
  else if decide (url = "https://example.com/.mp3")
  then Some {| Transcripts.pathname := "/.mp3"; Transcripts.hostname := "example.com" |}
  else None.

Definition exampleSource : Transcripts.Source :=
  {| Transcripts.file_path := None; Transcripts.url := Some exampleUrl |}.





(** A run of [transcribeOne]: the upstream answers 200 with a body of the
    given content type. *)
Definition answer (contentType body : string) (k : Z) : GroqAudio.fetched :=
  GroqAudio.Responded
    {| GroqAudio.status := 200;
       GroqAudio.contentType := Some contentType;
       GroqAudio.bodyText := body |}.

Definition exampleRequest (responseFormat : GroqAudioResponseFormat)
    (saveAs : option string) : TranscribeAudioRequest :=
  {| model := Some "whisper-large-v3-turbo";
     language := None;
     prompt := None;
     temperature := (0, 0)%Z;
     response_format := responseFormat;
     timestamp_granularities := [];
     include_metadata := false;
     output_format := OutputText;
     file_path := None;
     url := Some exampleUrl;
     save_as := saveAs |}.

Definition exampleRun (w : Transcripts.World) (contentType body : string)
    (responseFormat : GroqAudioResponseFormat) (saveAs : option string)
  : ToolResult * FS :=
  transcribeOne GroqAudio.defaultConfig exampleParse (λ _, Ok ()) (λ v, v)
    w noon (answer contentType body) (λ _, 0%Q)
    (exampleRequest responseFormat saveAs).


(** C4 for a text transcription saved under [episode.mp3]: the save fails
    on the extension and the item stays a success. *)
Lemma save_failure_keeps_success_witness :
  let run := exampleRun emptyWorld "text/plain" "hello" TEXT (Some "episode.mp3") in
  isError run.1 = false
  ∧ get "transcript" (structured run.1) = Some (Str "hello")
  ∧ get "saved" (structured run.1) = Some (Bool false)
  ∧ get "save_error" (structured run.1)
    = Some (Str "save_as extension '.mp3' does not match expected '.txt'.").
Proof.
  pose proof (save_failure_keeps_success GroqAudio.defaultConfig exampleParse
    (λ _, Ok ()) (λ v, v) emptyWorld noon (answer "text/plain" "hello") (λ _, 0%Q)
    (exampleRequest TEXT (Some "episode.mp3"))
    {| rawText := "hello"; rawJson := Null; contentType := Some "text/plain" |}
    (ExtensionMismatch "mp3" "txt") eq_refl eq_refl) as (H1 & H2 & H3 & H4 & _).
  by split_and!.
Defined.



(** X13 when the upstream answers 400. *)
Lemma upstream_failure_reported_witness :
  structured
    (transcribeOne GroqAudio.defaultConfig exampleParse (λ _, Ok ()) (λ v, v)
       emptyWorld noon (λ _, GroqAudio.respond 400) (λ _, 0%Q)
       (exampleRequest TEXT None)).1
  = Object [("error", Str "groq_api_error"); ("status", Number 400 0);
            ("body", Str "")].
Proof.
  exact (proj1 (proj2 (upstream_failure_reported GroqAudio.defaultConfig exampleParse
    (λ _, Ok ()) (λ v, v) emptyWorld noon (λ _, GroqAudio.respond 400) (λ _, 0%Q)
    (exampleRequest TEXT None)
    {| GroqAudio.status := 400; GroqAudio.contentType := Some "application/json";
       GroqAudio.bodyText := "" |} eq_refl eq_refl eq_refl))).
Defined.

(** X14 when every attempt fails to connect. *)
Lemma transport_failure_reported_witness :
  contentText
    (transcribeOne GroqAudio.defaultConfig exampleParse (λ _, Ok ()) (λ v, v)
       emptyWorld noon (λ _, GroqAudio.Failed "fetch failed") (λ _, 0%Q)
       (exampleRequest TEXT None)).1
  = "Error: fetch failed".
Proof.
  refine (proj1 (proj2 (proj2 (transport_failure_reported GroqAudio.defaultConfig
    exampleParse (λ _, Ok ()) (λ v, v) emptyWorld noon
    (λ _, GroqAudio.Failed "fetch failed") (λ _, 0%Q) (exampleRequest TEXT None)
    (λ _, "fetch failed") eq_refl _)))).
  intros k _. reflexivity.
Defined.

(** X15 for a text transcription saved under the default name. *)
Lemma saved_artifact_on_disk_witness :
  let run := exampleRun emptyWorld "text/plain" "hello" TEXT None in
  ∃ contents,
    run.2 !! "/srv/stt/transcripts/audio__20260105T130459007Z.txt" = Some contents
    ∧ last (chars contents) = Some nl.
Proof.
  intros run.
  set (t := {| rawText := "hello"; rawJson := Null; contentType := Some "text/plain" |}).
  set (path := "/srv/stt/transcripts/audio__20260105T130459007Z.txt").
  destruct (save_reserved exampleParse emptyWorld noon
              (truthySource (exampleRequest TEXT None)) TEXT "hello" (rawJson t)
              "hello" "whisper-large-v3-turbo"
              (requestStructured (exampleRequest TEXT None))
              (responseStructured (contentType t)) None None path
              eq_refl eq_refl)
    as (artifact & files' & Hs & Hsaved).
  destruct (saved_artifact_on_disk GroqAudio.defaultConfig exampleParse
              (λ _, Ok ()) (λ v, v) emptyWorld noon (answer "text/plain" "hello")
              (λ _, 0%Q) (exampleRequest TEXT None) t artifact files' eq_refl Hs)
    as (contents & _ & _ & Hfile & _ & _ & _ & _ & _ & Htext).
  exists contents. subst run. unfold exampleRun. rewrite <- Hsaved.
  split; [exact Hfile|]. exact (proj1 (Htext eq_refl)).
Defined.


(** ** The scenarios of [autoSave.test.ts] *)

(** A text transcription is saved as [.txt], with a newline at the end. *)
Example auto_saves_txt :
  let run := exampleRun emptyWorld "text/plain" "hello world" TEXT None in
  isError run.1 = false
  ∧ get "saved" (structured run.1) = Some (Bool true)
  ∧ get "saved_format" (structured run.1) = Some (Str "text")
  ∧ get "saved_path" (structured run.1)
    = Some (Str "/srv/stt/transcripts/audio__20260105T130459007Z.txt")
  ∧ run.2 !! "/srv/stt/transcripts/audio__20260105T130459007Z.txt"
    = Some ("hello world" +:+ NL).
Proof. by vm_compute. Qed.

(** An explicit name is used as it is, without a timestamp. *)
Example save_as_uses_the_name :
  let run := exampleRun emptyWorld "text/plain" "hello" TEXT (Some "episode_S01E04.txt") in
  get "saved_path" (structured run.1)
  = Some (Str "/srv/stt/transcripts/episode_S01E04.txt")
  ∧ run.2 !! "/srv/stt/transcripts/episode_S01E04.txt" = Some ("hello" +:+ NL).
Proof. by vm_compute. Qed.

(** A body that is not JSON under the json encoding: the body is the
    transcript and [groq_response] is null. *)
Example unparseable_body_falls_back :
  let run := exampleRun emptyWorld "text/plain" "hello world" JSON None in
  isError run.1 = false
  ∧ get "transcript" (structured run.1) = Some (Str "hello world")
  ∧ (λ contents, get "groq_response" (tryParseJson contents))
      <$> run.2 !! "/srv/stt/transcripts/audio__20260105T130459007Z.json"
    = Some (Some Null).
Proof. by vm_compute. Qed.

(** An upstream 400 makes the item a failure with the code of the API
    error and the status. *)
Example upstream_400_is_a_failure :
  let run := transcribeOne GroqAudio.defaultConfig exampleParse (λ _, Ok ()) (λ v, v)
               emptyWorld noon (λ _, GroqAudio.respond 400) (λ _, 0%Q)
               (exampleRequest TEXT None) in
  isError run.1 = true
  ∧ (λ r, (ok r, match r with
                 | ListResultFailure _ _ _ e => Some (code e, status e)
                 | _ => None
                 end)) (listResult 1 (Some "b") exampleSource run.1)
    = (false, Some ("groq_api_error", Some (400, 0)%Z))
  ∧ run.2 = ∅.
Proof. by vm_compute. Qed.


End Transcribe.

(** * [services/files.ts] *)

Module Files.
Import Js Node Json Transcribe.

Local Open Scope Z_scope.
Local Set Warnings "-clear-no-such-hyp".

(** [x.toFixed(1)] for a number [x] that is not negative: the integer [n]
    nearest to [10 x] (the larger of two that are equally near), written
    with a point before its last digit. *)
Definition toFixed1 (x : Q) : list ascii :=
  let n := Qfloor (x * 10 + (1 # 2)) in
  ofZ (n / 10) ++ ["."%char; digit (n mod 10)].

(** [formatBytes(bytes)] for an integer [bytes]: a file size is one, and
    [bytes / 1024] and [bytes / (1024 * 1024)] are then exact. *)
Definition formatBytes (bytes : Z) : string :=
  if bytes <? 0 then str (ofZ bytes) else
  let mb := (inject_Z bytes / inject_Z (1024 * 1024))%Q in
  if Qle_bool 1 mb
  then str (ofZ bytes ++ chars " bytes (~" ++ toFixed1 mb ++ chars "MB)")
  else
    let kb := (inject_Z bytes / inject_Z 1024)%Q in
    if Qle_bool 1 kb
    then str (ofZ bytes ++ chars " bytes (~" ++ toFixed1 kb ++ chars "KB)")
    else str (ofZ bytes ++ chars " bytes").

Definition GROQ_MAX_ATTACHMENT_BYTES : Z := 25 * 1024 * 1024.

Example formatBytes_examples :
  formatBytes 0 = "0 bytes"
  ∧ formatBytes 1023 = "1023 bytes"
  ∧ formatBytes 1024 = "1024 bytes (~1.0KB)"
  ∧ formatBytes 1536 = "1536 bytes (~1.5KB)"
  ∧ formatBytes 1048575 = "1048575 bytes (~1024.0KB)"
  ∧ formatBytes 1048576 = "1048576 bytes (~1.0MB)"
  ∧ formatBytes GROQ_MAX_ATTACHMENT_BYTES = "26214400 bytes (~25.0MB)"
  ∧ formatBytes 27000000 = "27000000 bytes (~25.7MB)"
  ∧ formatBytes (-5) = "-5".
Proof. by vm_compute. Qed.







(** [fs.stat]: what the code reads of it. *)
Record Stats := {
  isFile : bool;
  size : Z
}.

Record AudioFile := {
  filename : string;
  bytes : list ascii
}.

Section reading.
(** The platform: [path.resolve], [fs.stat] ([None] when it rejects) and
    [fs.readFile] (the bytes, or the message of what it throws). *)
Variable resolve : string → string.
Variable stat : string → option Stats.
Variable readFile : string → Result string (list ascii).

Definition readAudioFile (filePath : string) : Result Thrown AudioFile :=
  if Schemas.includes "000" filePath
  then Err (FileInputError "invalid_file_path"
              "Invalid file_path (contains null byte)." None)
  else
    let resolved := resolve filePath in
    match stat resolved with
    | None =>
        Err (FileInputError "file_not_found"
               ("Audio file not found at file_path='" +:+ filePath +:+ "'.") None)
    | Some st =>
        if negb (isFile st)
        then Err (FileInputError "file_path_not_a_file"
                    ("file_path must point to a file, got: '" +:+ filePath +:+ "'.")
                    None)
        else if size st =? 0
        then Err (FileInputError "file_empty"
                    "Audio file is empty (0 bytes). Provide a non-empty audio file or use url."
                    (Some (Object [("size_bytes", Number 0 0)])))
        else if GROQ_MAX_ATTACHMENT_BYTES <? size st
        then Err (FileInputError "file_too_large"
                    ("Audio file too large (" +:+ formatBytes (size st) +:+
                     "). Groq file uploads are limited to " +:+
                     formatBytes GROQ_MAX_ATTACHMENT_BYTES +:+
                     ". Please provide a smaller file or use url.")
                    (Some (Object [("size_bytes", Number (size st) 0);
                                   ("max_bytes", Number GROQ_MAX_ATTACHMENT_BYTES 0)])))
        else
          match readFile resolved with
          | Ok contents =>
              Ok {| filename := str (Transcripts.basename (chars resolved));
                    bytes := contents |}
          | Err message => Err (OtherError message)
          end
    end.

(** The code of the rejection, when the file is rejected as an input. *)
Definition rejection (filePath : string) : option string :=
  match readAudioFile filePath with
  | Err (FileInputError code _ _) => Some code
  | _ => None
  end.

(** X20.  Which files [readAudioFile] takes: a path is accepted exactly
    when it holds no null byte and names an existing regular file of 1 to
    26214400 bytes that can be read (the limit is inclusive); the result
    then carries the base name of the resolved path and the bytes read.
    Otherwise the first check that fails decides the code, in the order:
    null byte, missing, not a regular file, empty, too large. *)
Theorem readAudioFile_accepts (filePath : string) :
  let resolved := resolve filePath in
  (∀ file, readAudioFile filePath = Ok file ↔
     Schemas.includes "000" filePath = false
     ∧ (∃ st, stat resolved = Some st ∧ isFile st = true
              ∧ size st ≠ 0 ∧ size st ≤ 26214400)
     ∧ readFile resolved = Ok (bytes file)
     ∧ filename file = str (Transcripts.basename (chars resolved)))
  ∧ (rejection filePath = Some "invalid_file_path" ↔
       Schemas.includes "000" filePath = true)
  ∧ (rejection filePath = Some "file_not_found" ↔
       Schemas.includes "000" filePath = false ∧ stat resolved = None)
  ∧ (rejection filePath = Some "file_path_not_a_file" ↔
       Schemas.includes "000" filePath = false
       ∧ ∃ st, stat resolved = Some st ∧ isFile st = false)
  ∧ (rejection filePath = Some "file_empty" ↔
       Schemas.includes "000" filePath = false
       ∧ ∃ st, stat resolved = Some st ∧ isFile st = true ∧ size st = 0)
  ∧ (rejection filePath = Some "file_too_large" ↔
       Schemas.includes "000" filePath = false
       ∧ ∃ st, stat resolved = Some st ∧ isFile st = true ∧ 26214400 < size st).
Proof.
  intros resolved. unfold rejection, readAudioFile. fold resolved.
  change GROQ_MAX_ATTACHMENT_BYTES with 26214400.
  destruct (Schemas.includes "000" filePath); [naive_solver|].
  destruct (stat resolved) as [[regular sz]|]; cbn [isFile size]; [|naive_solver].
  destruct regular; cbn [negb]; [|naive_solver].
  destruct (Z.eqb_spec sz 0) as [->|Hne]; [naive_solver lia|].
  destruct (Z.ltb_spec 26214400 sz) as [Hbig|Hok]; [naive_solver lia|].
  destruct (readFile resolved) as [contents|message].
  - split_and!; [|naive_solver lia..].
    intros [name contents']. cbn [filename bytes]. naive_solver lia.
  - naive_solver lia.
Qed.

(** [readAudioFile] as [transcribeOne] uses it: the file is only passed
    on. *)
Definition reader (filePath : string) : Result Thrown unit :=
  match readAudioFile filePath with
  | Ok _ => Ok ()
  | Err e => Err e
  end.

(** X21.  A local file that is rejected ends the item before anything else
    happens: whatever the upstream would answer, [transcribeOne] returns
    the failure of the rejection, with its code as [error] and its message,
    and leaves the files as they are; no request is made. *)
Theorem rejected_file_fails_early (config : GroqAudio.Config)
    (parseURL : string → option Transcripts.URL) (metadataOf : value → value)
    (w : Transcripts.World) (savedAt : Transcripts.Date)
    (params : TranscribeAudioRequest) (path code message : string)
    (details : option value) :
  file_path params = Some path →
  readAudioFile path = Err (FileInputError code message details) →
  ∀ (fetch : Z → GroqAudio.fetched) (random : Z → Q),
    let run := transcribeOne config parseURL reader metadataOf w savedAt
                 fetch random params in
    run = (failed (FileInputError code message details), Transcripts.files w)
    ∧ isError run.1 = true
    ∧ contentText run.1 = "Error: " +:+ message
    ∧ get "error" (structured run.1) = Some (Str code)
    ∧ get "message" (structured run.1) = Some (Str message).
Proof.
  intros Hpath Hread fetch random run.
  assert (run = (failed (FileInputError code message details), Transcripts.files w))
    as ->.
  { unfold run, transcribeOne, transcribe, acquire, reader.
    by rewrite Hpath, Hread. }
  split_and!; try done; by destruct details.
Qed.

End reading.


(** A disk with one file, which is too large. *)
Definition bigFile (path : string) : option Stats :=
  if decide (path = "/audio/big.wav")
  then Some {| isFile := true; size := 27000000 |} else None.

Definition localRequest : TranscribeAudioRequest :=
  {| model := None; language := None; prompt := None; temperature := (0, 0);
     response_format := Schemas.TEXT; timestamp_granularities := [];
     include_metadata := false; output_format := Schemas.OutputText;
     file_path := Some "/audio/big.wav"; url := None; save_as := None |}.

(** X21 for that file: the item fails on its size, whatever the upstream
    would answer. *)
Lemma rejected_file_fails_early_witness :
  get "error"
    (structured
       (transcribeOne GroqAudio.defaultConfig (λ _, None)
          (reader (λ path, path) bigFile (λ _, Err "unreadable")) (λ v, v)
          {| Transcripts.cwd := "/srv/stt"; Transcripts.now := Transcripts.noonDate;
             Transcripts.files := ∅ |}
          Transcripts.noonDate (λ _, GroqAudio.respond 200) (λ _, 0%Q)
          localRequest).1)
  = Some (Str "file_too_large").
Proof.
  refine (proj1 (proj2 (proj2 (proj2 (rejected_file_fails_early (λ path, path) bigFile
    (λ _, Err "unreadable") GroqAudio.defaultConfig (λ _, None) (λ v, v)
    {| Transcripts.cwd := "/srv/stt"; Transcripts.now := Transcripts.noonDate;
       Transcripts.files := ∅ |}
    Transcripts.noonDate localRequest "/audio/big.wav" "file_too_large" _ _
    eq_refl eq_refl (λ _, GroqAudio.respond 200) (λ _, 0%Q)))))).
Defined.

End Files.

(** * [services/writes.ts] *)

Module Writes.
Import Js Node.

(** What [writeTextFile] throws. *)
Inductive WriteError :=
| InvalidOutputPath
| AlreadyExists (path : string).

Definition writeErrorMessage (e : WriteError) : string :=
  match e with
  | InvalidOutputPath => "Invalid output_path (contains null byte)."
  | AlreadyExists path => message (EEXIST path)
  end.

Record Written := {
  savedPath : string;
  bytesWritten : Z
}.

Section writing.
(** [path.resolve].  The parent directory is made with
    [fs.mkdir(parent, {recursive: true})], which changes no file. *)
Variable resolve : string → string.

Definition writeTextFile (fs : FS) (outputPath contents : string) (overwrite : bool)
  : Result WriteError (Written * FS) :=
  if Schemas.includes "000" outputPath then Err InvalidOutputPath else
  let resolvedTarget := resolve outputPath in
  let saved := {| savedPath := resolvedTarget; bytesWritten := utf8Length contents |} in
  if overwrite then Ok (saved, <[resolvedTarget := contents]> fs)
  else
    match writeFile_wx fs resolvedTarget contents with
    | Ok fs' => Ok (saved, fs')
    | Err _ => Err (AlreadyExists resolvedTarget)
    end.

(** X22.  What [writeTextFile] does to the files.  It succeeds exactly when
    the path holds no null byte and, without [overwrite], the target does
    not exist.  After a success the target holds exactly the contents given
    (reading it back gives them), [bytesWritten] is their length in bytes,
    and every other file is as before.  Without [overwrite] an existing
    file is never touched: the call fails with the already-exists error. *)
Theorem writeTextFile_effect (fs : FS) (outputPath contents : string)
    (overwrite : bool) :
  let target := resolve outputPath in
  match writeTextFile fs outputPath contents overwrite with
  | Ok (saved, fs') =>
      Schemas.includes "000" outputPath = false
      ∧ (overwrite = false → fs !! target = None)
      ∧ savedPath saved = target
      ∧ bytesWritten saved = utf8Length contents
      ∧ fs' !! target = Some contents
      ∧ (∀ path, path ≠ target → fs' !! path = fs !! path)
  | Err InvalidOutputPath => Schemas.includes "000" outputPath = true
  | Err (AlreadyExists path) =>
      Schemas.includes "000" outputPath = false
      ∧ overwrite = false ∧ path = target ∧ is_Some (fs !! target)
  end.
Proof.
  intros target. unfold writeTextFile. fold target.
  destruct (Schemas.includes "000" outputPath); [done|].
  destruct overwrite.
  - split_and!; try done.
    + apply lookup_insert_eq.
    + intros path Hne. by rewrite lookup_insert_ne.
  - unfold writeFile_wx, exists_. case_bool_decide as Hex.
    + done.
    + split_and!; try done.
      * intros _. by apply eq_None_not_Some.
      * apply lookup_insert_eq.
      * intros path Hne. by rewrite lookup_insert_ne.
Qed.

End writing.

Example writeTextFile_examples :
  let fs : FS := {[ "/out/a.txt" := "old" ]} in
  writeTextFile (λ p, p) fs "/out/a.txt" "new" false = Err (AlreadyExists "/out/a.txt")
  ∧ (writeTextFile (λ p, p) fs "/out/a.txt" "new" true)
    = Ok ({| savedPath := "/out/a.txt"; bytesWritten := 3 |},
          {[ "/out/a.txt" := "new" ]})
  ∧ writeTextFile (λ p, p) fs (String "000" "x") "new" true = Err InvalidOutputPath.
Proof.
  by split_and!.
Qed.

End Writes.


(** * [services/config.ts]: reading the environment *)

Module Config.
Import Js Json.

Local Open Scope Z_scope.

(** A sign in front of the digits. *)
Definition parseIntSign (s : list ascii) : bool * list ascii :=
  match s with
  | c :: s' =>
      if Ascii.eqb c "-" then (true, s')
      else if Ascii.eqb c "+" then (false, s') else (false, s)
  | [] => (false, s)
  end.

Section environment.
(** The platform: [process.env], and the number that an integer becomes
    as a JavaScript value ([None] when it is infinite). *)
Variable env : string → option string.
Variable toNumber : Z → option Z.
Hypothesis toNumber_exact : ∀ z, - 2 ^ 53 ≤ z ≤ 2 ^ 53 → toNumber z = Some z.

(** [Number.parseInt(raw, 10)] when the result is finite: leading white
    space is skipped, then a sign, then the longest run of digits is read;
    what follows is ignored.  [None] stands for [NaN] and the infinities. *)
Definition parseInt (raw : list ascii) : option Z :=
  let '(negative, unsigned) := parseIntSign (dropWhile isSpace raw) in
  let digits := takeWhile isDigit unsigned in
  if nonEmpty digits then toNumber (signed negative (digitsValue digits)) else None.

Definition envInt (name : string) (defaultValue : Z) : Z :=
  match env name with
  | None => defaultValue
  | Some raw =>
      if bool_decide (trim (chars raw) = []) then defaultValue
      else default defaultValue (parseInt (chars raw))
  end.

(** [config], as far as the transport reads it. *)
Definition config : GroqAudio.Config :=
  {| GroqAudio.requestTimeoutMs := envInt "GROQ_STT_REQUEST_TIMEOUT_MS" 300000;
     GroqAudio.maxRetries := envInt "GROQ_STT_MAX_RETRIES" 2;
     GroqAudio.retryBaseMs := envInt "GROQ_STT_RETRY_BASE_MS" 250 |}.

Lemma dropWhile_all (p : ascii → bool) l :
  dropWhile p l = [] → Forall (λ c, p c = true) l.
Proof.
  induction l as [|c l IH]; [done|]. simpl.
  destruct (p c) eqn:E; [|done]. intros H. constructor; [done|by apply IH].
Qed.

Lemma dropWhile_spaces (p : ascii → bool) ws l :
  Forall (λ c, p c = true) ws → dropWhile p (ws ++ l) = dropWhile p l.
Proof. induction 1 as [|c ws Hc _ IH]; [done|]. simpl. by rewrite Hc. Qed.

Lemma trim_nil l : trim l = [] → dropWhile isSpace l = [].
Proof.
  unfold trim, dropWhileEnd. intros H.
  apply (f_equal reverse) in H. rewrite reverse_involutive in H.
  change (reverse []) with (@nil ascii) in H.
  apply dropWhile_all in H. rewrite Forall_reverse in H.
  destruct (dropWhile isSpace l) as [|c m] eqn:E; [done|].
  pose proof (dropWhile_head isSpace l c) as Hc. rewrite E in Hc.
  specialize (Hc eq_refl). apply Forall_cons in H as [H _]. congruence.
Qed.

Lemma isDigit_notSpace (c : ascii) : isDigit c → isSpace c = false.
Proof.
  destruct c as [[] [] [] [] [] [] [] []]; vm_compute; intros H;
    try reflexivity; destruct H.
Qed.

Lemma digitsValue_nonneg l : Forall isDigit l → 0 ≤ digitsValue l.
Proof.
  induction l as [|c l IH] using rev_ind; [done|].
  rewrite Forall_app, Forall_singleton. intros [Hl Hc].
  rewrite digitsValue_snoc. specialize (IH Hl).
  unfold isDigit, between in Hc. apply andb_prop_elim in Hc as [H1 _].
  apply Is_true_true, Nat.leb_le in H1. lia.
Qed.

(** White space, a sign and digits in front of [rest]: what [parseInt]
    makes of it. *)
Lemma parseInt_numeral (ws sign digits rest : list ascii) :
  Forall (λ c, isSpace c = true) ws →
  sign ∈ [[]; ["+"%char]; ["-"%char]] →
  digits ≠ [] → Forall isDigit digits →
  from_option isDigit false (head rest) = false →
  dropWhile isSpace (ws ++ sign ++ digits ++ rest) = sign ++ digits ++ rest ∧
  parseInt (ws ++ sign ++ digits ++ rest)
  = toNumber (signed (bool_decide (sign = ["-"%char])) (digitsValue digits)).
Proof.
  intros Hws Hsign Hne Hd Hrest.
  destruct digits as [|d ds]; [done|].
  apply Forall_cons in Hd as Hd'. destruct Hd' as [Hd1 _].
  pose proof (isDigit_notSpace d Hd1) as Hnsp.
  destruct (digit_start d Hd1) as (Hm & Hp & _).
  assert (takeWhile isDigit ((d :: ds) ++ rest) = d :: ds) as Htake.
  { apply takeWhile_app; [done|]. destruct rest as [|r rest]; [done|].
    simpl in *. by rewrite Hrest. }
  assert (dropWhile isSpace (ws ++ sign ++ (d :: ds) ++ rest)
          = sign ++ (d :: ds) ++ rest) as Hdrop.
  { rewrite dropWhile_spaces by done.
    rewrite !elem_of_cons, elem_of_nil in Hsign.
    destruct Hsign as [->|[->|[->|[]]]]; simpl; by rewrite ?Hnsp. }
  split; [done|]. unfold parseInt. rewrite Hdrop.
  rewrite !elem_of_cons, elem_of_nil in Hsign.
  destruct Hsign as [->|[->|[->|[]]]].
  - change ([] ++ (d :: ds) ++ rest) with (d :: (ds ++ rest)).
    unfold parseIntSign. rewrite Hm, Hp.
    change (d :: (ds ++ rest)) with ((d :: ds) ++ rest). rewrite Htake.
    by rewrite bool_decide_eq_false_2.
  - change (["+"%char] ++ (d :: ds) ++ rest) with ("+"%char :: ((d :: ds) ++ rest)).
    unfold parseIntSign. change (Ascii.eqb "+" "-") with false.
    change (Ascii.eqb "+" "+") with true. cbv iota. rewrite Htake.
    by rewrite bool_decide_eq_false_2.
  - change (["-"%char] ++ (d :: ds) ++ rest) with ("-"%char :: ((d :: ds) ++ rest)).
    unfold parseIntSign. change (Ascii.eqb "-" "-") with true. cbv iota.
    rewrite Htake. by rewrite bool_decide_eq_true_2.
Qed.

(** X23.  [envInt] reads a leading integer and is lenient about the rest:
    when the variable is set to optional white space, an optional sign,
    digits and then anything that does not go on with a digit (a unit, a
    fraction, an exponent), the result is the signed value of the digits,
    as long as it is an integer that a JavaScript number holds exactly. *)
Theorem envInt_reads_numeral (name raw : string) (defaultValue : Z)
    (ws sign digits rest : list ascii) :
  env name = Some raw →
  chars raw = ws ++ sign ++ digits ++ rest →
  Forall (λ c, isSpace c = true) ws →
  sign ∈ [[]; ["+"%char]; ["-"%char]] →
  digits ≠ [] → Forall isDigit digits →
  from_option isDigit false (head rest) = false →
  digitsValue digits ≤ 2 ^ 53 →
  envInt name defaultValue
  = if bool_decide (sign = ["-"%char]) then - digitsValue digits
    else digitsValue digits.
Proof.
  intros Henv Hraw Hws Hsign Hne Hd Hrest Hval.
  pose proof (digitsValue_nonneg digits Hd) as Hpos.
  destruct (parseInt_numeral ws sign digits rest) as [Hdrop Hparse]; try done.
  unfold envInt. rewrite Henv, Hraw. rewrite bool_decide_eq_false_2.
  - rewrite Hparse, toNumber_exact; [done|].
    unfold signed. case_bool_decide; lia.
  - intros Htrim. apply trim_nil in Htrim. rewrite Hdrop in Htrim.
    destruct digits; [done|]. by destruct sign.
Qed.

(** X24.  A value other than the default comes from a numeral only: the
    variable is set, and its text is white space, an optional sign and
    then a digit.  An unset, blank or non-numeric variable gives the
    default. *)
Theorem envInt_default (name : string) (defaultValue : Z) :
  envInt name defaultValue ≠ defaultValue →
  ∃ raw ws sign d rest,
    env name = Some raw ∧ chars raw = ws ++ sign ++ d :: rest ∧
    Forall (λ c, isSpace c = true) ws ∧
    sign ∈ [[]; ["+"%char]; ["-"%char]] ∧ isDigit d.
Proof.
  clear toNumber_exact. unfold envInt. destruct (env name) as [raw|]; [|done].
  case_bool_decide as Htrim; [done|]. intros Hne.
  exists raw.
  destruct (dropWhile_drop isSpace (chars raw)) as [k Hk].
  exists (take k (chars raw)).
  assert (Forall (λ c, isSpace c = true) (take k (chars raw))) as Hws.
  { clear -Hk. revert k Hk. induction (chars raw) as [|c l IH]; intros k Hk.
    { by rewrite take_nil. }
    destruct k as [|k]; [by constructor|]. simpl in *.
    destruct (isSpace c) eqn:E.
    - constructor; [done|]. by apply IH.
    - pose proof (f_equal length Hk) as Hl. rewrite length_drop in Hl.
      simpl in Hl. lia. }
  assert (chars raw = take k (chars raw) ++ dropWhile isSpace (chars raw)) as Hsplit.
  { by rewrite Hk, take_drop. }
  unfold parseInt in Hne.
  destruct (dropWhile isSpace (chars raw)) as [|c s] eqn:E.
  { simpl in Hne. done. }
  unfold parseIntSign in Hne.
  assert (∀ neg u, (if nonEmpty (takeWhile isDigit u)
                    then toNumber (signed neg (digitsValue (takeWhile isDigit u)))
                    else None) ≠ None → ∃ d r, u = d :: r ∧ isDigit d) as Hdigit.
  { intros neg [|d r]; [done|]. simpl. destruct (isDigit d) eqn:Ed; [|done].
    intros _. exists d, r. by rewrite Ed. }
  destruct (Ascii.eqb c "-") eqn:Em.
  - apply Ascii.eqb_eq in Em as ->.
    destruct (Hdigit true s) as (d & r & -> & Hd).
    { intros H. by rewrite H in Hne. }
    exists ["-"%char], d, r. split_and!; try done. set_solver.
  - destruct (Ascii.eqb c "+") eqn:Ep.
    + apply Ascii.eqb_eq in Ep as ->.
      destruct (Hdigit false s) as (d & r & -> & Hd).
      { intros H. by rewrite H in Hne. }
      exists ["+"%char], d, r. split_and!; try done. set_solver.
    + destruct (Hdigit false (c :: s)) as (d & r & Heq & Hd).
      { intros H. by rewrite H in Hne. }
      exists [], d, r. split_and!; try done; [by rewrite <- Heq|set_solver].
Qed.

End environment.

Example envInt_examples :
  let env : gmap string string :=
    {[ "GROQ_STT_MAX_RETRIES" := " 5 retries";
       "GROQ_STT_RETRY_BASE_MS" := "fast";
       "GROQ_STT_REQUEST_TIMEOUT_MS" := "-1.5e3" ]} in
  config (λ name, env !! name) Some
  = {| GroqAudio.requestTimeoutMs := -1;
       GroqAudio.maxRetries := 5;
       GroqAudio.retryBaseMs := 250 |}.
Proof. done. Qed.

Lemma envInt_reads_numeral_witness :
  envInt (λ _, Some "250ms") Some "GROQ_STT_RETRY_BASE_MS" 7 = 250.
Proof.
  exact (envInt_reads_numeral (λ _, Some "250ms") Some (λ z _, eq_refl)
           "GROQ_STT_RETRY_BASE_MS" "250ms" 7 [] [] (chars "250") (chars "ms")
           eq_refl eq_refl (Forall_nil_2 _) (list_elem_of_here _ _)
           ltac:(done) ltac:(by repeat constructor) eq_refl ltac:(by vm_compute)).
Defined.

Lemma envInt_default_witness :
  ∃ raw ws sign d rest,
    Some "-3" = Some raw ∧ chars raw = ws ++ sign ++ d :: rest ∧
    Forall (λ c, isSpace c = true) ws ∧
    sign ∈ [[]; ["+"%char]; ["-"%char]] ∧ isDigit d.
Proof.
  apply (envInt_default (λ _, Some "-3") Some "GROQ_STT_MAX_RETRIES" 2).
  by vm_compute.
Defined.

End Config.

(** * [schemas/transcribe.ts]: the refinements, and the items the tool runs *)

Module Validation.
Import Js Schemas.

Local Set Warnings "-clear-no-such-hyp".

(** An item after the object schema has parsed it. *)
Record Item := {
  id : option string;
  save_as : option string;
  file_path : option string;
  path : option string;
  audio_path : option string;
  url : option string
}.

(** [typeof v === "string" && v.length > 0] *)
Definition present (v : option string) : bool :=
  match v with
  | Some s => Nat.ltb 0 (length (chars s))
  | None => false
  end.

Inductive Issue :=
| OneLocalPath
| OneSourceType
| SaveAsFilename
| TimestampsNeedVerboseJson
| OneShortcutSource
| DuplicateId (id : string) (index : nat).

(** The [superRefine] of an item: the issues it adds, in order. *)
Definition itemIssues (value : Item) : list Issue :=
  let hasFile := present (file_path value) in
  let hasPath := present (path value) in
  let hasAudioPath := present (audio_path value) in
  let hasUrl := present (url value) in
  let localCount :=
    (if hasFile then 1 else 0) + (if hasPath then 1 else 0)
    + (if hasAudioPath then 1 else 0) in
  let hasLocal := Nat.ltb 0 localCount in
  (if Nat.ltb 1 localCount then [OneLocalPath] else [])
  ++ (if Bool.eqb hasLocal hasUrl then [OneSourceType] else [])
  ++ (if saveAsIssue (save_as value) then [SaveAsFilename] else []).

(** The loop over the items' ids, from index [i] on: [seenIds] is the set
    built so far. *)
Fixpoint duplicateIds (seenIds : gset string) (i : nat) (items : list Item)
  : list Issue :=
  match items with
  | [] => []
  | item :: rest =>
      match id item with
      | Some s =>
          if present (Some s) then
            (if bool_decide (s ∈ seenIds) then [DuplicateId s i] else [])
            ++ duplicateIds ({[ s ]} ∪ seenIds) (S i) rest
          else duplicateIds seenIds (S i) rest
      | None => duplicateIds seenIds (S i) rest
      end
  end.

(** The [superRefine] of the whole input. *)
Definition inputIssues (response_format : GroqAudioResponseFormat)
    (timestamp_granularities : list TimestampGranularity)
    (file_path url : option string) (items : list Item) : list Issue :=
  (if Nat.ltb 0 (length timestamp_granularities)
      && match response_format with VERBOSE_JSON => false | _ => true end
   then [TimestampsNeedVerboseJson] else [])
  ++ (if Nat.ltb 1 ((if present file_path then 1 else 0)
                    + (if present url then 1 else 0))
      then [OneShortcutSource] else [])
  ++ duplicateIds ∅ 0 items.

(** The callback of [effectiveItems] in [transcribeAudioTool]: an item
    without a [file_path] takes it from [path], and from [audio_path] over
    that. *)
Definition effectiveItem (item : Item) : Item :=
  if negb (present (file_path item)) then
    let fromPath := if present (path item) then path item else file_path item in
    let fromAudioPath :=
      if present (audio_path item) then audio_path item else fromPath in
    {| id := id item; save_as := save_as item; file_path := fromAudioPath;
       path := path item; audio_path := audio_path item; url := url item |}
  else item.

(** The single input shortcut, and the items the tool goes through. *)
Definition legacyItem (file_path url save_as : option string) : list Item :=
  if present file_path || present url then
    [{| id := None;
        save_as := if present save_as then save_as else None;
        file_path := if present file_path then file_path else None;
        path := None; audio_path := None;
        url := if present url then url else None |}]
  else [].

Definition effectiveItems (items : list Item) (file_path url save_as : option string)
  : list Item :=
  effectiveItem <$> (if Nat.ltb 0 (length items) then items
                     else legacyItem file_path url save_as).

(** The non-empty ids, in the order of the items. *)
Definition givenIds (items : list Item) : list string :=
  omap (λ item, if present (id item) then id item else None) items.

Lemma duplicateIds_spec (seenIds : gset string) (i : nat) (items : list Item)
    (s : string) (k : nat) :
  DuplicateId s k ∈ duplicateIds seenIds i items ↔
  ∃ n item, k = i + n ∧ items !! n = Some item ∧ id item = Some s ∧ s ≠ ""
    ∧ (s ∈ seenIds ∨ ∃ m earlier, m < n ∧ items !! m = Some earlier
                                  ∧ id earlier = Some s).
Proof.
  revert seenIds i. induction items as [|item rest IH]; intros seenIds i.
  { simpl. rewrite elem_of_nil. split; [done|]. by intros (n & ? & _ & ? & _). }
  assert (∀ t : string, present (Some t) = true ↔ t ≠ "") as Hpresent.
  { intros [|c t]; simpl; split; try done. }
  assert (∀ seen,
    DuplicateId s k ∈ duplicateIds seen (S i) rest ↔
    ∃ n item', k = i + S n ∧ (item :: rest) !! S n = Some item' ∧ id item' = Some s
      ∧ s ≠ "" ∧ (s ∈ seen ∨ ∃ m earlier, m < n ∧ rest !! m = Some earlier
                                          ∧ id earlier = Some s)) as Hrest.
  { intros seen. rewrite IH. simpl.
    split; intros (n & it & -> & H); exists n, it; (split; [lia|done]). }
  cbn [duplicateIds]. destruct (id item) as [t|] eqn:Eid.
  - destruct (present (Some t)) eqn:Et.
    + apply Hpresent in Et. rewrite elem_of_app, Hrest. split.
      * intros [Hhere|(n & it & -> & Hn & Hid & Hs & Hseen)].
        -- case_bool_decide as Hin; [|by apply elem_of_nil in Hhere].
           apply list_elem_of_singleton in Hhere. injection Hhere as -> ->.
           exists 0, item. split_and!; try done; try lia. by left.
        -- exists (S n), it. split_and!; try done.
           destruct Hseen as [Hseen|(m & e & Hm & He & Hide)].
           ++ apply elem_of_union in Hseen as [Hseen|Hseen]; [|by left].
              apply elem_of_singleton in Hseen as ->. right.
              exists 0, item. split_and!; try done. lia.
           ++ right. exists (S m), e. split_and!; try done. lia.
      * intros (n & it & -> & Hn & Hid & Hs & Hseen). destruct n as [|n].
        -- left. simpl in Hn. injection Hn as ->.
           rewrite Eid in Hid. injection Hid as ->.
           destruct Hseen as [Hseen|(m & ? & Hm & _)]; [|lia].
           rewrite bool_decide_eq_true_2 by done.
           rewrite Nat.add_0_r. by apply list_elem_of_singleton.
        -- right. exists n, it. split_and!; try done.
           destruct Hseen as [Hseen|(m & e & Hm & He & Hide)].
           ++ left. apply elem_of_union. by right.
           ++ destruct m as [|m].
              ** simpl in He. injection He as ->. rewrite Eid in Hide.
                 injection Hide as ->. left. apply elem_of_union. left.
                 by apply elem_of_singleton.
              ** right. exists m, e. split_and!; try done. lia.
    + assert (t = "") as -> by (destruct t; [done|by simpl in Et]).
      rewrite Hrest. split.
      * intros (n & it & -> & Hn & Hid & Hs & Hseen).
        exists (S n), it. split_and!; try done.
        destruct Hseen as [Hseen|(m & e & Hm & He & Hide)]; [by left|].
        right. exists (S m), e. split_and!; try done. lia.
      * intros (n & it & -> & Hn & Hid & Hs & Hseen). destruct n as [|n].
        { simpl in Hn. injection Hn as ->. rewrite Eid in Hid. by injection Hid as <-. }
        exists n, it. split_and!; try done.
        destruct Hseen as [Hseen|(m & e & Hm & He & Hide)]; [by left|].
        destruct m as [|m].
        { simpl in He. injection He as ->. rewrite Eid in Hide. by injection Hide as <-. }
        right. exists m, e. split_and!; try done. lia.
  - rewrite Hrest. split.
    + intros (n & it & -> & Hn & Hid & Hs & Hseen).
      exists (S n), it. split_and!; try done.
      destruct Hseen as [Hseen|(m & e & Hm & He & Hide)]; [by left|].
      right. exists (S m), e. split_and!; try done. lia.
    + intros (n & it & -> & Hn & Hid & Hs & Hseen). destruct n as [|n].
      { simpl in Hn. injection Hn as ->. by rewrite Eid in Hid. }
      exists n, it. split_and!; try done.
      destruct Hseen as [Hseen|(m & e & Hm & He & Hide)]; [by left|].
      destruct m as [|m].
      { simpl in He. injection He as ->. by rewrite Eid in Hide. }
      right. exists m, e. split_and!; try done. lia.
Qed.

Lemma duplicateIds_nil (seenIds : gset string) (i : nat) (items : list Item) :
  duplicateIds seenIds i items = [] ↔
  NoDup (givenIds items) ∧ ∀ s, s ∈ givenIds items → s ∉ seenIds.
Proof.
  revert seenIds i. induction items as [|item rest IH]; intros seenIds i.
  { simpl. split; [|done]. intros _. split; [constructor|]. by intros s ?%elem_of_nil. }
  unfold givenIds. cbn [duplicateIds omap list_omap].
  fold (givenIds rest). destruct (id item) as [t|] eqn:Eid.
  - destruct (present (Some t)) eqn:Et.
    + rewrite app_nil, IH, NoDup_cons. case_bool_decide as Hin.
      * split; [by intros [? _]|]. intros [_ Hseen].
        destruct (Hseen t); [by left|done].
      * split.
        -- intros (_ & Hnd & Hseen). split_and!; try done.
           ++ intros Ht. apply (Hseen t Ht). set_solver.
           ++ intros s [->|Hs]%elem_of_cons; [done|].
              specialize (Hseen s Hs). set_solver.
        -- intros ([Ht Hnd] & Hseen). split_and!; try done.
           intros s Hs [->%elem_of_singleton|Hs']%elem_of_union; [done|].
           apply (Hseen s); [by right|done].
    + apply IH.
  - apply IH.
Qed.

(** X25.  Which items the id check blames: an issue names index [k] and id
    [s] exactly when the item at [k] carries the non-empty id [s] and an
    item before it carries the same id.  The first holder of an id is never
    blamed, every later one is, and items without an id or with an empty
    one never are. *)
Theorem duplicate_ids_blamed (items : list Item) (s : string) (k : nat) :
  DuplicateId s k ∈ duplicateIds ∅ 0 items ↔
  s ≠ "" ∧ ∃ item earlier m,
    items !! k = Some item ∧ id item = Some s ∧
    m < k ∧ items !! m = Some earlier ∧ id earlier = Some s.
Proof.
  rewrite duplicateIds_spec. split.
  - intros (n & item & -> & Hn & Hid & Hs & [Hseen|(m & e & Hm & He & Hide)]).
    { by apply not_elem_of_empty in Hseen. }
    split; [done|]. by exists item, e, m.
  - intros (Hs & item & e & m & Hk & Hid & Hm & He & Hide).
    exists k, item. split_and!; try done. right. by exists m, e.
Qed.

(** X26.  The id check passes exactly when the non-empty ids of the items
    are pairwise distinct; items without an id, or with an empty one, never
    clash. *)
Theorem unique_ids_accepted (items : list Item) :
  duplicateIds ∅ 0 items = [] ↔ NoDup (givenIds items).
Proof.
  rewrite duplicateIds_nil. split; [by intros [? _]|].
  intros H. split; [done|]. intros s _. apply not_elem_of_empty.
Qed.

(** The four places an item can name its source in. *)
Definition sources (value : Item) : list (option string) :=
  [file_path value; path value; audio_path value; url value].

(** X27.  An item passes its refinement exactly when one and only one of
    [file_path], [path], [audio_path] and [url] is a non-empty string and
    [save_as], when given, has no path separator and no NUL in it. *)
Theorem item_accepted (value : Item) :
  itemIssues value = [] ↔
  length (List.filter present (sources value)) = 1
  ∧ saveAsIssue (save_as value) = false.
Proof.
  unfold itemIssues, sources. cbv zeta. cbn [List.filter].
  destruct (present (file_path value)), (present (path value)),
    (present (audio_path value)), (present (url value)),
    (saveAsIssue (save_as value)); cbn; split; try done; intros [? ?]; done.
Qed.

(** X28.  What the tool transcribes for an item that passed its
    refinement: either the [url], and then no file, or a file, and then no
    url; the file is the one local field that was given, whichever of
    [file_path], [path] and [audio_path] it was.  The id and [save_as] are
    passed on unchanged. *)
Theorem accepted_item_source (item : Item) :
  itemIssues item = [] →
  let item' := effectiveItem item in
  xorb (present (file_path item')) (present (url item')) = true
  ∧ url item' = url item ∧ id item' = id item ∧ save_as item' = save_as item
  ∧ ∀ v, v ∈ [file_path item; path item; audio_path item] →
         present v = true → file_path item' = v.
Proof.
  intros Hone. unfold itemIssues in Hone. cbv zeta in Hone.
  unfold effectiveItem. cbv zeta.
  destruct (present (file_path item)) eqn:E1, (present (path item)) eqn:E2,
    (present (audio_path item)) eqn:E3, (present (url item)) eqn:E4;
    cbn in Hone; try done; cbn [negb file_path url id save_as];
    rewrite ?E1, ?E2, ?E3, ?E4; (split_and!; try done);
    intros v Hv Hp; rewrite !elem_of_cons, elem_of_nil in Hv;
    destruct Hv as [->|[->|[->|[]]]]; congruence.
Qed.

Example alias_precedence :
  let item := {| id := None; save_as := None; file_path := Some "";
                 path := Some "a.mp3"; audio_path := Some "b.mp3"; url := None |} in
  file_path (effectiveItem item) = Some "b.mp3"
  ∧ itemIssues item = [OneLocalPath]
  ∧ itemIssues {| id := None; save_as := Some "a/b.txt"; file_path := None;
                  path := None; audio_path := None; url := None |}
    = [OneSourceType; SaveAsFilename].
Proof. by split_and!. Qed.

Definition urlItem (name address : string) : Item :=
  {| id := Some name; save_as := None; file_path := None; path := None;
     audio_path := None; url := Some address |}.

Example duplicate_ids_example :
  duplicateIds ∅ 0 [urlItem "dup" "https://example.com/a.wav";
                    urlItem "" "https://example.com/b.wav";
                    urlItem "dup" "https://example.com/c.wav";
                    urlItem "" "https://example.com/d.wav";
                    urlItem "dup" "https://example.com/e.wav"]
  = [DuplicateId "dup" 2; DuplicateId "dup" 4].
Proof. by vm_compute. Qed.

Example legacy_shortcut :
  effectiveItems [] None (Some "https://example.com/a.wav") (Some "a.txt")
  = [{| id := None; save_as := Some "a.txt"; file_path := None; path := None;
        audio_path := None; url := Some "https://example.com/a.wav" |}]
  ∧ effectiveItems [] None None (Some "a.txt") = [].
Proof. by split. Qed.

Definition aliasItem : Item :=
  {| id := None; save_as := Some "b.txt"; file_path := None; path := None;
     audio_path := Some "/abs/b.mp3"; url := None |}.

Lemma accepted_item_source_witness :
  itemIssues aliasItem = []
  ∧ file_path (effectiveItem aliasItem) = Some "/abs/b.mp3"
  ∧ url (effectiveItem aliasItem) = None.
Proof.
  destruct (accepted_item_source aliasItem eq_refl) as (_ & Hurl & _ & _ & Hfile).
  split_and!; [done| |done].
  apply Hfile; [|done]. apply list_elem_of_further, list_elem_of_further, list_elem_of_here.
Defined.

End Validation.
